(** * ir-keytable: protocol catalog, device discovery, protocol negotiation,
      keytable store, keycode programmer and BPF decoder registry

    A shallow embedding of [utils/keytable/keytable.c] (v4l-utils).  C strings
    are [string]s (the terminating NUL is the end of the string), the
    [enum sysfs_protocols] bit masks are 32-bit unsigned values carried in [Z],
    linked lists are [list]s in head-first order, and the process-wide
    variables of the program are the fields of one explicit state record. *)

From Stdlib Require Import ZArith List String Ascii Bool Lia Sorted.
Import ListNotations.

Open Scope Z_scope.

(* ================================================================== *)
(** * Part I: definitions *)
(* ================================================================== *)

(** ** C string helpers *)

(** [*p] for a pointer into a NUL-terminated string. *)
Definition deref (s : string) : ascii :=
  match s with
  | EmptyString => zero
  | String c _ => c
  end.

Definition is_empty (s : string) : bool :=
  match s with
  | EmptyString => true
  | String _ _ => false
  end.

(** [tolower] in the C locale. *)
Definition tolower (c : ascii) : ascii :=
  let n := N_of_ascii c in
  if (65 <=? n)%N && (n <=? 90)%N then ascii_of_N (n + 32) else c.

Fixpoint lower (s : string) : string :=
  match s with
  | EmptyString => EmptyString
  | String c r => String (tolower c) (lower r)
  end.

(** [!strcasecmp(a, b)] *)
Definition strcasecmp_eq (a b : string) : bool := String.eqb (lower a) (lower b).

(** [!strcmp(a, b)] *)
Definition strcmp_eq (a b : string) : bool := String.eqb a b.

(** [!strncmp(s, p, strlen(p))] *)
Definition has_prefix (p s : string) : bool := String.prefix p s.

(** [strstr(hay, needle) != NULL] *)
Fixpoint strstr (hay needle : string) : bool :=
  String.prefix needle hay ||
  match hay with
  | EmptyString => false
  | String _ r => strstr r needle
  end.

(** ** Protocol catalog *)

Definition SYSFS_UNKNOWN  : Z := Z.shiftl 1 0.
Definition SYSFS_OTHER    : Z := Z.shiftl 1 1.
Definition SYSFS_LIRC     : Z := Z.shiftl 1 2.
Definition SYSFS_RC5      : Z := Z.shiftl 1 3.
Definition SYSFS_RC5_SZ   : Z := Z.shiftl 1 4.
Definition SYSFS_JVC      : Z := Z.shiftl 1 5.
Definition SYSFS_SONY     : Z := Z.shiftl 1 6.
Definition SYSFS_NEC      : Z := Z.shiftl 1 7.
Definition SYSFS_SANYO    : Z := Z.shiftl 1 8.
Definition SYSFS_MCE_KBD  : Z := Z.shiftl 1 9.
Definition SYSFS_RC6      : Z := Z.shiftl 1 10.
Definition SYSFS_SHARP    : Z := Z.shiftl 1 11.
Definition SYSFS_XMP      : Z := Z.shiftl 1 12.
Definition SYSFS_CEC      : Z := Z.shiftl 1 13.
Definition SYSFS_IMON     : Z := Z.shiftl 1 14.
Definition SYSFS_RCMM     : Z := Z.shiftl 1 15.
Definition SYSFS_XBOX_DVD : Z := Z.shiftl 1 16.
Definition SYSFS_INVALID  : Z := 0.

(** [~0] stored in the 32-bit enum. *)
Definition SYSFS_ALL : Z := Z.ones 32.

Record protocol_map_entry := mk_pme {
  pme_name : string;
  sysfs1_name : option string;
  sysfs_protocol : Z
}.

(** The table without its terminating [{ NULL, NULL, SYSFS_INVALID }] entry,
    which only stops the loops. *)
Definition protocol_map : list protocol_map_entry := [
  mk_pme "unknown"    None                   SYSFS_UNKNOWN;
  mk_pme "other"      None                   SYSFS_OTHER;
  mk_pme "lirc"       None                   SYSFS_LIRC;
  mk_pme "rc-5"       (Some "/rc5_decoder"%string)  SYSFS_RC5;
  mk_pme "rc-5x"      None                   SYSFS_INVALID;
  mk_pme "rc-5-sz"    None                   SYSFS_RC5_SZ;
  mk_pme "jvc"        (Some "/jvc_decoder"%string)  SYSFS_JVC;
  mk_pme "sony"       (Some "/sony_decoder"%string) SYSFS_SONY;
  mk_pme "sony12"     None                   SYSFS_INVALID;
  mk_pme "sony15"     None                   SYSFS_INVALID;
  mk_pme "sony20"     None                   SYSFS_INVALID;
  mk_pme "nec"        (Some "/nec_decoder"%string)  SYSFS_NEC;
  mk_pme "sanyo"      None                   SYSFS_SANYO;
  mk_pme "mce_kbd"    None                   SYSFS_MCE_KBD;
  mk_pme "rc-6"       (Some "/rc6_decoder"%string)  SYSFS_RC6;
  mk_pme "rc-6-0"     None                   SYSFS_INVALID;
  mk_pme "rc-6-6a-20" None                   SYSFS_INVALID;
  mk_pme "rc-6-6a-24" None                   SYSFS_INVALID;
  mk_pme "rc-6-6a-32" None                   SYSFS_INVALID;
  mk_pme "rc-6-mce"   None                   SYSFS_INVALID;
  mk_pme "sharp"      None                   SYSFS_SHARP;
  mk_pme "xmp"        (Some "/xmp_decoder"%string)  SYSFS_XMP;
  mk_pme "cec"        None                   SYSFS_CEC;
  mk_pme "imon"       None                   SYSFS_IMON;
  mk_pme "rc-mm"      None                   SYSFS_RCMM;
  mk_pme "xbox-dvd"   None                   SYSFS_XBOX_DVD
].

Definition is_sep (c : ascii) : bool :=
  Ascii.eqb c "-" || Ascii.eqb c "_".

(** [protocol_like]: one loop round per recursive call.  Each round skips at
    most one separator on either side, compares the characters under the two
    pointers case-insensitively and advances both.  When a pointer sits on the
    terminating NUL after the skip and the comparison still succeeds, the
    [a++; b++] step leaves the string and the next loop test reads beyond it:
    that is [None]. *)
Fixpoint protocol_like (a b : string) {struct a} : option bool :=
  match a with
  | EmptyString => Some (is_empty b)
  | String ca ra =>
    match b with
    | EmptyString => Some false
    | String cb rb =>
      let b1 := if is_sep cb then rb else b in
      if is_sep ca then
        match ra with
        | EmptyString =>
            if Ascii.eqb (tolower zero) (tolower (deref b1)) then None
            else Some false
        | String ca1 ra1 =>
            if Ascii.eqb (tolower ca1) (tolower (deref b1)) then
              match b1 with
              | EmptyString => None
              | String _ b2 => protocol_like ra1 b2
              end
            else Some false
        end
      else
        if Ascii.eqb (tolower ca) (tolower (deref b1)) then
          match b1 with
          | EmptyString => None
          | String _ b2 => protocol_like ra b2
          end
        else Some false
    end
  end.

(** The [for (pme = protocol_map; pme->name; pme++)] loop of
    [parse_sysfs_protocol]. *)
Fixpoint parse_loop (name : string) (pm : list protocol_map_entry) : option Z :=
  match pm with
  | [] => Some SYSFS_INVALID
  | pme :: rest =>
    match protocol_like name (pme_name pme) with
    | None => None
    | Some true => Some (sysfs_protocol pme)
    | Some false => parse_loop name rest
    end
  end.

(** [parse_sysfs_protocol]; [name = None] is the NULL pointer. *)
Definition parse_sysfs_protocol (name : option string) (all_allowed : bool)
  : option Z :=
  match name with
  | None => Some SYSFS_INVALID
  | Some n =>
    if all_allowed && strcasecmp_eq n "all" then Some SYSFS_ALL
    else parse_loop n protocol_map
  end.

(** [write_sysfs_protocols]: the text printed through [fmt], with the working
    copy of the mask losing each bit once it has been printed. *)
Fixpoint write_loop (pm : list protocol_map_entry) (protocols : Z)
    (fmt : string -> string) : string :=
  match pm with
  | [] => EmptyString
  | pme :: rest =>
    if Z.land protocols (sysfs_protocol pme) =? 0 then
      write_loop rest protocols fmt
    else
      (fmt (pme_name pme) ++
       write_loop rest (Z.land protocols (Z.lnot (sysfs_protocol pme))) fmt)%string
  end.

Definition write_sysfs_protocols (protocols : Z) (fmt : string -> string)
  : string :=
  write_loop protocol_map protocols fmt.

(** The names [write_sysfs_protocols] hands to [fprintf], one per call. *)
Fixpoint names_loop (pm : list protocol_map_entry) (protocols : Z)
  : list string :=
  match pm with
  | [] => []
  | pme :: rest =>
    if Z.land protocols (sysfs_protocol pme) =? 0 then
      names_loop rest protocols
    else
      pme_name pme ::
      names_loop rest (Z.land protocols (Z.lnot (sysfs_protocol pme)))
  end.

Definition written_names (protocols : Z) : list string :=
  names_loop protocol_map protocols.

(** [parse_sysfs_protocol] as its callers use it.  The [None] outcome of
    [parse_sysfs_protocol] never arises (lemma [parse_sysfs_protocol_defined]
    below: no catalog name ends in a separator), so the default is never
    taken. *)
Definition parse_protocol (name : string) (all_allowed : bool) : Z :=
  match parse_sysfs_protocol (Some name) all_allowed with
  | Some m => m
  | None => SYSFS_INVALID
  end.

(** ** BPF decoder registry *)

(** [struct protocol_param]: a name and a [long] value. *)
Record protocol_param := mk_param {
  param_name : string;
  param_value : Z
}.

(** [struct bpf_protocol]; the [next] pointer is the list structure. *)
Record bpf_protocol := mk_bpf {
  bpf_name : string;
  bpf_param : list protocol_param
}.

(** The inner loop of [compare_parameters]: [true] when it leaves through
    [break], that is with [b2 != NULL]. *)
Fixpoint param_found (a : protocol_param) (b : list protocol_param) : bool :=
  match b with
  | [] => false
  | b2 :: rest =>
    if strcmp_eq (param_name a) (param_name b2) &&
       (param_value a =? param_value b2)
    then true
    else param_found a rest
  end.

Fixpoint compare_parameters (a b : list protocol_param) : bool :=
  match a with
  | [] => true
  | p :: rest => if param_found p b then compare_parameters rest b else false
  end.

(** The scan of [add_bpf_protocol]: [true] when the function returns from
    inside the loop. *)
Fixpoint bpf_known (registry : list bpf_protocol) (new : bpf_protocol) : bool :=
  match registry with
  | [] => false
  | a :: rest =>
    if negb (strcmp_eq (bpf_name a) (bpf_name new)) then bpf_known rest new
    else if compare_parameters (bpf_param a) (bpf_param new) &&
            compare_parameters (bpf_param new) (bpf_param a)
         then true
         else bpf_known rest new
  end.

(** [add_bpf_protocol]; the registry is the global list [bpf_protocol]. *)
Definition add_bpf_protocol (new : bpf_protocol) (registry : list bpf_protocol)
  : list bpf_protocol :=
  if bpf_known registry new then registry else new :: registry.

(** [load_bpf_for_unsupported]: the loop state is the working mask and the
    registry. *)
Fixpoint load_bpf_loop (pm : list protocol_map_entry) (protocols supported : Z)
    (registry : list bpf_protocol) : Z * list bpf_protocol :=
  match pm with
  | [] => (protocols, registry)
  | pme :: rest =>
    if negb (sysfs_protocol pme =? SYSFS_XBOX_DVD) then
      load_bpf_loop rest protocols supported registry
    else if (Z.land protocols (sysfs_protocol pme) =? 0) ||
            negb (Z.land supported (sysfs_protocol pme) =? 0) then
      load_bpf_loop rest protocols supported registry
    else
      load_bpf_loop rest
        (Z.land protocols (Z.lnot (sysfs_protocol pme))) supported
        (add_bpf_protocol (mk_bpf (pme_name pme) []) registry)
  end.

Definition load_bpf_for_unsupported (protocols supported : Z)
    (registry : list bpf_protocol) : Z * list bpf_protocol :=
  load_bpf_loop protocol_map protocols supported registry.

(** ** Integer conversions of the C library *)

Definition INT_MAX : Z := 2 ^ 31 - 1.
Definition LONG_MAX : Z := 2 ^ 63 - 1.
Definition LONG_MIN : Z := - 2 ^ 63.
Definition ERANGE : Z := 34.
Definition EINVAL : Z := 22.

(** Conversion to [int] (two's complement, as gcc does it). *)
Definition to_int (x : Z) : Z := (x + 2 ^ 31) mod 2 ^ 32 - 2 ^ 31.
Definition to_u32 (x : Z) : Z := x mod 2 ^ 32.
Definition to_u64 (x : Z) : Z := x mod 2 ^ 64.

Definition isspace (c : ascii) : bool :=
  let n := N_of_ascii c in
  ((n =? 32) || ((9 <=? n) && (n <=? 13)))%N.

Fixpoint skip_space (s : string) : string :=
  match s with
  | EmptyString => EmptyString
  | String c r => if isspace c then skip_space r else s
  end.

Definition digit_val (c : ascii) : option Z :=
  let n := Z.of_N (N_of_ascii c) in
  if (48 <=? n) && (n <=? 57) then Some (n - 48)
  else if (97 <=? n) && (n <=? 122) then Some (n - 87)
  else if (65 <=? n) && (n <=? 90) then Some (n - 55)
  else None.

(** The digits of one number: value so far, what follows the digits, and
    whether any digit was read. *)
Fixpoint read_digits (base : Z) (s : string) (acc : Z) (any : bool)
  : Z * string * bool :=
  match s with
  | EmptyString => (acc, s, any)
  | String c r =>
    match digit_val c with
    | Some d => if d <? base then read_digits base r (acc * base + d) true
                else (acc, s, any)
    | None => (acc, s, any)
    end
  end.

Definition strip_sign (s : string) : bool * string :=
  match s with
  | String c r =>
    if Ascii.eqb c "-" then (true, r)
    else if Ascii.eqb c "+" then (false, r)
    else (false, s)
  | EmptyString => (false, s)
  end.

(** The C library's [strtol(nptr, &p, 0)]: the [long] result, the string [p]
    points to, and whether the call stored [ERANGE] in [errno].  Base 0 reads
    a [0x] prefix as hexadecimal, a leading [0] as octal, anything else as
    decimal; without digits nothing is converted and [p] is [nptr]. *)
Definition strtol0 (nptr : string) : Z * string * bool :=
  let (neg, s1) := strip_sign (skip_space nptr) in
  let clamp (acc : Z) (rest : string) :=
    let v := if neg then - acc else acc in
    if LONG_MAX <? v then (LONG_MAX, rest, true)
    else if v <? LONG_MIN then (LONG_MIN, rest, true)
    else (v, rest, false) in
  match s1 with
  | String "0" (String x r) =>
    if Ascii.eqb x "x" || Ascii.eqb x "X" then
      match read_digits 16 r 0 false with
      | (acc, rest, true) => clamp acc rest
      | (_, _, false) => (0, String x r, false)
      end
    else
      let '(acc, rest, _) := read_digits 8 s1 0 false in clamp acc rest
  | _ =>
    match read_digits 10 s1 0 false with
    | (acc, rest, true) => clamp acc rest
    | (_, _, false) => (0, nptr, false)
    end
  end.

(** The C library's [atoi], which is [(int) strtol(nptr, NULL, 10)]: optional
    blanks and sign, then decimal digits; the [long] value saturates at
    [LONG_MAX] and [LONG_MIN] before it is cut to an [int]. *)
Definition atoi (s : string) : Z :=
  let (neg, s1) := strip_sign (skip_space s) in
  let '(acc, _, _) := read_digits 10 s1 0 false in
  let v := if neg then - acc else acc in
  to_int (if LONG_MAX <? v then LONG_MAX
          else if v <? LONG_MIN then LONG_MIN else v).

(** ** Keytable store *)

(** [struct keytable_entry]: a 64-bit scancode and a 32-bit keycode. *)
Record keytable_entry := mk_ke {
  ke_scancode : Z;
  ke_keycode : Z
}.

(** The parts of [struct scancode_entry], [struct raw_entry] and
    [struct keymap] (declared in keymap.h) that keytable.c reads or writes. *)
Record scancode_entry := mk_se {
  se_scancode : Z;
  se_keycode : string
}.

Record raw_entry := mk_re {
  re_scancode : Z;
  re_keycode : string;
  re_raw : list Z
}.

Record keymap := mk_keymap {
  km_protocol : string;
  km_param : list protocol_param;
  km_scancode : list scancode_entry;
  km_raw : list raw_entry
}.

(** The process-wide variables: [raw_scancode], [keytable], [rawtable],
    [ch_proto], [bpf_protocol], the C library's [errno] and
    [input_protocol_version]. *)
Record globals := mk_globals {
  raw_scancode : Z;
  keytable : list keytable_entry;
  rawtable : list raw_entry;
  ch_proto : Z;
  bpf_protocols : list bpf_protocol;
  errno : Z;
  input_protocol_version : Z
}.

(** The values the variables have when the process starts. *)
Definition initial_globals : globals :=
  mk_globals 0 [] [] 0 [] 0 0.

Definition set_errno (g : globals) (e : Z) : globals :=
  mk_globals (raw_scancode g) (keytable g) (rawtable g) (ch_proto g)
             (bpf_protocols g) e (input_protocol_version g).

Definition push_key (g : globals) (ke : keytable_entry) : globals :=
  mk_globals (raw_scancode g) (ke :: keytable g) (rawtable g) (ch_proto g)
             (bpf_protocols g) (errno g) (input_protocol_version g).

(** [re->scancode = raw_scancode++; re->next = rawtable; rawtable = re;] *)
Definition push_raw (g : globals) (re : raw_entry) : globals :=
  mk_globals (to_int (raw_scancode g + 1)) (keytable g)
             (mk_re (to_u64 (raw_scancode g)) (re_keycode re) (re_raw re)
                :: rawtable g)
             (ch_proto g) (bpf_protocols g) (errno g)
             (input_protocol_version g).

Definition or_ch_proto (g : globals) (protocol : Z) : globals :=
  mk_globals (raw_scancode g) (keytable g) (rawtable g)
             (Z.lor (ch_proto g) protocol)
             (bpf_protocols g) (errno g) (input_protocol_version g).

Definition set_bpf_protocols (g : globals) (r : list bpf_protocol) : globals :=
  mk_globals (raw_scancode g) (keytable g) (rawtable g) (ch_proto g)
             r (errno g) (input_protocol_version g).

Definition set_keytable (g : globals) (kt : list keytable_entry) : globals :=
  mk_globals (raw_scancode g) kt (rawtable g) (ch_proto g)
             (bpf_protocols g) (errno g) (input_protocol_version g).

(** What [add_keymap] prints on stderr for the entries it drops. *)
Inductive diagnostic :=
| no_mapping_for_scancode (fname keycode : string) (scancode : Z)
| no_mapping (fname keycode : string).

Definition is_no_mapping (d : diagnostic) : bool :=
  match d with
  | no_mapping _ _ => true
  | no_mapping_for_scancode _ _ _ => false
  end.

Section Keytable.

(** The table [key_events] of the generated header parse.h: key names and
    their codes. *)
Variable key_events : list (string * Z).

Fixpoint parse_code_loop (tbl : list (string * Z)) (s : string) : Z :=
  match tbl with
  | [] => -1
  | (name, value) :: rest =>
    if strcasecmp_eq name s then value else parse_code_loop rest s
  end.

Definition parse_code (s : string) : Z := parse_code_loop key_events s.

(** The keycode resolution shared by both loops of [add_keymap]:
    [value = parse_code(k); if (value == -1) { value = strtol(k, &p, 0);
    if (errno || *p) ...continue }].  The result is the [int] value, or [None]
    for the [continue], and the [errno] left behind ([errno] is not cleared
    before [strtol]). *)
Definition keycode_value (e : Z) (keycode : string) : option Z * Z :=
  let value := parse_code keycode in
  if value =? -1 then
    let '(v, p, erange) := strtol0 keycode in
    let e' := if erange then ERANGE else e in
    if negb (e' =? 0) || negb (is_empty p) then (None, e')
    else (Some (to_int v), e')
  else (Some value, e).

Fixpoint scancode_loop (fname : string) (ses : list scancode_entry)
    (g : globals) : globals * list diagnostic :=
  match ses with
  | [] => (g, [])
  | se :: rest =>
    match keycode_value (errno g) (se_keycode se) with
    | (None, e) =>
      let (g', log) := scancode_loop fname rest (set_errno g e) in
      (g', no_mapping_for_scancode fname (se_keycode se) (se_scancode se) :: log)
    | (Some value, e) =>
      scancode_loop fname rest
        (push_key (set_errno g e) (mk_ke (se_scancode se) (to_u32 value)))
    end
  end.

Fixpoint raw_loop (fname : string) (res : list raw_entry)
    (g : globals) : globals * list diagnostic :=
  match res with
  | [] => (g, [])
  | re :: rest =>
    match keycode_value (errno g) (re_keycode re) with
    | (None, e) =>
      let (g', log) := raw_loop fname rest (set_errno g e) in
      (g', no_mapping fname (re_keycode re) :: log)
    | (Some value, e) =>
      let g1 := set_errno g e in
      raw_loop fname rest
        (push_raw
           (push_key g1 (mk_ke (to_u64 (raw_scancode g1)) (to_u32 value)))
           re)
    end
  end.

(** The head of the outer loop body of [add_keymap]: the protocol of the map
    either sets bits of [ch_proto] or becomes a BPF request that takes over
    the map's parameters. *)
Definition note_protocol (map : keymap) (g : globals) : globals :=
  let protocol := parse_protocol (km_protocol map) false in
  if protocol =? SYSFS_INVALID then
    if negb (strcmp_eq (km_protocol map) "none") then
      set_bpf_protocols g
        (add_bpf_protocol (mk_bpf (km_protocol map) (km_param map))
                          (bpf_protocols g))
    else g
  else or_ch_proto g protocol.

(** [add_keymap]: the new values of the process-wide variables and the
    diagnostics, in the order printed.  The function itself always
    returns 0. *)
Fixpoint add_keymap (maps : list keymap) (fname : string) (g : globals)
  : globals * list diagnostic :=
  match maps with
  | [] => (g, [])
  | map :: rest =>
    let g1 := note_protocol map g in
    let (g2, log2) := scancode_loop fname (km_scancode map) g1 in
    let (g3, log3) := raw_loop fname (km_raw map) g2 in
    let (g4, log4) := add_keymap rest fname g3 in
    (g4, log2 ++ log3 ++ log4)
  end.

(** Several keymap files merged one after the other ([-w] given more than
    once, or several matching auto-load rules). *)
Fixpoint add_keymaps (files : list (list keymap * string)) (g : globals)
  : globals * list diagnostic :=
  match files with
  | [] => (g, [])
  | (maps, fname) :: rest =>
    let (g1, log1) := add_keymap maps fname g in
    let (g2, log2) := add_keymaps rest g1 in
    (g2, log1 ++ log2)
  end.

End Keytable.

(** The raw entries of a keymap file, and of several. *)
Definition raw_entries (maps : list keymap) : list raw_entry :=
  flat_map km_raw maps.

Definition all_raw_entries (files : list (list keymap * string))
  : list raw_entry :=
  flat_map (fun f => raw_entries (fst f)) files.

(** ** Kernel keycode programmer *)

(** [struct input_keymap_entry_v2]; [scancode] holds the first [len] bytes of
    the byte array, read as one unsigned integer. *)
Record input_keymap_entry_v2 := mk_entry_v2 {
  v2_flags : Z;
  v2_len : Z;
  v2_index : Z;
  v2_keycode : Z;
  v2_scancode : Z
}.

(** The keycode-setting ioctl requests with their arguments. *)
Inductive ioctl_request :=
| EVIOCSKEYCODE (codes0 codes1 : Z)
| EVIOCSKEYCODE_V2 (entry : input_keymap_entry_v2).

Section Programmer.

(** The kernel behind the file descriptor: any state, and an [ioctl] that
    answers a request with a return value. *)
Variable kernel : Type.
Variable ioctl : kernel -> ioctl_request -> kernel * Z.

(** The [for] loop of [add_keys]: the kernel afterwards, the requests issued
    in order, the entries whose ioctl failed (each reported on stderr) and
    [write_cnt]. *)
Fixpoint add_keys_loop (kes : list keytable_entry) (k : kernel) (write_cnt : Z)
  : kernel * list ioctl_request * list keytable_entry * Z :=
  match kes with
  | [] => (k, [], [], write_cnt)
  | ke :: rest =>
    let codes0 := to_u32 (ke_scancode ke) in
    let codes1 := to_u32 (ke_keycode ke) in
    let req :=
      if negb (codes0 =? ke_scancode ke) then
        EVIOCSKEYCODE_V2 (mk_entry_v2 0 8 0 (ke_keycode ke) (ke_scancode ke))
      else EVIOCSKEYCODE codes0 codes1 in
    let (k1, ret) := ioctl k req in
    let '(k2, reqs, failed, cnt) :=
      add_keys_loop rest k1 (to_int (write_cnt + 1)) in
    (k2, req :: reqs, (if ret =? 0 then failed else ke :: failed), cnt)
  end.

(** [add_keys]: programs the whole [keytable], then frees it. *)
Definition add_keys (g : globals) (k : kernel)
  : globals * kernel * list ioctl_request * list keytable_entry * Z :=
  let '(k', reqs, failed, cnt) := add_keys_loop (keytable g) k 0 in
  (set_keytable g [], k', reqs, failed, cnt).

End Programmer.

(** [get_input_protocol_version]: the answer of the [EVIOCGVERSION] ioctl is
    the version, or [None] with the [errno] of the failure. *)
Definition get_input_protocol_version (answer : option Z) (failure : Z)
    (g : globals) : Z * globals :=
  match answer with
  | Some v =>
    (0, mk_globals (raw_scancode g) (keytable g) (rawtable g) (ch_proto g)
                   (bpf_protocols g) (errno g) v)
  | None => (failure, set_errno g failure)
  end.

(** The test [input_protocol_version < 0x10001] by which [clear_table] and
    [display_table] choose the legacy ioctl pair. *)
Definition legacy_family (g : globals) : bool :=
  input_protocol_version g <? 65537.

(** ** Sysfs: reading *)

(** What the program can see of the file system: the entry names [readdir]
    yields for a directory, in order, and the content of a readable file. *)
Record sysfs_tree := mk_sysfs {
  fs_readdir : string -> option (list string);
  fs_read : string -> option string
}.

Definition newline : ascii := ascii_of_N 10.

(** One [fgets] with room for [room] characters: the line read (through the
    newline, if it fits) and the rest of the stream. *)
Fixpoint fgets_take (room : nat) (stream : string) : string * string :=
  match room, stream with
  | S k, String c r =>
    if Ascii.eqb c newline then (String c EmptyString, r)
    else let (l, rest) := fgets_take k r in (String c l, rest)
  | _, _ => (EmptyString, stream)
  end.

(** [fgets(s, size, fp)]: [None] at end of file. *)
Definition fgets (size : nat) (stream : string) : option (string * string) :=
  match stream with
  | EmptyString => None
  | _ => Some (fgets_take (size - 1) stream)
  end.

(** The lines successive [fgets(s, sizeof(s), fp)] calls deliver until the
    end of the file; every call takes at least one character, so
    [String.length stream] rounds reach the end. *)
Fixpoint fgets_rounds (fuel : nat) (size : nat) (stream : string) : list string :=
  match fuel with
  | O => []
  | S f =>
    match fgets size stream with
    | None => []
    | Some (s, rest) => s :: fgets_rounds f size rest
    end
  end.

Definition file_lines (size : nat) (content : string) : list string :=
  fgets_rounds (String.length content) size content.

(** [strtok]: skip leading delimiters, then cut the token at the next
    delimiter; the second component is where the next call resumes. *)
Fixpoint skip_delims (delim : ascii -> bool) (s : string) : string :=
  match s with
  | EmptyString => EmptyString
  | String c r => if delim c then skip_delims delim r else s
  end.

Fixpoint take_token (delim : ascii -> bool) (s : string) : string * string :=
  match s with
  | EmptyString => (EmptyString, EmptyString)
  | String c r =>
    if delim c then (EmptyString, r)
    else let (t, rest) := take_token delim r in (String c t, rest)
  end.

Definition strtok (delim : ascii -> bool) (s : string) : option (string * string) :=
  match skip_delims delim s with
  | EmptyString => None
  | s' => Some (take_token delim s')
  end.

(** All tokens of [for (p = strtok(buf, d); p; p = strtok(NULL, d))]: the
    pieces between delimiters, empty pieces dropped. *)
Fixpoint split_at (delim : ascii -> bool) (s : string) : list string :=
  match s with
  | EmptyString => [EmptyString]
  | String c r =>
    if delim c then EmptyString :: split_at delim r
    else match split_at delim r with
         | h :: t => String c h :: t
         | [] => [String c EmptyString]
         end
  end.

Definition strtok_all (delim : ascii -> bool) (s : string) : list string :=
  filter (fun t => negb (is_empty t)) (split_at delim s).

Definition is_equals (c : ascii) : bool := Ascii.eqb c "=".
Definition is_newline (c : ascii) : bool := Ascii.eqb c newline.
Definition is_blank_or_newline (c : ascii) : bool :=
  Ascii.eqb c " " || Ascii.eqb c newline.

(** [seek_sysfs_dir]: the names found, without the empty node that ends the
    list; [None] is the NULL result (no directory, or nothing found). *)
Definition seek_sysfs_dir (fs : sysfs_tree) (dname : string)
    (node_name : option string) : option (list string) :=
  match fs_readdir fs dname with
  | None => None
  | Some entries =>
    let wanted d :=
      match node_name with
      | None => true
      | Some n => has_prefix n d
      end in
    let full d :=
      match node_name with
      | None => (dname ++ d)%string
      | Some _ => (dname ++ d ++ "/")%string
      end in
    match map full (filter wanted entries) with
    | [] => None
    | names => Some names
    end
  end.

(** The [while (fgets(...))] loop of [read_sysfs_uevents] over the lines of
    the file; [None] is the NULL returned after "Error on uevent
    information". *)
Fixpoint uevents_of_lines (lines : list string) : option (list (string * string)) :=
  match lines with
  | [] => Some []
  | s :: rest =>
    match strtok is_equals s with
    | None => uevents_of_lines rest
    | Some (key, after) =>
      match strtok is_newline after with
      | None => None
      | Some (value, _) =>
        match uevents_of_lines rest with
        | None => None
        | Some more => Some ((key, value) :: more)
        end
      end
    end
  end.

(** [read_sysfs_uevents]: the (key, value) list without its empty last node;
    [None] is NULL. *)
Definition read_sysfs_uevents (fs : sysfs_tree) (dname : string)
  : option (list (string * string)) :=
  match fs_read fs (dname ++ "uevent")%string with
  | None => None
  | Some content => uevents_of_lines (file_lines 4096 content)
  end.

(** The search loops of [get_attribs] over a uevent list: the first
    [DEVNAME], and the last of each of [DRV_NAME], [DEV_NAME], [NAME]. *)
Fixpoint uevent_first (key : string) (ue : list (string * string)) : option string :=
  match ue with
  | [] => None
  | (k, v) :: rest => if strcmp_eq k key then Some v else uevent_first key rest
  end.

Fixpoint uevent_last (key : string) (ue : list (string * string))
    (found : option string) : option string :=
  match ue with
  | [] => found
  | (k, v) :: rest =>
    uevent_last key rest (if strcmp_eq k key then Some v else found)
  end.

(** [find_device] *)
Inductive find_result :=
| devices (names : list string)
| no_devices_found
| not_found_device (name : string).

Definition rc_class_dir : string := "/sys/class/rc/".

(** [cur->name + strlen(dname)] *)
Fixpoint skip_chars (n : nat) (s : string) : string :=
  match n, s with
  | S k, String _ r => skip_chars k r
  | _, _ => s
  end.

Fixpoint find_name (dname n : string) (names : list string) : option string :=
  match names with
  | [] => None
  | cur :: rest =>
    if strcmp_eq (skip_chars (String.length dname) cur) n then Some cur
    else find_name dname n rest
  end.

Definition find_device (fs : sysfs_tree) (name : option string) : find_result :=
  match seek_sysfs_dir fs rc_class_dir (Some "rc"%string) with
  | None => no_devices_found
  | Some names =>
    match name with
    | Some nm =>
      match find_name rc_class_dir (nm ++ "/")%string names with
      | Some found => devices [found]
      | None => not_found_device nm
      end
    | None => devices names
    end
  end.

(** ** Protocol negotiator *)

Inductive rc_type := UNKNOWN_TYPE | SOFTWARE_DECODER | HARDWARE_DECODER.

Inductive sysfs_ver := VERSION_1 | VERSION_2.

(** [struct rc_device]; an absent name is the NULL pointer. *)
Record rc_device := mk_rc_device {
  sysfs_name : string;
  input_name : option string;
  lirc_name : option string;
  drv_name : option string;
  dev_name : option string;
  keytable_name : option string;
  version : sysfs_ver;
  type : rc_type;
  supported : Z;
  current : Z
}.

Definition set_masks (d : rc_device) (v : sysfs_ver) (t : rc_type)
    (sup cur : Z) : rc_device :=
  mk_rc_device (sysfs_name d) (input_name d) (lirc_name d) (drv_name d)
               (dev_name d) (keytable_name d) v t sup cur.

(** A token of a protocol file as a mask: unknown names count as "other". *)
Definition token_protocol (p : string) : Z :=
  let protocol := parse_protocol p false in
  if protocol =? SYSFS_INVALID then SYSFS_OTHER else protocol.

(** [v1_get_hw_protocols]: the first line of the file, token by token. *)
Definition v1_get_hw_protocols (fs : sysfs_tree) (name : string) : Z :=
  match fs_read fs name with
  | None => 0
  | Some content =>
    match fgets 4096 content with
    | None => 0
    | Some (buf, _) =>
      fold_left (fun protocols p => Z.lor protocols (token_protocol p))
                (strtok_all is_blank_or_newline buf) 0
    end
  end.

(** [v1_get_sw_enabled_protocol]: 1 when the first token of the [enabled]
    file is the integer 1, else 0.  Closing the file is taken to succeed. *)
Definition v1_get_sw_enabled_protocol (fs : sysfs_tree) (dirname : string) : Z :=
  match fs_read fs (dirname ++ "/enabled")%string with
  | None => 0
  | Some content =>
    match fgets 4096 content with
    | None => 0
    | Some (buf, _) =>
      match strtok is_blank_or_newline buf with
      | None => 0
      | Some (p, _) => if atoi p =? 1 then 1 else 0
      end
    end
  end.

(** [p++; p[strlen(p)-1] = '\0'] on a token that starts with a bracket. *)
Fixpoint drop_last (s : string) : string :=
  match s with
  | EmptyString => EmptyString
  | String c EmptyString => EmptyString
  | String c r => String c (drop_last r)
  end.

(** [v2_get_protocols]: the masks after reading the [protocols] file. *)
Definition v2_get_protocols (fs : sysfs_tree) (name : string) (sup cur : Z)
  : Z * Z :=
  match fs_read fs name with
  | None => (sup, cur)
  | Some content =>
    match fgets 4096 content with
    | None => (sup, cur)
    | Some (buf, _) =>
      fold_left
        (fun (sc : Z * Z) (p : string) =>
           let (enabled, p') :=
             match p with
             | String "[" r => (true, drop_last r)
             | _ => (false, p)
             end in
           let protocol := token_protocol p' in
           (Z.lor (fst sc) protocol,
            if enabled then Z.lor (snd sc) protocol else snd sc))
        (strtok_all is_blank_or_newline buf) (sup, cur)
    end
  end.

(** The catalog loop of the last branch of [get_attribs]: the first entry
    whose sysfs fragment occurs in the node name decides, and both
    assignments of that branch go to [supported]. *)
Fixpoint sw_decoder_loop (fs : sysfs_tree) (name : string)
    (pm : list protocol_map_entry) (d : rc_device) : rc_device :=
  match pm with
  | [] => d
  | pme :: rest =>
    match sysfs1_name pme with
    | None => sw_decoder_loop fs name rest d
    | Some fragment =>
      if strstr name fragment then
        let d1 := set_masks d (version d) (type d)
                    (Z.lor (supported d) (sysfs_protocol pme)) (current d) in
        if negb (v1_get_sw_enabled_protocol fs name =? 0) then
          set_masks d1 (version d1) (type d1)
            (Z.lor (supported d1) (sysfs_protocol pme)) (current d1)
        else d1
      else sw_decoder_loop fs name rest d
    end
  end.

(** The loop of [get_attribs] over the nodes of the device directory. *)
Fixpoint attribs_loop (fs : sysfs_tree) (attribs : list string)
    (d : rc_device) : rc_device :=
  match attribs with
  | [] => d
  | name :: rest =>
    let d' :=
      if strstr name "/protocols" then
        let (sup, cur) := v2_get_protocols fs name (supported d) (current d) in
        set_masks d VERSION_2 UNKNOWN_TYPE sup cur
      else if strstr name "/protocol" then
        set_masks d VERSION_1 HARDWARE_DECODER (supported d)
                  (v1_get_hw_protocols fs name)
      else if strstr name "/supported_protocols" then
        set_masks d VERSION_1 (type d) (v1_get_hw_protocols fs name) (current d)
      else sw_decoder_loop fs name protocol_map d in
    attribs_loop fs rest d'
  end.

Definition dev_path (v : string) : string := ("/dev/" ++ v)%string.

(** The lirc device node, when the device has a lirc subdirectory with a
    [DEVNAME]. *)
Definition find_lirc_name (fs : sysfs_tree) (sysfs_name : string) : option string :=
  match seek_sysfs_dir fs sysfs_name (Some "lirc"%string) with
  | Some (first :: _) =>
    match read_sysfs_uevents fs first with
    | Some ue => option_map dev_path (uevent_first "DEVNAME" ue)
    | None => None
    end
  | _ => None
  end.

(** [get_attribs]: the return value and the device record.  The outer [None]
    stands for the one run the C program does not survive: the directory
    cannot be listed for the last loop, and [attribs] is NULL. *)
Definition get_attribs (fs : sysfs_tree) (sysfs_name : string)
  : option (Z * rc_device) :=
  let d0 := mk_rc_device sysfs_name None (find_lirc_name fs sysfs_name)
              None None None VERSION_1 UNKNOWN_TYPE 0 0 in
  match seek_sysfs_dir fs sysfs_name (Some "input"%string) with
  | None => Some (EINVAL, d0)
  | Some [] => Some (EINVAL, d0)
  | Some (_ :: _ :: _) => Some (EINVAL, d0)
  | Some [input_node] =>
    match seek_sysfs_dir fs input_node (Some "event"%string) with
    | None => Some (EINVAL, d0)
    | Some [] => Some (EINVAL, d0)
    | Some (_ :: _ :: _) => Some (EINVAL, d0)
    | Some [event_node] =>
      match read_sysfs_uevents fs event_node with
      | None => Some (EINVAL, d0)
      | Some ue =>
        match uevent_first "DEVNAME" ue with
        | None => Some (EINVAL, d0)
        | Some v =>
          let d1 := mk_rc_device sysfs_name (Some (dev_path v)) (lirc_name d0)
                      None None None VERSION_1 UNKNOWN_TYPE 0 0 in
          match read_sysfs_uevents fs sysfs_name with
          | None => Some (EINVAL, d1)
          | Some ue2 =>
            let d2 := mk_rc_device sysfs_name (input_name d1) (lirc_name d1)
                        (uevent_last "DRV_NAME" ue2 None)
                        (uevent_last "DEV_NAME" ue2 None)
                        (uevent_last "NAME" ue2 None)
                        VERSION_1 SOFTWARE_DECODER 0 0 in
            match seek_sysfs_dir fs sysfs_name None with
            | None => None
            | Some attribs => Some (0, attribs_loop fs attribs d2)
            end
          end
        end
      end
    end
  end.

(** ** Sysfs: writing *)

(** What decides the outcome of a write: [stat] (the mode bits, when it
    succeeds), [fopen(name, "w")] and [fclose], each giving 0 or the [errno]
    of its failure. *)
Record sysfs_access := mk_access {
  st_mode : string -> option Z;
  fopen_w : string -> Z;
  fclose_w : string -> Z
}.

(** A write is the file name and the text printed to it. *)
Definition write_log := list (string * string).

Definition fmt_plus (name : string) : string :=
  ("+" ++ name ++ String newline EmptyString)%string.
Definition fmt_space (name : string) : string := (name ++ " ")%string.

(** 0222: the write permission bits. *)
Definition S_IWUGO : Z := 146.

(** The guard of [v2_set_protocols]:
    [!stat(name, &st) && !(st.st_mode & 0222)]. *)
Definition not_writable (acc : sysfs_access) (name : string) : bool :=
  match st_mode acc name with
  | Some mode => Z.land mode S_IWUGO =? 0
  | None => false
  end.

Definition v2_set_protocols (acc : sysfs_access) (d : rc_device) : Z * write_log :=
  let name := (sysfs_name d ++ "/protocols")%string in
  if not_writable acc name then (EINVAL, [])
  else if negb (fopen_w acc name =? 0) then (fopen_w acc name, [])
  else (fclose_w acc name,
        [(name, ("none" ++ String newline EmptyString ++
                 write_sysfs_protocols (current d) fmt_plus)%string)]).

Definition v1_set_hw_protocols (acc : sysfs_access) (d : rc_device) : Z * write_log :=
  let name := (sysfs_name d ++ "/protocol")%string in
  if negb (fopen_w acc name =? 0) then (fopen_w acc name, [])
  else (0, [(name, (write_sysfs_protocols (current d) fmt_space ++
                    String newline EmptyString)%string)]).

Definition v1_set_sw_enabled_protocol (acc : sysfs_access) (d : rc_device)
    (dirname : string) (enabled : Z) : Z * write_log :=
  let name := (sysfs_name d ++ dirname ++ "/enabled")%string in
  if negb (fopen_w acc name =? 0) then (fopen_w acc name, [])
  else (fclose_w acc name,
        [(name, if negb (enabled =? 0) then "1"%string else "0"%string)]).

(** The catalog loop of the software-decoder branch of [set_proto]. *)
Fixpoint set_sw_loop (acc : sysfs_access) (d : rc_device)
    (pm : list protocol_map_entry) (rc : Z) : Z * write_log :=
  match pm with
  | [] => (rc, [])
  | pme :: rest =>
    match sysfs1_name pme with
    | None => set_sw_loop acc d rest rc
    | Some dirname =>
      if Z.land (supported d) (sysfs_protocol pme) =? 0 then
        set_sw_loop acc d rest rc
      else
        let (r, w) := v1_set_sw_enabled_protocol acc d dirname
                        (Z.land (current d) (sysfs_protocol pme)) in
        let (rc', ws) := set_sw_loop acc d rest (to_int (rc + r)) in
        (rc', w ++ ws)
    end
  end.

(** [set_proto]: the return value, the device record afterwards and the
    writes made. *)
Definition set_proto (acc : sysfs_access) (d : rc_device)
  : Z * rc_device * write_log :=
  match version d with
  | VERSION_2 =>
    let (rc, w) := v2_set_protocols acc d in (rc, d, w)
  | VERSION_1 =>
    let d1 := set_masks d (version d) (type d) (supported d)
                (Z.land (current d) (supported d)) in
    match type d1 with
    | SOFTWARE_DECODER =>
      let (rc, w) := set_sw_loop acc d1 protocol_map 0 in (rc, d1, w)
    | _ =>
      let (rc, w) := v1_set_hw_protocols acc d1 in (rc, d1, w)
    end
  end.

(** ** Concrete trees for the examples *)

Fixpoint assoc {A : Type} (tbl : list (string * A)) (k : string) : option A :=
  match tbl with
  | [] => None
  | (k', v) :: rest => if String.eqb k' k then Some v else assoc rest k
  end.

Definition tree_of (dirs : list (string * list string))
    (files : list (string * string)) : sysfs_tree :=
  mk_sysfs (assoc dirs) (assoc files).

Definition nl : string := String newline EmptyString.

(** A V1 device with software decoders: rc-5 enabled, nec disabled. *)
Definition v1_sw_tree : sysfs_tree :=
  tree_of
    [ ("/sys/class/rc/", ["."; ".."; "rc0"]);
      ("/sys/class/rc/rc0/",
         ["."; ".."; "uevent"; "input5"; "rc5_decoder"; "nec_decoder"]);
      ("/sys/class/rc/rc0/input5/", ["."; ".."; "event3"; "uevent"]) ]%string
    [ ("/sys/class/rc/rc0/uevent",
         "NAME=rc-hauppauge" ++ nl ++ "DRV_NAME=saa7134" ++ nl);
      ("/sys/class/rc/rc0/input5/event3/uevent",
         "MAJOR=13" ++ nl ++ "MINOR=67" ++ nl ++ "DEVNAME=input/event3" ++ nl);
      ("/sys/class/rc/rc0/rc5_decoder/enabled", "1" ++ nl);
      ("/sys/class/rc/rc0/nec_decoder/enabled", "0" ++ nl) ]%string.

(** ** Notions the statements below are phrased in *)

(** A name with its separators removed and its letters in lower case. *)
Fixpoint strip (s : string) : string :=
  match s with
  | EmptyString => EmptyString
  | String c r => if is_sep c then strip r else String c (strip r)
  end.

Definition norm (s : string) : string := lower (strip s).

(** Every separator is followed by a character that is not a separator: no
    doubled separator and none at the end. *)
Fixpoint well_separated (s : string) : bool :=
  match s with
  | EmptyString => true
  | String c r =>
    (if is_sep c then negb (is_empty r) && negb (is_sep (deref r)) else true)
    && well_separated r
  end.

(** A proper C string (no NUL inside) that does not end in a separator. *)
Fixpoint no_trailing_sep (s : string) : bool :=
  match s with
  | EmptyString => true
  | String c r =>
    negb (Ascii.eqb c zero) &&
    (if is_empty r then negb (is_sep c) else no_trailing_sep r)
  end.

(** The names the documentation lists as carrying no kernel bit. *)
Definition zero_bit_aliases : list string :=
  [ "rc-5x"; "sony12"; "sony15"; "sony20"; "rc-6-0"; "rc-6-6a-20";
    "rc-6-6a-24"; "rc-6-6a-32"; "rc-6-mce" ]%string.

(** The canonical names of the catalog protocols whose bit is set in a mask,
    in catalog order. *)
Definition bit_set (m : Z) (pme : protocol_map_entry) : bool :=
  negb (Z.land m (sysfs_protocol pme) =? 0).

Definition names_of_mask (m : Z) : list string :=
  map pme_name (filter (bit_set m) protocol_map).

Fixpoint print_all (fmt : string -> string) (names : list string) : string :=
  match names with
  | [] => EmptyString
  | n :: rest => (fmt n ++ print_all fmt rest)%string
  end.

(** No two entries of a table share a bit. *)
Fixpoint disjoint_from (b : Z) (pm : list protocol_map_entry) : bool :=
  match pm with
  | [] => true
  | pme :: rest => (Z.land b (sysfs_protocol pme) =? 0) && disjoint_from b rest
  end.

Fixpoint disjoint_bits (pm : list protocol_map_entry) : bool :=
  match pm with
  | [] => true
  | pme :: rest => disjoint_from (sysfs_protocol pme) rest && disjoint_bits rest
  end.

(** Two parameter lists are the same set of (name, value) pairs. *)
Definition same_params (a b : list protocol_param) : Prop :=
  forall p, In p a <-> In p b.

(** A registered request equivalent to [new]. *)
Definition equivalent_request (new a : bpf_protocol) : Prop :=
  bpf_name a = bpf_name new /\ same_params (bpf_param a) (bpf_param new).

(** What the proofs need to know of each catalog entry, checked by running
    the definitions on the table. *)
Definition catalog_entry_ok (pme : protocol_map_entry) : bool :=
  well_separated (pme_name pme) &&
  negb (String.eqb (norm (pme_name pme)) "all") &&
  match parse_loop (pme_name pme) protocol_map with
  | Some m => m =? sysfs_protocol pme
  | None => false
  end.

(** The state of raw-entry virtualization: the counter is the number of raw
    entries recorded, the k-th recorded entry carries scancode k, and every
    recorded entry has a keytable binding under its scancode, whose keycode is
    the one its keycode name resolved to. *)
Definition raw_inv (key_events : list (string * Z)) (g : globals) : Prop :=
  raw_scancode g = Z.of_nat (List.length (rawtable g)) /\
  map re_scancode (rev (rawtable g)) =
    map Z.of_nat (seq 0 (List.length (rawtable g))) /\
  (forall r, In r (rawtable g) ->
     exists ke e v,
       In ke (keytable g) /\ ke_scancode ke = re_scancode r /\
       fst (keycode_value key_events e (re_keycode r)) = Some v /\
       ke_keycode ke = to_u32 v).

(** The raw entries dropped with a diagnostic. *)
Definition dropped_raw (log : list diagnostic) : nat :=
  List.length (filter is_no_mapping log).

(** What a keycode resolves to while [errno] is clear: the code of a key
    name, or the number [strtol] reads from the whole string within the range
    of [long]; [None] when it is neither. *)
Definition resolved_value (key_events : list (string * Z)) (keycode : string)
  : option Z :=
  fst (keycode_value key_events 0 keycode).

Definition resolves (key_events : list (string * Z)) (re : raw_entry) : bool :=
  match resolved_value key_events (re_keycode re) with
  | Some _ => true
  | None => false
  end.

(** The keycodes of the files, of scancode and raw entries alike. *)
Definition map_keycodes (map : keymap) : list string :=
  List.map se_keycode (km_scancode map) ++ List.map re_keycode (km_raw map).

Definition all_keycodes (files : list (list keymap * string)) : list string :=
  flat_map (fun f => flat_map map_keycodes (fst f)) files.

(** No keycode of the files makes [strtol] store [ERANGE]: with [errno]
    clear at the start it is still clear at every entry. *)
Definition errno_stays_clear (key_events : list (string * Z))
    (files : list (list keymap * string)) : bool :=
  forallb (fun keycode => snd (keycode_value key_events 0 keycode) =? 0)
          (all_keycodes files).

(** Raw entries with the scancodes [n], [n + 1], ... in place of their own. *)
Fixpoint numbered (n : nat) (res : list raw_entry) : list raw_entry :=
  match res with
  | [] => []
  | re :: rest =>
    mk_re (Z.of_nat n) (re_keycode re) (re_raw re) :: numbered (S n) rest
  end.

(** The diagnostics for the raw entries that do not resolve, file by file. *)
Definition dropped_diagnostics (key_events : list (string * Z))
    (files : list (list keymap * string)) : list diagnostic :=
  flat_map (fun f =>
              List.map (fun re => no_mapping (snd f) (re_keycode re))
                (filter (fun re => negb (resolves key_events re))
                        (raw_entries (fst f))))
           files.

(** The state of the tables after the raw entries [done] went through the
    raw loop with [errno] clear throughout: the raw table holds the entries
    that resolve, numbered in order, and the keytable a binding for each. *)
Definition recorded_inv (key_events : list (string * Z))
    (done : list raw_entry) (g : globals) : Prop :=
  errno g = 0 /\
  rev (rawtable g) = numbered 0 (filter (resolves key_events) done) /\
  raw_scancode g =
    Z.of_nat (List.length (filter (resolves key_events) done)) /\
  (forall k re v,
     nth_error (filter (resolves key_events) done) k = Some re ->
     resolved_value key_events (re_keycode re) = Some v ->
     In (mk_ke (Z.of_nat k) (to_u32 v)) (keytable g)).

(** The tables hold the raw entry [re] of a file, whose keycode is a key
    name: a raw-table entry with its keycode and pulse data, and a binding
    under the scancode of that entry. *)
Definition recorded_as (key_events : list (string * Z)) (g : globals)
    (re : raw_entry) : Prop :=
  exists r,
    In r (rawtable g) /\ re_keycode r = re_keycode re /\
    re_raw r = re_raw re /\
    In (mk_ke (re_scancode r)
              (to_u32 (parse_code key_events (re_keycode re))))
       (keytable g).

(** ** Sample inputs *)

Definition sample_key_events : list (string * Z) :=
  [ ("KEY_POWER", 116); ("KEY_UP", 103); ("KEY_OK", 352) ]%string.

(** A keymap for a BPF decoder with three raw entries, the second with a
    keycode that is neither a key name nor a number. *)
Definition sample_raw_keymap : keymap :=
  mk_keymap "pulse_distance" [mk_param "bits" 32]
    []
    [ mk_re 0 "KEY_POWER" [9000; 4500; 560];
      mk_re 0 "KEY_BOGUS" [9000; 4500; 1690];
      mk_re 0 "KEY_OK" [9000; 2250; 560] ].

Definition sample_nec_keymap : keymap :=
  mk_keymap "nec" [] [mk_se 256 "KEY_UP"; mk_se 257 "0x74"]
    [mk_re 0 "KEY_UP" [560; 560]].

Definition sample_files : list (list keymap * string) :=
  [ ([sample_raw_keymap], "a.toml"%string);
    ([sample_nec_keymap; sample_raw_keymap], "b.toml"%string) ].

(** The request a binding is programmed with: the legacy pair when the
    scancode fits 32 bits, the variable-length record when it does not. *)
Definition request_of (ke : keytable_entry) : ioctl_request :=
  if ke_scancode ke <? 2 ^ 32 then
    EVIOCSKEYCODE (ke_scancode ke) (ke_keycode ke)
  else
    EVIOCSKEYCODE_V2 (mk_entry_v2 0 8 0 (ke_keycode ke) (ke_scancode ke)).

(** A binding as the C types hold it: 64-bit scancode, 32-bit keycode. *)
Definition binding_in_range (ke : keytable_entry) : Prop :=
  0 <= ke_scancode ke < 2 ^ 64 /\ 0 <= ke_keycode ke < 2 ^ 32.

(** Sample kernels: one accepts every request, one refuses every request. *)
Definition accepting_ioctl (k : unit) (r : ioctl_request) : unit * Z := (k, 0).
Definition refusing_ioctl (k : unit) (r : ioctl_request) : unit * Z := (k, -1).

(** A run on a kernel that reports evdev version 0x10001, with one 16-bit
    binding (scancode 0x0100, KEY_POWER) and one 40-bit binding. *)
Definition sample_v2_globals : globals :=
  mk_globals 0 [mk_ke 256 116; mk_ke 1099511627777 352] [] 0 [] 0 65537.

(** Whether some character of a string satisfies a test. *)
Fixpoint has_char (p : ascii -> bool) (s : string) : bool :=
  match s with
  | EmptyString => false
  | String c r => p c || has_char p r
  end.

(** A uevent file as the kernel writes it: one [KEY=value] line per pair. *)
Definition uevent_line (kv : string * string) : string :=
  (fst kv ++ "=" ++ snd kv ++ nl)%string.

Fixpoint uevent_file (kvs : list (string * string)) : string :=
  match kvs with
  | [] => EmptyString
  | kv :: rest => (uevent_line kv ++ uevent_file rest)%string
  end.

(** A pair whose line reads back as itself: a key without [=] or newline, a
    value without newline, neither empty, and the line within the 4096-byte
    buffer. *)
Definition uevent_pair_ok (kv : string * string) : Prop :=
  fst kv <> EmptyString /\ snd kv <> EmptyString /\
  has_char is_equals (fst kv) = false /\
  has_char is_newline (fst kv) = false /\
  has_char is_newline (snd kv) = false /\
  (String.length (fst kv) + String.length (snd kv) + 2 <= 4095)%nat.

(** The keys [get_attribs] looks for. *)
Definition recognized_keys : list string :=
  [ "DEVNAME"; "DRV_NAME"; "DEV_NAME"; "NAME" ]%string.

Definition recognized (kv : string * string) : bool :=
  existsb (String.eqb (fst kv)) recognized_keys.

(** A device directory whose uevent file has a line without [=]. *)
Definition broken_uevent_tree : sysfs_tree :=
  tree_of []
    [ ("/sys/class/rc/rc0/uevent",
         "NAME=rc-hauppauge" ++ nl ++ "garbage" ++ nl ++
         "DRV_NAME=saa7134" ++ nl) ]%string.

(** The entries of /sys/class/rc/ that [find_device] lists, and the path it
    builds for one. *)
Definition rc_entries (entries : list string) : list string :=
  filter (has_prefix "rc") entries.

Definition rc_path (d : string) : string := (rc_class_dir ++ d ++ "/")%string.

(** A class directory with three devices and a stray entry. *)
Definition three_rc_tree : sysfs_tree :=
  tree_of [ ("/sys/class/rc/", ["."; ".."; "rc1"; "lirc0"; "rc0"; "rc10"]) ]%string [].

(** The software decoders of the V1 ABI: directory fragment and bit. *)
Definition sw_decoders : list (string * Z) :=
  [ ("/rc5_decoder", SYSFS_RC5); ("/jvc_decoder", SYSFS_JVC);
    ("/sony_decoder", SYSFS_SONY); ("/nec_decoder", SYSFS_NEC);
    ("/rc6_decoder", SYSFS_RC6); ("/xmp_decoder", SYSFS_XMP) ]%string.

(** The writes that set the software decoders of a device to a target mask:
    for each decoder the device supports, "1" or "0" to its [enabled] node. *)
Definition enabled_writes (d : rc_device) (target : Z) : write_log :=
  flat_map
    (fun fb : string * Z =>
       if Z.land (supported d) (snd fb) =? 0 then []
       else [((sysfs_name d ++ fst fb ++ "/enabled")%string,
              if negb (Z.land target (snd fb) =? 0) then "1"%string
              else "0"%string)])
    sw_decoders.

(** The same, read off the catalog. *)
Definition enabled_writes_of (d : rc_device) (target : Z)
    (pm : list protocol_map_entry) : write_log :=
  flat_map
    (fun pme =>
       match sysfs1_name pme with
       | None => []
       | Some dirname =>
         if Z.land (supported d) (sysfs_protocol pme) =? 0 then []
         else [((sysfs_name d ++ dirname ++ "/enabled")%string,
                if negb (Z.land target (sysfs_protocol pme) =? 0)
                then "1"%string else "0"%string)]
       end)
    pm.

(** The text of the V2 [protocols] file and of the V1 [protocol] file for a
    target mask. *)
Definition v2_text (target : Z) : string :=
  ("none" ++ nl ++ print_all fmt_plus (names_of_mask target))%string.

Definition v1_hw_text (target : Z) : string :=
  (print_all fmt_space (names_of_mask target) ++ nl)%string.

(** Sample accesses: a read-only [protocols] node (mode 0444) and a writable
    one (mode 0644); every open and close succeeds. *)
Definition read_only_access : sysfs_access :=
  mk_access (fun _ => Some 292) (fun _ => 0) (fun _ => 0).
Definition writable_access : sysfs_access :=
  mk_access (fun _ => Some 420) (fun _ => 0) (fun _ => 0).

Definition sample_device (v : sysfs_ver) (t : rc_type) (sup cur : Z) : rc_device :=
  mk_rc_device "/sys/class/rc/rc0/" (Some "/dev/input/event3"%string) None
               None None None v t sup cur.

(* ================================================================== *)
(** * Part I, continued: the rest of keytable.c *)
(* ================================================================== *)

(** A registry in which no two requests are equivalent. *)
Definition no_equivalent_pair (registry : list bpf_protocol) : Prop :=
  ForallOrdPairs (fun x y => ~ equivalent_request x y) registry.

(** Requests registered one after the other, starting from nothing. *)
Definition register_all (requests : list bpf_protocol) : list bpf_protocol :=
  fold_left (fun registry new => add_bpf_protocol new registry) requests [].

(** The bitwise OR of a list of masks. *)
Definition or_all (masks : list Z) : Z := fold_right Z.lor 0 masks.

(** The bits that have a catalog entry: bits 0 to 16. *)
Definition catalog_bits : Z := Z.ones 17.

(** A mask that is empty or a single bit. *)
Definition single_bit (b : Z) : bool :=
  (b =? 0) || ((0 <? b) && (b =? 2 ^ Z.log2 b)).

(** [a] is a subset of [b], as masks. *)
Definition mask_subset (a b : Z) : Prop := Z.land a b = a.

(** Every entry of a keymap list names its keycodes by number, not by a key
    name of the table. *)
Definition numeric_keycodes (key_events : list (string * Z))
    (maps : list keymap) : Prop :=
  forall map, In map maps ->
    (forall se, In se (km_scancode map) ->
       parse_code key_events (se_keycode se) = -1) /\
    (forall re, In re (km_raw map) ->
       parse_code key_events (re_keycode re) = -1).

(** The number of scancode and raw entries of a keymap list. *)
Definition entry_count (maps : list keymap) : nat :=
  List.length (flat_map km_scancode maps) + List.length (raw_entries maps).

(** The third step of [main], entered when a protocol or a BPF request was
    given: the requested mask goes through [load_bpf_for_unsupported] into
    [rc_dev.current], then [set_proto] writes it.  The result is
    [set_proto]'s return value ([None] when the step is not entered), the
    device record, the writes made and the BPF registry afterwards.
    ([clear_bpf], which detaches BPF programs from the lirc device, touches
    none of these and is left out.) *)
Definition change_protocol (acc : sysfs_access) (g : globals) (d : rc_device)
  : option Z * rc_device * write_log * list bpf_protocol :=
  if negb (ch_proto g =? 0) ||
     match bpf_protocols g with [] => false | _ :: _ => true end
  then
    let (cur, registry) :=
      load_bpf_for_unsupported (ch_proto g) (supported d) (bpf_protocols g) in
    let d1 := set_masks d (version d) (type d) (supported d) cur in
    let '(rc, d2, w) := set_proto acc d1 in
    (Some rc, d2, w, registry)
  else (None, d, [], bpf_protocols g).

(** ** Command-line options *)

Definition is_comma_or_semicolon (c : ascii) : bool :=
  Ascii.eqb c "," || Ascii.eqb c ";".
Definition is_colon_or_equals (c : ascii) : bool :=
  Ascii.eqb c ":" || Ascii.eqb c "=".

(** The [-p] case of [parse_opt]: each token of the argument is a kernel
    protocol, whose bits go into [ch_proto], or else the name of a BPF
    decoder, put in front of [bpf_protocol] without parameters. *)
Definition protocol_token (g : globals) (p : string) : globals :=
  let protocol := parse_protocol p true in
  if protocol =? SYSFS_INVALID then
    set_bpf_protocols g (mk_bpf p [] :: bpf_protocols g)
  else or_ch_proto g protocol.

Definition parse_opt_protocol (arg : string) (g : globals) : globals :=
  fold_left protocol_token (strtok_all is_comma_or_semicolon arg) g.

(** The tokens of a [-p] argument that name no kernel protocol. *)
Definition bpf_tokens (tokens : list string) : list string :=
  filter (fun p => parse_protocol p true =? SYSFS_INVALID) tokens.

Definition ENOENT : Z := 2.

(** The function [bpf_param] (named [bpf_param_get] here, [bpf_param] being
    the field of [bpf_protocol]): the return value and the value stored
    through [val] (the [long] parameter value converted to [int]).
    [bpf_parameter] is the process-wide list built by the [-e] option,
    [keymap_param] the list of the keymap. *)
Fixpoint find_param (params : list protocol_param) (name : string) : option Z :=
  match params with
  | [] => None
  | param :: rest =>
    if strcmp_eq name (param_name param) then Some (param_value param)
    else find_param rest name
  end.

Definition bpf_param_get (bpf_parameter keymap_param : list protocol_param)
    (name : string) : Z * option Z :=
  match find_param bpf_parameter name with
  | Some v => (0, Some (to_int v))
  | None =>
    match find_param keymap_param name with
    | Some v => (0, Some (to_int v))
    | None => (- ENOENT, None)
    end
  end.

(** ** The auto-load configuration file *)

Definition tab : ascii := ascii_of_N 9.

Definition is_space_or_tab (c : ascii) : bool :=
  Ascii.eqb c " " || Ascii.eqb c tab.

(** The delimiters that end the file name: ["\t #\n"]. *)
Definition is_fname_end (c : ascii) : bool :=
  is_space_or_tab c || Ascii.eqb c "#" || Ascii.eqb c newline.

(** [struct cfgfile] without its [next] pointer. *)
Record cfgfile := mk_cfg {
  cfg_driver : string;
  cfg_table : string;
  cfg_fname : string
}.

(** The [while (fgets(...))] loop of [parse_cfgfile] over the lines of the
    file: the return value, the rules stored in [cfg] (also those stored
    before an error) and the line counter [line]. *)
Fixpoint cfg_of_lines (lines : list string) (line : nat)
  : Z * list cfgfile * nat :=
  match lines with
  | [] => (0, [], line)
  | s :: rest =>
    let p := skip_delims is_space_or_tab s in
    if Ascii.eqb (deref p) newline || Ascii.eqb (deref p) "#" then
      cfg_of_lines rest (S line)
    else
      match strtok is_space_or_tab p with
      | None => (EINVAL, [], S line)
      | Some (driver, after_driver) =>
        match strtok is_space_or_tab after_driver with
        | None => (EINVAL, [], S line)
        | Some (table, after_table) =>
          match strtok is_fname_end after_table with
          | None => (EINVAL, [], S line)
          | Some (filename, _) =>
            let '(rc, rules, l) := cfg_of_lines rest (S line) in
            (rc, mk_cfg driver table filename :: rules, l)
          end
        end
      end
  end.

(** [parse_cfgfile]: [file] is the content of the file, or [None] with the
    [errno] of the failed [fopen]. *)
Definition parse_cfgfile (file : option string) (open_errno : Z)
  : Z * list cfgfile * nat :=
  match file with
  | None => (open_errno, [], 0%nat)
  | Some content => cfg_of_lines (file_lines 2048 content) 0
  end.

(** The lines a configuration file is made of: a rule, indented or not, with
    a tab and a space between its fields; a comment; an empty line; and a
    line that stops after the table name. *)
Inductive cfg_item :=
| cfg_rule (indent : string) (rule : cfgfile)
| cfg_comment (indent text : string)
| cfg_blank (indent : string)
| cfg_short (indent driver table : string).

Definition cfg_body (item : cfg_item) : string :=
  match item with
  | cfg_rule indent r =>
    (indent ++ cfg_driver r ++ String tab (cfg_table r ++ String " " (cfg_fname r)))%string
  | cfg_comment indent text => (indent ++ String "#" text)%string
  | cfg_blank indent => indent
  | cfg_short indent driver table =>
    (indent ++ driver ++ String tab table)%string
  end.

Definition cfg_text (items : list cfg_item) : string :=
  fold_right (fun item text => (cfg_body item ++ String newline text)%string)
             EmptyString items.

(** All characters of a string satisfy a test. *)
Definition all_chars (p : ascii -> bool) (s : string) : bool :=
  negb (has_char (fun c => negb (p c)) s).

(** A field: not empty, no blank, no newline. *)
Definition cfg_field_ok (s : string) : Prop :=
  s <> EmptyString /\ has_char is_space_or_tab s = false /\
  has_char is_newline s = false.

Definition cfg_item_ok (item : cfg_item) : Prop :=
  (String.length (cfg_body item) < 2047)%nat /\
  match item with
  | cfg_rule indent r =>
    all_chars is_space_or_tab indent = true /\
    cfg_field_ok (cfg_driver r) /\ deref (cfg_driver r) <> "#"%char /\
    cfg_field_ok (cfg_table r) /\
    cfg_fname r <> EmptyString /\ has_char is_fname_end (cfg_fname r) = false
  | cfg_comment indent text =>
    all_chars is_space_or_tab indent = true /\
    has_char is_newline text = false
  | cfg_blank indent => all_chars is_space_or_tab indent = true
  | cfg_short indent driver table =>
    all_chars is_space_or_tab indent = true /\
    cfg_field_ok driver /\ deref driver <> "#"%char /\ cfg_field_ok table
  end.

(** What [parse_cfgfile] is to make of such a file: the rules up to the
    first short line, which stops the parse with EINVAL. *)
Fixpoint cfg_expected (items : list cfg_item) (line : nat)
  : Z * list cfgfile * nat :=
  match items with
  | [] => (0, [], line)
  | cfg_rule _ r :: rest =>
    let '(rc, rules, l) := cfg_expected rest (S line) in (rc, r :: rules, l)
  | cfg_comment _ _ :: rest => cfg_expected rest (S line)
  | cfg_blank _ :: rest => cfg_expected rest (S line)
  | cfg_short _ _ _ :: _ => (EINVAL, [], S line)
  end.

Definition sample_cfg_items : list cfg_item :=
  [ cfg_comment "" " driver table file";
    cfg_rule "" (mk_cfg "em28xx" "*" "rc_keymaps/hauppauge.toml");
    cfg_blank " ";
    cfg_rule "  " (mk_cfg "*" "rc-rc6-mce" "rc6_mce.toml");
    cfg_short "" "saa7134" "rc-avermedia";
    cfg_rule "" (mk_cfg "*" "*" "never_read.toml") ]%string.

(** ** The -k option *)

Definition ULLONG_MAX : Z := 2 ^ 64 - 1.

(** The C library's [strtoull(nptr, NULL, 0)]: the value and whether the call
    stored [ERANGE] in [errno].  The prefix rules are those of [strtol0]; a
    minus sign negates the value as an unsigned number; without digits the
    value is 0 and no error is stored. *)
Definition strtoull0 (nptr : string) : Z * bool :=
  let (neg, s1) := strip_sign (skip_space nptr) in
  let clamp (acc : Z) :=
    if ULLONG_MAX <? acc then (ULLONG_MAX, true)
    else (to_u64 (if neg then - acc else acc), false) in
  match s1 with
  | String "0" (String x r) =>
    if Ascii.eqb x "x" || Ascii.eqb x "X" then
      match read_digits 16 r 0 false with
      | (acc, _, true) => clamp acc
      | (_, _, false) => (0, false)
      end
    else
      let '(acc, _, _) := read_digits 8 s1 0 false in clamp acc
  | _ =>
    match read_digits 10 s1 0 false with
    | (acc, _, true) => clamp acc
    | (_, _, false) => (0, false)
    end
  end.

(** What [argp_error] is called with; the call ends the program. *)
Inductive set_key_error :=
| missing_scancode
| invalid_scancode (token : string)
| missing_keycode
| unknown_keycode (token : string).

Inductive set_key_result :=
| keys_set (g : globals)
| keys_refused (e : set_key_error).

Section SetKey.

Variable key_events : list (string * Z).

(** The keycode of the [-k] case: a key name, or else [strtol] without a
    check of where the number ends.  The result is the [long] value and the
    [errno] afterwards. *)
Definition inline_keycode (e : Z) (token : string) : Z * Z :=
  let key := parse_code key_events token in
  if key =? -1 then
    let '(v, _, erange) := strtol0 token in
    (v, if erange then ERANGE else e)
  else (key, e).

(** The [do ... while (p)] loop of the [-k] case, one round per unit of
    fuel; [p] is the token [strtok] gave last, with the text after it.
    [None] stands for fuel that ran out, which [set_key_fuel_suffices]
    excludes. *)
Fixpoint set_key_loop (fuel : nat) (p : option (string * string))
    (g : globals) : option set_key_result :=
  match fuel with
  | O => None
  | S fuel' =>
    match p with
    | None => Some (keys_refused missing_scancode)
    | Some (token, rest) =>
      let (scancode, erange) := strtoull0 token in
      let e1 := if erange then ERANGE else errno g in
      if negb (e1 =? 0) then Some (keys_refused (invalid_scancode token))
      else
        match strtok is_comma_or_semicolon rest with
        | None => Some (keys_refused missing_keycode)
        | Some (token2, rest2) =>
          let (key, e2) := inline_keycode e1 token2 in
          if (parse_code key_events token2 =? -1) && negb (e2 =? 0) then
            Some (keys_refused (unknown_keycode token2))
          else
            let g' := push_key (set_errno g e2) (mk_ke scancode (to_u32 key)) in
            match strtok is_colon_or_equals rest2 with
            | None => Some (keys_set g')
            | Some p' => set_key_loop fuel' (Some p') g'
            end
        end
    end
  end.

(** The [-k] case of [parse_opt]. *)
Definition set_key (arg : string) (g : globals) : option set_key_result :=
  set_key_loop (S (String.length arg)) (strtok is_colon_or_equals arg) g.

(** The binding one [scancode=keycode] pair of tokens stands for. *)
Definition inline_binding (pair : string * string) : keytable_entry :=
  mk_ke (fst (strtoull0 (fst pair)))
        (to_u32 (fst (inline_keycode 0 (snd pair)))).

(** A pair of tokens the loop accepts when [errno] is clear: a scancode
    token without [:] or [=], in range, and a keycode token without [,] or
    [;] that is a key name or a number in range. *)
Definition inline_pair_ok (pair : string * string) : Prop :=
  fst pair <> EmptyString /\ has_char is_colon_or_equals (fst pair) = false /\
  snd pair <> EmptyString /\ has_char is_comma_or_semicolon (snd pair) = false /\
  snd (strtoull0 (fst pair)) = false /\
  snd (inline_keycode 0 (snd pair)) = 0.

End SetKey.

(** The argument text for a list of pairs: [s1=k1,s2=k2,...]. *)
Fixpoint inline_text (pairs : list (string * string)) : string :=
  match pairs with
  | [] => EmptyString
  | [(s, k)] => (s ++ String "=" k)%string
  | (s, k) :: rest => (s ++ String "=" (k ++ String "," (inline_text rest)))%string
  end.

(** What follows the first [=] of [inline_text]. *)
Definition inline_tail (k : string) (rest : list (string * string)) : string :=
  match rest with
  | [] => k
  | _ => (k ++ String "," (inline_text rest))%string
  end.

(** ** Clearing the kernel table *)

Definition KEY_RESERVED : Z := 0.
Definition KEYMAP_BY_INDEX : Z := Z.shiftl 1 0.

(** The values 0, 1, ..., n-1 of a [for] loop counter. *)
Definition counter_values (n : nat) : list Z := map Z.of_nat (seq 0 n).

(** The requests of the legacy branch of [clear_table], in the order of the
    two nested loops. *)
Definition legacy_clear_requests : list ioctl_request :=
  flat_map
    (fun j =>
       map (fun i => EVIOCSKEYCODE (to_u32 (Z.lor (Z.shiftl j 8) i)) KEY_RESERVED)
           (counter_values 256))
    (counter_values 256).

(** The one request of the other branch: delete the entry at index 0. *)
Definition delete_first_entry : ioctl_request :=
  EVIOCSKEYCODE_V2 (mk_entry_v2 KEYMAP_BY_INDEX 0 0 KEY_RESERVED 0).

Section ClearTable.

Variable kernel : Type.
Variable ioctl : kernel -> ioctl_request -> kernel * Z.

(** Requests issued without looking at the answers. *)
Fixpoint issue_all (reqs : list ioctl_request) (k : kernel) : kernel :=
  match reqs with
  | [] => k
  | req :: rest => issue_all rest (fst (ioctl k req))
  end.

(** The [do ... while (ioctl(...) == 0)] loop: the kernel afterwards and the
    number of requests made; [None] when the fuel runs out first. *)
Fixpoint clear_v2_loop (fuel : nat) (k : kernel) : option (kernel * nat) :=
  match fuel with
  | O => None
  | S fuel' =>
    let (k1, ret) := ioctl k delete_first_entry in
    if ret =? 0 then
      match clear_v2_loop fuel' k1 with
      | Some (k2, n) => Some (k2, S n)
      | None => None
      end
    else Some (k1, 1%nat)
  end.

(** [clear_table]: the kernel afterwards and the number of requests made. *)
Definition clear_table (fuel : nat) (g : globals) (k : kernel)
  : option (kernel * nat) :=
  if input_protocol_version g <? 65537 then
    Some (issue_all legacy_clear_requests k,
          List.length legacy_clear_requests)
  else clear_v2_loop fuel k.

End ClearTable.

(** A kernel table seen as its number of entries: deleting index 0 succeeds
    while an entry is left. *)
Definition counting_ioctl (k : nat) (req : ioctl_request) : nat * Z :=
  match k with
  | O => (O, -1)
  | S k' => (k', 0)
  end.

(** The bit a node of a V1 device directory stands for: that of the first
    catalog entry whose sysfs fragment occurs in the node's name, if any. *)
Fixpoint decoder_bit_in (pm : list protocol_map_entry) (name : string) : Z :=
  match pm with
  | [] => 0
  | pme :: rest =>
    match sysfs1_name pme with
    | None => decoder_bit_in rest name
    | Some fragment =>
      if strstr name fragment then sysfs_protocol pme
      else decoder_bit_in rest name
    end
  end.

Definition decoder_bit (name : string) : Z := decoder_bit_in protocol_map name.

(** A node that is none of the protocol files of either ABI. *)
Definition plain_node (name : string) : Prop :=
  strstr name "/protocol" = false /\
  strstr name "/supported_protocols" = false.

(** The binding of a scancode entry whose keycode is a key name. *)
Definition named_binding (key_events : list (string * Z))
    (se : scancode_entry) : keytable_entry :=
  mk_ke (se_scancode se) (to_u32 (parse_code key_events (se_keycode se))).

(* ================================================================== *)
(** * Part II: theorems *)
(* ================================================================== *)

(** ** Characters and strings *)

Lemma tolower_zero : forall c, tolower c = zero -> c = zero.
Proof.
  intros c; destruct c as [[] [] [] [] [] [] [] []]; vm_compute; congruence.
Qed.

Lemma is_sep_tolower : forall c, is_sep (tolower c) = is_sep c.
Proof.
  intros c; destruct c as [[] [] [] [] [] [] [] []]; reflexivity.
Qed.

Lemma append_empty_r : forall s : string, (s ++ "")%string = s.
Proof.
  induction s as [|c s IH]; simpl; [reflexivity | now rewrite IH].
Qed.

Lemma string_eqb_cons : forall c1 s1 c2 s2,
  String.eqb (String c1 s1) (String c2 s2) = Ascii.eqb c1 c2 && String.eqb s1 s2.
Proof.
  intros; simpl. destruct (Ascii.eqb c1 c2); reflexivity.
Qed.

(** ** Protocol catalog *)

(** On well-separated names [protocol_like] is equality of the normal forms. *)
Lemma protocol_like_norm_len : forall n a b,
  (String.length a <= n)%nat ->
  well_separated a = true -> well_separated b = true ->
  protocol_like a b = Some (String.eqb (norm a) (norm b)).
Proof.
  induction n as [|n IH]; intros a b Hlen Ha Hb.
  - destruct a; simpl in Hlen; [|lia].
    destruct b as [|cb rb]; [reflexivity|].
    simpl. unfold norm. simpl in Hb |- *.
    destruct (is_sep cb) eqn:Ecb; simpl.
    + destruct rb as [|cb1 rb1]; simpl in Hb; [discriminate|].
      simpl. apply andb_prop in Hb as [Hb1 _]. simpl in Hb1.
      apply negb_true_iff in Hb1. rewrite Hb1. reflexivity.
    + reflexivity.
  - destruct a as [|ca ra]; [apply (IH ""%string); simpl; auto; lia|].
    destruct b as [|cb rb].
    + simpl. unfold norm. simpl in Ha |- *.
      destruct (is_sep ca) eqn:Eca; simpl; [|reflexivity].
      destruct ra as [|ca1 ra1]; simpl in Ha; [discriminate|].
      simpl. apply andb_prop in Ha as [Ha1 _]. simpl in Ha1.
      apply negb_true_iff in Ha1. rewrite Ha1. reflexivity.
    + (* both sides have a character: name the strings after the skip *)
      assert (Hb1 : exists cb' b2,
                 (if is_sep cb then rb else String cb rb) = String cb' b2 /\
                 is_sep cb' = false /\ well_separated b2 = true /\
                 norm (String cb rb) = String (tolower cb') (norm b2)).
      { simpl in Hb. unfold norm; simpl.
        destruct (is_sep cb) eqn:Ecb.
        - destruct rb as [|cb1 rb1]; simpl in Hb; [discriminate|].
          apply andb_prop in Hb as [Hb1 Hb2]. simpl in Hb1.
          apply negb_true_iff in Hb1.
          exists cb1, rb1. simpl in Hb2. rewrite Hb1 in Hb2. simpl in Hb2.
          simpl. rewrite Hb1. auto.
        - exists cb, rb. simpl in Hb. auto. }
      destruct Hb1 as (cb' & b2 & Eb1 & Hcb' & Hb2 & Hnb).
      rewrite Hnb. simpl protocol_like. rewrite Eb1. simpl deref.
      simpl in Ha, Hlen. unfold norm at 1. simpl strip.
      destruct (is_sep ca) eqn:Eca.
      * destruct ra as [|ca1 ra1]; simpl in Ha; [discriminate|].
        apply andb_prop in Ha as [Ha1 Ha2]. simpl in Ha1.
        apply negb_true_iff in Ha1. rewrite Ha1 in Ha2. simpl in Ha2.
        simpl strip. rewrite Ha1. simpl lower. rewrite string_eqb_cons.
        destruct (Ascii.eqb (tolower ca1) (tolower cb')); simpl; [|reflexivity].
        apply IH; auto. simpl in Hlen. lia.
      * simpl lower. rewrite string_eqb_cons.
        destruct (Ascii.eqb (tolower ca) (tolower cb')); simpl; [|reflexivity].
        apply IH; auto. lia.
Qed.

Lemma protocol_like_norm : forall a b,
  well_separated a = true -> well_separated b = true ->
  protocol_like a b = Some (String.eqb (norm a) (norm b)).
Proof.
  intros a b; apply (protocol_like_norm_len (String.length a)); lia.
Qed.

Lemma protocol_like_cons : forall ca ra cb rb,
  protocol_like (String ca ra) (String cb rb) =
  let b1 := if is_sep cb then rb else String cb rb in
  if is_sep ca then
    match ra with
    | EmptyString =>
        if Ascii.eqb (tolower zero) (tolower (deref b1)) then None
        else Some false
    | String ca1 ra1 =>
        if Ascii.eqb (tolower ca1) (tolower (deref b1)) then
          match b1 with
          | EmptyString => None
          | String _ b2 => protocol_like ra1 b2
          end
        else Some false
    end
  else
    if Ascii.eqb (tolower ca) (tolower (deref b1)) then
      match b1 with
      | EmptyString => None
      | String _ b2 => protocol_like ra b2
      end
    else Some false.
Proof. reflexivity. Qed.

(** Against a name that is a proper C string and does not end in a separator,
    [protocol_like] never leaves its arguments. *)
Lemma protocol_like_defined_len : forall n a b,
  (String.length a <= n)%nat -> no_trailing_sep b = true ->
  protocol_like a b <> None.
Proof.
  induction n as [|n IH]; intros a b Hlen Hb.
  - destruct a; simpl in Hlen; [simpl; discriminate | lia].
  - destruct a as [|ca ra]; [simpl; discriminate|].
    destruct b as [|cb rb]; [simpl; discriminate|].
    assert (Hb1 : exists cb' b2,
               (if is_sep cb then rb else String cb rb) = String cb' b2 /\
               cb' <> zero /\ no_trailing_sep b2 = true).
    { simpl in Hb. apply andb_prop in Hb as [Hz Hb].
      destruct rb as [|cb1 rb1].
      - simpl in Hb. apply negb_true_iff in Hb. rewrite Hb.
        exists cb, ""%string. repeat split; auto.
        apply negb_true_iff in Hz. now apply Ascii.eqb_neq in Hz.
      - simpl is_empty in Hb. cbv iota in Hb.
        destruct (is_sep cb).
        + exists cb1, rb1. split; [reflexivity|].
          simpl in Hb. apply andb_prop in Hb as [Hz1 Hb].
          apply negb_true_iff in Hz1. apply Ascii.eqb_neq in Hz1.
          split; [assumption|].
          destruct rb1; [reflexivity | exact Hb].
        + exists cb, (String cb1 rb1). repeat split; auto.
          apply negb_true_iff in Hz. now apply Ascii.eqb_neq in Hz. }
    destruct Hb1 as (cb' & b2 & Eb1 & Hnz & Hb2).
    rewrite protocol_like_cons. cbv zeta. rewrite Eb1. cbn [deref].
    assert (Hne : Ascii.eqb (tolower zero) (tolower cb') = false).
    { apply Ascii.eqb_neq. intros E. apply Hnz.
      apply tolower_zero. rewrite <- E. reflexivity. }
    simpl in Hlen.
    destruct (is_sep ca).
    + destruct ra as [|ca1 ra1].
      * rewrite Hne. discriminate.
      * destruct (Ascii.eqb (tolower ca1) (tolower cb')); [|discriminate].
        apply IH; auto. simpl in Hlen. lia.
    + destruct (Ascii.eqb (tolower ca) (tolower cb')); [|discriminate].
      apply IH; auto. lia.
Qed.

Lemma parse_loop_defined : forall name pm,
  forallb (fun pme => no_trailing_sep (pme_name pme)) pm = true ->
  exists m, parse_loop name pm = Some m /\
            (m = SYSFS_INVALID \/ In m (map sysfs_protocol pm)).
Proof.
  intros name pm; induction pm as [|pme rest IH]; intros Hok.
  - exists SYSFS_INVALID; simpl; auto.
  - simpl in Hok. apply andb_prop in Hok as [H1 H2].
    simpl. destruct (protocol_like name (pme_name pme)) as [[|]|] eqn:E.
    + exists (sysfs_protocol pme); simpl; auto.
    + destruct (IH H2) as (m & Hm & Hin). exists m; simpl; intuition.
    + exfalso. revert E.
      apply (protocol_like_defined_len (String.length name)); auto.
Qed.

(** [parse_sysfs_protocol] always returns, and what it returns is "all", no
    bit, or the bit of a catalog entry. *)
Lemma parse_sysfs_protocol_defined : forall name all_allowed,
  exists m, parse_sysfs_protocol name all_allowed = Some m /\
            (m = SYSFS_ALL \/ m = SYSFS_INVALID \/
             In m (map sysfs_protocol protocol_map)).
Proof.
  intros [name|] all_allowed; simpl.
  - destruct (all_allowed && strcasecmp_eq name "all").
    + exists SYSFS_ALL; auto.
    + destruct (parse_loop_defined name protocol_map) as (m & Hm & Hin);
        [reflexivity|].
      exists m; auto.
  - exists SYSFS_INVALID; auto.
Qed.

Lemma parse_protocol_correct : forall name all_allowed,
  parse_sysfs_protocol (Some name) all_allowed =
  Some (parse_protocol name all_allowed).
Proof.
  intros name all_allowed. unfold parse_protocol.
  destruct (parse_sysfs_protocol_defined (Some name) all_allowed)
    as (m & Hm & _).
  now rewrite Hm.
Qed.

(** [write_sysfs_protocols] prints the names of [written_names] through the
    format, one after the other. *)
Lemma write_loop_names : forall fmt pm m,
  write_loop pm m fmt = print_all fmt (names_loop pm m).
Proof.
  intros fmt pm; induction pm as [|pme rest IH]; intros m; simpl.
  - reflexivity.
  - destruct (Z.land m (sysfs_protocol pme) =? 0); simpl; now rewrite IH.
Qed.

Lemma write_sysfs_protocols_names : forall fmt m,
  write_sysfs_protocols m fmt = print_all fmt (written_names m).
Proof.
  intros; apply write_loop_names.
Qed.

(** C4: for every name the catalog accepts with a bit (a non-zero mask),
    formatting the parsed mask prints exactly one canonical name, and that
    name parses to the same mask; each documented zero-bit alias parses to
    the Invalid (zero) mask. *)
Theorem format_parse_roundtrip :
  (forall name m,
     parse_sysfs_protocol (Some name) false = Some m ->
     m <> SYSFS_INVALID ->
     exists canon,
       (forall fmt, write_sysfs_protocols m fmt = fmt canon) /\
       parse_sysfs_protocol (Some canon) false = Some m) /\
  (forall alias all_allowed,
     In alias zero_bit_aliases ->
     parse_sysfs_protocol (Some alias) all_allowed = Some SYSFS_INVALID).
Proof.
  split.
  - intros name m Hparse Hm.
    change (parse_loop name protocol_map = Some m) in Hparse.
    destruct (parse_loop_defined name protocol_map)
      as (m' & Hm' & Hin); [reflexivity|].
    rewrite Hparse in Hm'. injection Hm' as <-.
    destruct Hin as [H0 | Hin]; [contradiction|].
    clear Hparse. simpl in Hin.
    repeat (destruct Hin as [<- | Hin];
            [ first
                [ exfalso; apply Hm; reflexivity
                | eexists; split;
                  [ intros fmt; rewrite write_sysfs_protocols_names;
                    match goal with
                    | |- print_all fmt (written_names ?b) = _ =>
                      let l := eval vm_compute in (written_names b) in
                      change (written_names b) with l
                    end;
                    cbv [print_all]; apply append_empty_r
                  | reflexivity ] ]
            | ]).
    contradiction.
  - intros alias all_allowed Hin. simpl in Hin.
    destruct all_allowed;
      repeat (destruct Hin as [<- | Hin]; [reflexivity|]); contradiction.
Qed.

Lemma format_parse_roundtrip_witness :
  exists canon,
    (forall fmt, write_sysfs_protocols SYSFS_RC5 fmt = fmt canon) /\
    parse_sysfs_protocol (Some canon) false = Some SYSFS_RC5.
Proof.
  apply (proj1 format_parse_roundtrip "RC_5"%string SYSFS_RC5);
    [reflexivity | vm_compute; discriminate].
Defined.

(** Parsing depends on a well-separated name only through its normal form. *)
Lemma parse_loop_norm : forall v w pm,
  well_separated v = true -> well_separated w = true ->
  norm v = norm w ->
  forallb (fun pme => well_separated (pme_name pme)) pm = true ->
  parse_loop v pm = parse_loop w pm.
Proof.
  intros v w pm Hv Hw Hn; induction pm as [|pme rest IH]; intros Hpm.
  - reflexivity.
  - simpl in Hpm. apply andb_prop in Hpm as [H1 H2]. simpl.
    rewrite (protocol_like_norm v), (protocol_like_norm w) by assumption.
    rewrite Hn. now rewrite IH.
Qed.

Lemma lower_strip : forall s, lower (strip s) = strip (lower s).
Proof.
  induction s as [|c r IH]; simpl; [reflexivity|].
  rewrite is_sep_tolower. destruct (is_sep c); simpl; now rewrite IH.
Qed.

Lemma strcasecmp_all_norm : forall v,
  strcasecmp_eq v "all" = true -> norm v = "all"%string.
Proof.
  intros v H. unfold strcasecmp_eq in H. apply String.eqb_eq in H.
  unfold norm. rewrite lower_strip, H. reflexivity.
Qed.

Lemma catalog_ok : forallb catalog_entry_ok protocol_map = true.
Proof. vm_compute. reflexivity. Qed.

Lemma catalog_well_separated :
  forallb (fun pme => well_separated (pme_name pme)) protocol_map = true.
Proof. vm_compute. reflexivity. Qed.

(** C5, as the code has it: parsing ignores letter case and the [-]/[_]
    separators of a name in which every separator is followed by a character
    that is not one (none doubled, none at the end).  Every such variant of a
    catalog name - separators inserted, removed or exchanged, letters in
    either case - parses to the mask of that catalog name, with or without
    "all" allowed. *)
Theorem parse_ignores_case_and_separators :
  forall pme variant all_allowed,
    In pme protocol_map ->
    well_separated variant = true ->
    norm variant = norm (pme_name pme) ->
    parse_sysfs_protocol (Some variant) all_allowed =
      parse_sysfs_protocol (Some (pme_name pme)) all_allowed /\
    parse_sysfs_protocol (Some variant) all_allowed = Some (sysfs_protocol pme).
Proof.
  intros pme variant all_allowed Hin Hv Hn.
  pose proof (proj1 (forallb_forall _ _) catalog_ok pme Hin) as Hok.
  unfold catalog_entry_ok in Hok.
  apply andb_prop in Hok as [Hok Hparse]. apply andb_prop in Hok as [Hws Hna].
  apply negb_true_iff in Hna. apply String.eqb_neq in Hna.
  assert (Hall : forall s, norm s = norm (pme_name pme) ->
                           all_allowed && strcasecmp_eq s "all" = false).
  { intros s Hs. destruct all_allowed; [simpl | reflexivity].
    destruct (strcasecmp_eq s "all") eqn:E; [|reflexivity].
    apply strcasecmp_all_norm in E. congruence. }
  unfold parse_sysfs_protocol.
  rewrite (Hall variant Hn), (Hall (pme_name pme) eq_refl).
  rewrite (parse_loop_norm variant (pme_name pme))
    by (auto using catalog_well_separated).
  split; [reflexivity|].
  destruct (parse_loop (pme_name pme) protocol_map) as [m|]; [|discriminate].
  apply Z.eqb_eq in Hparse. now subst.
Qed.

(** The three spellings of the documentation, through the theorem. *)
Lemma parse_ignores_case_and_separators_witness :
  parse_sysfs_protocol (Some "RC_5"%string) false = Some SYSFS_RC5 /\
  parse_sysfs_protocol (Some "rc-5"%string) false = Some SYSFS_RC5 /\
  parse_sysfs_protocol (Some "rc5"%string) false = Some SYSFS_RC5.
Proof.
  assert (Hin : In (mk_pme "rc-5" (Some "/rc5_decoder"%string) SYSFS_RC5)
                   protocol_map) by (simpl; auto 10).
  split; [|split].
  - exact (proj2 (parse_ignores_case_and_separators _ "RC_5"%string false
                    Hin eq_refl eq_refl)).
  - exact (proj2 (parse_ignores_case_and_separators _ "rc-5"%string false
                    Hin eq_refl eq_refl)).
  - exact (proj2 (parse_ignores_case_and_separators _ "rc5"%string false
                    Hin eq_refl eq_refl)).
Defined.

(** C5 as stated fails: "rc--5" and "rc-5-" are "rc-5" with a separator
    inserted, and neither parses to the mask of "rc-5" ([protocol_like] skips
    one separator per character and none before the end). *)
Lemma inserted_separator_changes_parse :
  In (mk_pme "rc-5" (Some "/rc5_decoder"%string) SYSFS_RC5) protocol_map /\
  norm "rc--5" = norm "rc-5" /\ norm "rc-5-" = norm "rc-5" /\
  parse_sysfs_protocol (Some "rc-5"%string) false = Some SYSFS_RC5 /\
  parse_sysfs_protocol (Some "rc--5"%string) false = Some SYSFS_INVALID /\
  parse_sysfs_protocol (Some "rc-5-"%string) false = Some SYSFS_INVALID /\
  SYSFS_RC5 <> SYSFS_INVALID.
Proof.
  repeat split; try reflexivity; [simpl; auto 10 | vm_compute; discriminate].
Qed.

(** ** BPF decoder registry *)

Lemma param_found_In : forall a b, param_found a b = true <-> In a b.
Proof.
  intros a b; induction b as [|b2 rest IH]; simpl.
  - split; [discriminate | contradiction].
  - destruct (strcmp_eq (param_name a) (param_name b2) &&
              (param_value a =? param_value b2)) eqn:E.
    + apply andb_prop in E as [En Ev].
      apply String.eqb_eq in En. apply Z.eqb_eq in Ev.
      split; [intros _; left | reflexivity].
      destruct a, b2; simpl in *; congruence.
    + rewrite IH. split; [auto | intros [-> | H]; [|exact H]].
      exfalso. unfold strcmp_eq in E.
      rewrite String.eqb_refl, Z.eqb_refl in E. discriminate.
Qed.

(** [compare_parameters a b] says that every pair of [a] occurs in [b]. *)
Lemma compare_parameters_incl : forall a b,
  compare_parameters a b = true <-> (forall p, In p a -> In p b).
Proof.
  intros a b; induction a as [|p rest IH]; simpl.
  - split; [contradiction | reflexivity].
  - destruct (param_found p b) eqn:E.
    + apply param_found_In in E. rewrite IH.
      split; [intros H q [<- | Hq]; auto | intros H q Hq; auto].
    + split; [discriminate|]. intros H.
      assert (Hp : In p b) by auto.
      apply param_found_In in Hp. congruence.
Qed.

Lemma bpf_known_spec : forall registry new,
  bpf_known registry new = true <->
  exists a, In a registry /\ equivalent_request new a.
Proof.
  intros registry new; induction registry as [|a rest IH]; simpl.
  - split; [discriminate | intros (a & [] & _)].
  - destruct (strcmp_eq (bpf_name a) (bpf_name new)) eqn:En; simpl.
    + apply String.eqb_eq in En.
      destruct (compare_parameters (bpf_param a) (bpf_param new) &&
                compare_parameters (bpf_param new) (bpf_param a)) eqn:Ec.
      * apply andb_prop in Ec as [E1 E2].
        split; [intros _ | reflexivity].
        exists a. split; [now left|]. split; [exact En|].
        intros p; split; now apply compare_parameters_incl.
      * rewrite IH. split.
        -- intros (x & Hx & Hex). exists x; auto.
        -- intros (x & [<- | Hx] & Hex); [|exists x; auto].
           exfalso. destruct Hex as [_ Hs].
           assert (E1 : compare_parameters (bpf_param a) (bpf_param new) = true)
             by (apply compare_parameters_incl; intros p; apply Hs).
           assert (E2 : compare_parameters (bpf_param new) (bpf_param a) = true)
             by (apply compare_parameters_incl; intros p; apply Hs).
           rewrite E1, E2 in Ec. discriminate.
    + rewrite IH. split.
      * intros (x & Hx & Hex). exists x; auto.
      * intros (x & [<- | Hx] & Hex); [|exists x; auto].
        exfalso. destruct Hex as [Hn _]. unfold strcmp_eq in En.
        rewrite Hn, String.eqb_refl in En. discriminate.
Qed.

(** C6: [add_bpf_protocol] registers a request exactly when no registered
    request has the same name and the same set of (name, value) parameters,
    and otherwise leaves the registry as it is; requesting one name with
    {a:1,b:2} and then {b:2,a:1} leaves one request, with {a:1,b:2} and then
    {a:1,b:3} two. *)
Theorem add_bpf_protocol_dedup :
  (forall new registry,
     ((exists a, In a registry /\ equivalent_request new a) /\
      add_bpf_protocol new registry = registry) \/
     (~ (exists a, In a registry /\ equivalent_request new a) /\
      add_bpf_protocol new registry = new :: registry)) /\
  (forall name,
     let a1b2 := [mk_param "a" 1; mk_param "b" 2] in
     let b2a1 := [mk_param "b" 2; mk_param "a" 1] in
     let a1b3 := [mk_param "a" 1; mk_param "b" 3] in
     List.length (add_bpf_protocol (mk_bpf name b2a1)
               (add_bpf_protocol (mk_bpf name a1b2) [])) = 1%nat /\
     List.length (add_bpf_protocol (mk_bpf name a1b3)
               (add_bpf_protocol (mk_bpf name a1b2) [])) = 2%nat).
Proof.
  split.
  - intros new registry. unfold add_bpf_protocol.
    destruct (bpf_known registry new) eqn:E.
    + left. split; [now apply bpf_known_spec | reflexivity].
    + right. split; [|reflexivity].
      intros H. apply bpf_known_spec in H. congruence.
  - intros name. cbv zeta. unfold add_bpf_protocol. simpl.
    unfold strcmp_eq. rewrite String.eqb_refl. simpl. auto.
Qed.

(** ** BPF fallback *)

Lemma land_pow2_testbit : forall m k, 0 <= k ->
  (Z.land m (Z.shiftl 1 k) =? 0) = negb (Z.testbit m k).
Proof.
  intros m k Hk. rewrite Z.shiftl_1_l.
  destruct (Z.testbit m k) eqn:E; simpl.
  - apply Z.eqb_neq. intros H.
    assert (Hb : Z.testbit (Z.land m (2 ^ k)) k = true)
      by (rewrite Z.land_spec, E, Z.pow2_bits_true; auto).
    rewrite H, Z.bits_0 in Hb. discriminate.
  - apply Z.eqb_eq. apply Z.bits_inj'. intros n Hn.
    rewrite Z.land_spec, Z.bits_0, Z.pow2_bits_eqb by assumption.
    destruct (Z.eqb_spec k n); [subst; rewrite E; reflexivity|].
    apply andb_false_r.
Qed.

Lemma load_bpf_loop_skip : forall pme rest protocols supported registry,
  (sysfs_protocol pme =? SYSFS_XBOX_DVD) = false ->
  load_bpf_loop (pme :: rest) protocols supported registry =
  load_bpf_loop rest protocols supported registry.
Proof.
  intros pme rest protocols sup registry H; simpl.
  rewrite H. reflexivity.
Qed.

Lemma load_bpf_loop_last : forall name frag protocols supported registry,
  load_bpf_loop [mk_pme name frag SYSFS_XBOX_DVD] protocols supported registry =
  if (Z.land protocols SYSFS_XBOX_DVD =? 0) ||
     negb (Z.land supported SYSFS_XBOX_DVD =? 0)
  then (protocols, registry)
  else (Z.land protocols (Z.lnot SYSFS_XBOX_DVD),
        add_bpf_protocol (mk_bpf name []) registry).
Proof.
  intros name frag protocols sup registry.
  cbn [load_bpf_loop sysfs_protocol pme_name].
  rewrite Z.eqb_refl. cbn [negb].
  destruct ((Z.land protocols SYSFS_XBOX_DVD =? 0) ||
            negb (Z.land sup SYSFS_XBOX_DVD =? 0)); reflexivity.
Qed.

(** C10: [load_bpf_for_unsupported] substitutes a BPF decoder for xbox-dvd
    only.  When the xbox-dvd bit (bit 16) is requested and not supported, the
    returned mask is the requested one without that bit and a request named
    "xbox-dvd" with no parameters goes through [add_bpf_protocol]; in every
    other case the mask and the registry come back as they were.  Either way
    all other bits of the mask stay as requested. *)
Theorem load_bpf_for_unsupported_xbox_only :
  forall protocols supported registry,
    load_bpf_for_unsupported protocols supported registry =
      (if Z.testbit protocols 16 && negb (Z.testbit supported 16)
       then (Z.clearbit protocols 16,
             add_bpf_protocol (mk_bpf "xbox-dvd" []) registry)
       else (protocols, registry)) /\
    (forall i, i <> 16 ->
       Z.testbit (fst (load_bpf_for_unsupported protocols supported registry)) i
       = Z.testbit protocols i).
Proof.
  intros protocols sup registry.
  assert (E : load_bpf_for_unsupported protocols sup registry =
      (if Z.testbit protocols 16 && negb (Z.testbit sup 16)
       then (Z.clearbit protocols 16,
             add_bpf_protocol (mk_bpf "xbox-dvd" []) registry)
       else (protocols, registry))).
  { unfold load_bpf_for_unsupported, protocol_map.
    repeat (rewrite load_bpf_loop_skip by reflexivity).
    rewrite load_bpf_loop_last.
    unfold SYSFS_XBOX_DVD. rewrite !land_pow2_testbit by lia.
    rewrite negb_involutive.
    destruct (Z.testbit protocols 16), (Z.testbit sup 16); reflexivity. }
  split; [exact E|].
  intros i Hi. rewrite E.
  destruct (Z.testbit protocols 16 && negb (Z.testbit sup 16));
    [|reflexivity].
  simpl. apply Z.clearbit_neq. congruence.
Qed.

Lemma load_bpf_for_unsupported_xbox_only_witness :
  load_bpf_for_unsupported (Z.lor SYSFS_XBOX_DVD SYSFS_IMON) SYSFS_NEC [] =
    (SYSFS_IMON, [mk_bpf "xbox-dvd" []]) /\
  load_bpf_for_unsupported (Z.lor SYSFS_XBOX_DVD SYSFS_IMON)
      (Z.lor SYSFS_XBOX_DVD SYSFS_NEC) [] =
    (Z.lor SYSFS_XBOX_DVD SYSFS_IMON, []).
Proof.
  split.
  - exact (proj1 (load_bpf_for_unsupported_xbox_only
                    (Z.lor SYSFS_XBOX_DVD SYSFS_IMON) SYSFS_NEC [])).
  - exact (proj1 (load_bpf_for_unsupported_xbox_only
                    (Z.lor SYSFS_XBOX_DVD SYSFS_IMON)
                    (Z.lor SYSFS_XBOX_DVD SYSFS_NEC) [])).
Defined.

(** ** Keytable store *)

Lemma to_int_small : forall x, 0 <= x <= INT_MAX -> to_int x = x.
Proof.
  intros x H. unfold to_int, INT_MAX in *.
  rewrite Z.mod_small; lia.
Qed.

Lemma to_u64_small : forall x, 0 <= x <= INT_MAX -> to_u64 x = x.
Proof.
  intros x H. unfold to_u64, INT_MAX in *.
  rewrite Z.mod_small; lia.
Qed.

Section KeytableFacts.

Variable key_events : list (string * Z).

(** The scancode loop leaves the raw state alone and only adds bindings. *)
Lemma scancode_loop_frame : forall fname ses g g' log,
  scancode_loop key_events fname ses g = (g', log) ->
  raw_scancode g' = raw_scancode g /\ rawtable g' = rawtable g /\
  incl (keytable g) (keytable g') /\ dropped_raw log = 0%nat.
Proof.
  intros fname ses; induction ses as [|se rest IH]; intros g g' log H.
  - simpl in H. injection H as <- <-. repeat split; auto using incl_refl.
  - simpl in H.
    destruct (keycode_value key_events (errno g) (se_keycode se))
      as [[value|] e].
    + apply IH in H. simpl in H. destruct H as (H1 & H2 & H3 & H4).
      repeat split; auto.
      intros x Hx. apply H3. now right.
    + destruct (scancode_loop key_events fname rest (set_errno g e))
        as [g1 log1] eqn:E.
      injection H as <- <-. apply IH in E. simpl in E.
      destruct E as (H1 & H2 & H3 & H4). repeat split; auto.
Qed.

Lemma raw_inv_frame : forall g g',
  raw_scancode g' = raw_scancode g -> rawtable g' = rawtable g ->
  incl (keytable g) (keytable g') ->
  raw_inv key_events g -> raw_inv key_events g'.
Proof.
  intros g g' Hc Hr Hk (I1 & I2 & I3). unfold raw_inv.
  rewrite Hc, Hr. repeat split; auto.
  intros r Hin. destruct (I3 r Hin) as (ke & e & v & H1 & H2).
  exists ke, e, v. split; auto.
Qed.

(** One resolved raw entry: the binding and the raw-table entry get the
    counter's value, and the counter moves on by one. *)
Lemma raw_inv_push : forall g re e value,
  raw_inv key_events g ->
  raw_scancode g + 1 <= INT_MAX ->
  fst (keycode_value key_events e (re_keycode re)) = Some value ->
  raw_inv key_events
    (push_raw (push_key g (mk_ke (to_u64 (raw_scancode g)) (to_u32 value))) re).
Proof.
  intros g re e value (I1 & I2 & I3) Hb Hv. unfold raw_inv.
  cbn [push_raw push_key rawtable raw_scancode keytable List.length rev
       re_keycode re_scancode].
  assert (H0 : 0 <= raw_scancode g) by lia.
  rewrite to_int_small, to_u64_small by lia.
  split; [lia|]. split.
  - rewrite seq_S, !map_app, I2. simpl. now rewrite I1.
  - intros r [<- | Hin].
    + eexists; exists e, value. simpl. split; [left; reflexivity|]. auto.
    + destruct (I3 r Hin) as (ke & e' & v & H1 & H2).
      exists ke, e', v. simpl. split; auto.
Qed.

Lemma raw_loop_inv : forall fname res g g' log,
  raw_loop key_events fname res g = (g', log) ->
  raw_inv key_events g ->
  raw_scancode g + Z.of_nat (List.length res) <= INT_MAX ->
  raw_inv key_events g' /\
  (List.length (rawtable g') + dropped_raw log =
   List.length (rawtable g) + List.length res)%nat.
Proof.
  intros fname res; induction res as [|re rest IH]; intros g g' log H Hinv Hb.
  - simpl in H. injection H as <- <-. split; [assumption | unfold dropped_raw; simpl; lia].
  - simpl in H. cbn [List.length] in Hb.
    destruct (keycode_value key_events (errno g) (re_keycode re))
      as [[value|] e] eqn:Ev.
    + apply IH in H.
      * destruct H as [H1 H2]. split; [assumption|].
        simpl in H2. simpl. lia.
      * apply (raw_inv_push (set_errno g e) re (errno g) value).
        -- revert Hinv. apply raw_inv_frame; auto using incl_refl.
        -- simpl. lia.
        -- now rewrite Ev.
      * simpl. destruct Hinv as (I1 & _).
        rewrite to_int_small by lia. lia.
    + destruct (raw_loop key_events fname rest (set_errno g e))
        as [g1 log1] eqn:E.
      injection H as <- <-. apply IH in E.
      * destruct E as [H1 H2]. split; [assumption|].
        unfold dropped_raw in *. simpl in *. lia.
      * revert Hinv. apply raw_inv_frame; auto using incl_refl.
      * simpl. lia.
Qed.

Lemma note_protocol_frame : forall map g,
  raw_scancode (note_protocol map g) = raw_scancode g /\
  rawtable (note_protocol map g) = rawtable g /\
  keytable (note_protocol map g) = keytable g.
Proof.
  intros map g. unfold note_protocol.
  destruct (parse_protocol (km_protocol map) false =? SYSFS_INVALID);
    [destruct (negb (strcmp_eq (km_protocol map) "none"))|]; simpl; auto.
Qed.

Lemma dropped_raw_app : forall l1 l2,
  dropped_raw (l1 ++ l2) = (dropped_raw l1 + dropped_raw l2)%nat.
Proof.
  intros; unfold dropped_raw. now rewrite filter_app, length_app.
Qed.

Lemma add_keymap_inv : forall fname maps g g' log,
  add_keymap key_events maps fname g = (g', log) ->
  raw_inv key_events g ->
  raw_scancode g + Z.of_nat (List.length (raw_entries maps)) <= INT_MAX ->
  raw_inv key_events g' /\
  (List.length (rawtable g') + dropped_raw log =
   List.length (rawtable g) + List.length (raw_entries maps))%nat.
Proof.
  intros fname maps; induction maps as [|map rest IH];
    intros g g' log H Hinv Hb.
  - simpl in H. injection H as <- <-. split; [assumption | unfold dropped_raw; simpl; lia].
  - simpl in H. unfold raw_entries in Hb |- *. simpl in Hb |- *.
    rewrite length_app in Hb |- *.
    fold (raw_entries rest) in Hb |- *.
    destruct (note_protocol_frame map g) as (N1 & N2 & N3).
    destruct (scancode_loop key_events fname (km_scancode map)
                (note_protocol map g)) as [g2 log2] eqn:E2.
    destruct (raw_loop key_events fname (km_raw map) g2) as [g3 log3] eqn:E3.
    destruct (add_keymap key_events rest fname g3) as [g4 log4] eqn:E4.
    injection H as <- <-.
    apply scancode_loop_frame in E2. destruct E2 as (S1 & S2 & S3 & S4).
    assert (Hinv2 : raw_inv key_events g2).
    { revert Hinv. apply raw_inv_frame; try congruence.
      rewrite <- N3. exact S3. }
    apply raw_loop_inv in E3; [|assumption|lia].
    destruct E3 as [Hinv3 Hc3].
    assert (Hlen : List.length (rawtable g2) = List.length (rawtable g))
      by congruence.
    apply IH in E4; [|assumption|].
    + destruct E4 as [Hinv4 Hc4]. split; [assumption|].
      rewrite !dropped_raw_app, S4. lia.
    + destruct Hinv3 as (I1 & _). destruct Hinv as (J1 & _). lia.
Qed.

Lemma add_keymaps_inv : forall files g g' log,
  add_keymaps key_events files g = (g', log) ->
  raw_inv key_events g ->
  raw_scancode g + Z.of_nat (List.length (all_raw_entries files)) <= INT_MAX ->
  raw_inv key_events g' /\
  (List.length (rawtable g') + dropped_raw log =
   List.length (rawtable g) + List.length (all_raw_entries files))%nat.
Proof.
  intros files; induction files as [|[maps fname] rest IH];
    intros g g' log H Hinv Hb.
  - simpl in H. injection H as <- <-. split; [assumption | unfold dropped_raw; simpl; lia].
  - simpl in H. unfold all_raw_entries in Hb |- *. simpl in Hb |- *.
    rewrite length_app in Hb |- *.
    fold (all_raw_entries rest) in Hb |- *.
    destruct (add_keymap key_events maps fname g) as [g1 log1] eqn:E1.
    destruct (add_keymaps key_events rest g1) as [g2 log2] eqn:E2.
    injection H as <- <-.
    apply add_keymap_inv in E1; [|assumption|lia].
    destruct E1 as [Hinv1 Hc1].
    apply IH in E2; [|assumption|].
    + destruct E2 as [Hinv2 Hc2]. split; [assumption|].
      rewrite dropped_raw_app. lia.
    + destruct Hinv1 as (I1 & _). destruct Hinv as (J1 & _). lia.
Qed.

Lemma note_protocol_errno : forall map g,
  errno (note_protocol map g) = errno g.
Proof.
  intros map g. unfold note_protocol.
  destruct (parse_protocol (km_protocol map) false =? SYSFS_INVALID);
    [destruct (negb (strcmp_eq (km_protocol map) "none"))|]; reflexivity.
Qed.

(** *** The entries recorded, one by one *)

Lemma numbered_app : forall l1 l2 n,
  numbered n (l1 ++ l2) =
  numbered n l1 ++ numbered (n + List.length l1) l2.
Proof.
  induction l1 as [|re l1 IH]; intros l2 n; cbn [numbered app List.length].
  - now rewrite Nat.add_0_r.
  - rewrite IH. do 3 f_equal. lia.
Qed.

Lemma keycode_value_clear : forall keycode,
  snd (keycode_value key_events 0 keycode) = 0 ->
  keycode_value key_events 0 keycode =
  (resolved_value key_events keycode, 0).
Proof.
  intros keycode H. unfold resolved_value.
  destruct (keycode_value key_events 0 keycode) as [v e].
  cbn [fst snd] in *. now subst e.
Qed.

(** A key name resolves whatever [errno] holds. *)
Lemma keycode_value_name : forall e keycode,
  parse_code key_events keycode <> -1 ->
  keycode_value key_events e keycode =
  (Some (parse_code key_events keycode), e).
Proof.
  intros e keycode H. unfold keycode_value.
  destruct (Z.eqb_spec (parse_code key_events keycode) (-1));
    [contradiction | reflexivity].
Qed.

Lemma scancode_loop_clear : forall fname ses g g' log,
  errno g = 0 ->
  forallb (fun keycode => snd (keycode_value key_events 0 keycode) =? 0)
          (List.map se_keycode ses) = true ->
  scancode_loop key_events fname ses g = (g', log) ->
  errno g' = 0 /\ filter is_no_mapping log = [].
Proof.
  intros fname ses; induction ses as [|se rest IH]; intros g g' log He Hok H.
  - simpl in H. injection H as <- <-. auto.
  - cbn [List.map forallb] in Hok. apply andb_prop in Hok as [Hk Hok].
    apply Z.eqb_eq in Hk.
    simpl in H. rewrite He, (keycode_value_clear _ Hk) in H.
    destruct (resolved_value key_events (se_keycode se)) as [value|].
    + apply IH in H; auto.
    + destruct (scancode_loop key_events fname rest (set_errno g 0))
        as [g1 log1] eqn:E.
      injection H as <- <-. apply IH in E; auto.
Qed.

Lemma recorded_inv_frame : forall done g g',
  errno g' = errno g -> raw_scancode g' = raw_scancode g ->
  rawtable g' = rawtable g -> incl (keytable g) (keytable g') ->
  recorded_inv key_events done g -> recorded_inv key_events done g'.
Proof.
  intros done g g' He Hc Hr Hk (I1 & I2 & I3 & I4). unfold recorded_inv.
  rewrite He, Hc, Hr. repeat split; auto.
  intros k re v Hn Hv. apply Hk. eauto.
Qed.

(** One raw entry more with [errno] clear: recorded under the next number
    when its keycode resolves, passed over when it does not. *)
Lemma recorded_inv_step : forall done re g,
  recorded_inv key_events done g ->
  Z.of_nat (List.length (done ++ [re])) <= INT_MAX ->
  recorded_inv key_events (done ++ [re])
    match resolved_value key_events (re_keycode re) with
    | Some value =>
      push_raw
        (push_key (set_errno g 0)
           (mk_ke (to_u64 (raw_scancode (set_errno g 0))) (to_u32 value)))
        re
    | None => set_errno g 0
    end.
Proof.
  intros done re g (I1 & I2 & I3 & I4) Hb.
  rewrite length_app in Hb. cbn [List.length] in Hb.
  pose proof (filter_length_le (resolves key_events) done) as Hle.
  unfold recorded_inv. rewrite filter_app. cbn [filter].
  change (resolves key_events re)
    with (match resolved_value key_events (re_keycode re) with
          | Some _ => true | None => false end).
  destruct (resolved_value key_events (re_keycode re)) as [value|] eqn:Ev.
  - cbn [push_raw push_key set_errno rawtable raw_scancode keytable errno
         rev].
    rewrite I3, to_int_small, to_u64_small by lia.
    rewrite I2, numbered_app, length_app. cbn [numbered List.length Nat.add].
    repeat split; auto; try lia.
    intros k re' v Hn Hv.
    destruct (Nat.lt_ge_cases k
                (List.length (filter (resolves key_events) done)))
      as [Hlt | Hge].
    + rewrite nth_error_app1 in Hn by assumption.
      right. eauto.
    + rewrite nth_error_app2 in Hn by assumption.
      destruct (k - List.length (filter (resolves key_events) done))%nat
        as [|d] eqn:Ed; [|destruct d; discriminate].
      cbn [nth_error] in Hn. injection Hn as <-.
      rewrite Ev in Hv. injection Hv as <-.
      left. f_equal. lia.
  - rewrite app_nil_r.
    cbn [set_errno rawtable raw_scancode keytable errno].
    repeat split; auto.
Qed.

Lemma raw_loop_recorded : forall fname res done g g' log,
  recorded_inv key_events done g ->
  forallb (fun keycode => snd (keycode_value key_events 0 keycode) =? 0)
          (List.map re_keycode res) = true ->
  Z.of_nat (List.length (done ++ res)) <= INT_MAX ->
  raw_loop key_events fname res g = (g', log) ->
  recorded_inv key_events (done ++ res) g' /\
  filter is_no_mapping log =
    List.map (fun re => no_mapping fname (re_keycode re))
      (filter (fun re => negb (resolves key_events re)) res).
Proof.
  intros fname res; induction res as [|re rest IH];
    intros done g g' log Hinv Hok Hb H.
  - simpl in H. injection H as <- <-. rewrite app_nil_r. auto.
  - cbn [List.map forallb] in Hok. apply andb_prop in Hok as [Hk Hok].
    apply Z.eqb_eq in Hk.
    assert (Hb1 : Z.of_nat (List.length (done ++ [re])) <= INT_MAX).
    { rewrite !length_app in *. cbn [List.length] in *. lia. }
    pose proof (recorded_inv_step done re g Hinv Hb1) as Hstep.
    replace (done ++ re :: rest) with ((done ++ [re]) ++ rest) in *
      by (rewrite <- app_assoc; reflexivity).
    simpl in H. destruct Hinv as (He & _).
    rewrite He, (keycode_value_clear _ Hk) in H.
    cbn [filter].
    change (resolves key_events re)
      with (match resolved_value key_events (re_keycode re) with
            | Some _ => true | None => false end).
    destruct (resolved_value key_events (re_keycode re)) as [value|].
    + cbn [negb]. eapply IH; eauto.
    + destruct (raw_loop key_events fname rest (set_errno g 0))
        as [g1 log1] eqn:E.
      injection H as <- <-.
      destruct (IH _ _ _ _ Hstep Hok Hb E) as [H1 H2].
      split; [exact H1|].
      cbn [filter is_no_mapping negb List.map]. now rewrite H2.
Qed.

Lemma add_keymap_recorded : forall fname maps done g g' log,
  recorded_inv key_events done g ->
  forallb (fun keycode => snd (keycode_value key_events 0 keycode) =? 0)
          (flat_map map_keycodes maps) = true ->
  Z.of_nat (List.length (done ++ raw_entries maps)) <= INT_MAX ->
  add_keymap key_events maps fname g = (g', log) ->
  recorded_inv key_events (done ++ raw_entries maps) g' /\
  filter is_no_mapping log =
    List.map (fun re => no_mapping fname (re_keycode re))
      (filter (fun re => negb (resolves key_events re)) (raw_entries maps)).
Proof.
  intros fname maps; induction maps as [|map rest IH];
    intros done g g' log Hinv Hok Hb H.
  - simpl in H. injection H as <- <-.
    unfold raw_entries. cbn [flat_map]. rewrite app_nil_r. auto.
  - unfold raw_entries in *. cbn [flat_map] in Hok, Hb |- *.
    fold (raw_entries rest) in *.
    unfold map_keycodes at 1 in Hok. rewrite !forallb_app in Hok.
    apply andb_prop in Hok as [Hok Hok3].
    apply andb_prop in Hok as [Hok1 Hok2].
    rewrite app_assoc in Hb |- *.
    simpl in H.
    destruct (note_protocol_frame map g) as (N1 & N2 & N3).
    destruct (scancode_loop key_events fname (km_scancode map)
                (note_protocol map g)) as [g2 log2] eqn:E2.
    destruct (raw_loop key_events fname (km_raw map) g2) as [g3 log3] eqn:E3.
    destruct (add_keymap key_events rest fname g3) as [g4 log4] eqn:E4.
    injection H as <- <-.
    assert (He1 : errno (note_protocol map g) = 0)
      by (rewrite note_protocol_errno; apply Hinv).
    destruct (scancode_loop_clear _ _ _ _ _ He1 Hok1 E2) as [He2 Hl2].
    destruct (scancode_loop_frame _ _ _ _ _ E2) as (S1 & S2 & S3 & _).
    assert (Hinv2 : recorded_inv key_events done g2).
    { assert (He0 : errno g = 0) by apply Hinv.
      revert Hinv. apply recorded_inv_frame; try congruence.
      rewrite <- N3. exact S3. }
    assert (Hb3 : Z.of_nat (List.length (done ++ km_raw map)) <= INT_MAX).
    { rewrite !length_app in *. lia. }
    destruct (raw_loop_recorded _ _ _ _ _ _ Hinv2 Hok2 Hb3 E3) as [Hinv3 Hl3].
    destruct (IH _ _ _ _ Hinv3 Hok3 Hb E4) as [Hinv4 Hl4].
    split; [exact Hinv4|].
    rewrite !filter_app, Hl2, Hl3, Hl4, map_app. reflexivity.
Qed.

Lemma add_keymaps_recorded : forall files done g g' log,
  recorded_inv key_events done g ->
  errno_stays_clear key_events files = true ->
  Z.of_nat (List.length (done ++ all_raw_entries files)) <= INT_MAX ->
  add_keymaps key_events files g = (g', log) ->
  recorded_inv key_events (done ++ all_raw_entries files) g' /\
  filter is_no_mapping log = dropped_diagnostics key_events files.
Proof.
  unfold errno_stays_clear.
  intros files; induction files as [|[maps fname] rest IH];
    intros done g g' log Hinv Hok Hb H.
  - simpl in H. injection H as <- <-.
    unfold all_raw_entries. cbn [flat_map]. rewrite app_nil_r. auto.
  - unfold all_raw_entries, all_keycodes, dropped_diagnostics in *.
    cbn [flat_map fst snd] in Hok, Hb |- *.
    fold (all_raw_entries rest) in *. fold (all_keycodes rest) in *.
    fold (dropped_diagnostics key_events rest) in *.
    rewrite forallb_app in Hok. apply andb_prop in Hok as [Hok1 Hok2].
    rewrite app_assoc in Hb |- *.
    simpl in H.
    destruct (add_keymap key_events maps fname g) as [g1 log1] eqn:E1.
    destruct (add_keymaps key_events rest g1) as [g2 log2] eqn:E2.
    injection H as <- <-.
    assert (Hb1 : Z.of_nat (List.length (done ++ raw_entries maps))
                  <= INT_MAX).
    { rewrite !length_app in *. lia. }
    destruct (add_keymap_recorded _ _ _ _ _ _ Hinv Hok1 Hb1 E1)
      as [Hinv1 Hl1].
    destruct (IH _ _ _ _ Hinv1 Hok2 Hb E2) as [Hinv2 Hl2].
    split; [exact Hinv2|].
    rewrite filter_app, Hl1, Hl2. reflexivity.
Qed.

(** *** Key names, whatever [errno] holds *)

Lemma recorded_as_frame : forall g g' re,
  incl (rawtable g) (rawtable g') -> incl (keytable g) (keytable g') ->
  recorded_as key_events g re -> recorded_as key_events g' re.
Proof.
  intros g g' re Hr Hk (r & H1 & H2 & H3 & H4).
  exists r. repeat split; auto.
Qed.

Lemma raw_loop_names : forall fname res g g' log,
  raw_loop key_events fname res g = (g', log) ->
  incl (rawtable g) (rawtable g') /\ incl (keytable g) (keytable g') /\
  forall re, In re res -> parse_code key_events (re_keycode re) <> -1 ->
             recorded_as key_events g' re.
Proof.
  intros fname res; induction res as [|re rest IH]; intros g g' log H.
  - simpl in H. injection H as <- <-.
    repeat split; auto using incl_refl. contradiction.
  - simpl in H.
    destruct (keycode_value key_events (errno g) (re_keycode re))
      as [[value|] e] eqn:Ev.
    + apply IH in H. destruct H as (Hr & Hk & Hn).
      cbn [push_raw push_key set_errno rawtable keytable raw_scancode]
        in Hr, Hk.
      split; [intros x Hx; apply Hr; now right|].
      split; [intros x Hx; apply Hk; now right|].
      intros re' [<- | Hin] Hname; [|now apply Hn].
      rewrite (keycode_value_name _ _ Hname) in Ev.
      injection Ev as <- <-.
      eexists. split; [apply Hr; left; reflexivity|].
      cbn [re_keycode re_raw re_scancode].
      repeat split. apply Hk. left. reflexivity.
    + destruct (raw_loop key_events fname rest (set_errno g e))
        as [g1 log1] eqn:E.
      injection H as <- <-. apply IH in E. destruct E as (Hr & Hk & Hn).
      cbn [set_errno rawtable keytable] in Hr, Hk.
      repeat split; auto.
      intros re' [<- | Hin] Hname; [|now apply Hn].
      rewrite (keycode_value_name _ _ Hname) in Ev. discriminate.
Qed.

Lemma add_keymap_names : forall fname maps g g' log,
  add_keymap key_events maps fname g = (g', log) ->
  incl (rawtable g) (rawtable g') /\ incl (keytable g) (keytable g') /\
  forall re, In re (raw_entries maps) ->
             parse_code key_events (re_keycode re) <> -1 ->
             recorded_as key_events g' re.
Proof.
  intros fname maps; induction maps as [|map rest IH]; intros g g' log H.
  - simpl in H. injection H as <- <-.
    repeat split; auto using incl_refl. contradiction.
  - simpl in H.
    destruct (note_protocol_frame map g) as (N1 & N2 & N3).
    destruct (scancode_loop key_events fname (km_scancode map)
                (note_protocol map g)) as [g2 log2] eqn:E2.
    destruct (raw_loop key_events fname (km_raw map) g2) as [g3 log3] eqn:E3.
    destruct (add_keymap key_events rest fname g3) as [g4 log4] eqn:E4.
    injection H as <- <-.
    destruct (scancode_loop_frame _ _ _ _ _ E2) as (S1 & S2 & S3 & _).
    destruct (raw_loop_names _ _ _ _ _ E3) as (R1 & R2 & R3).
    destruct (IH _ _ _ E4) as (A1 & A2 & A3).
    rewrite S2, N2 in R1. rewrite N3 in S3.
    split; [eauto using incl_tran|]. split; [eauto using incl_tran|].
    intros re Hin Hname. unfold raw_entries in Hin. cbn [flat_map] in Hin.
    apply in_app_or in Hin as [Hin | Hin].
    + apply (recorded_as_frame g3); auto.
    + now apply A3.
Qed.

Lemma add_keymaps_names : forall files g g' log,
  add_keymaps key_events files g = (g', log) ->
  incl (rawtable g) (rawtable g') /\ incl (keytable g) (keytable g') /\
  forall re, In re (all_raw_entries files) ->
             parse_code key_events (re_keycode re) <> -1 ->
             recorded_as key_events g' re.
Proof.
  intros files; induction files as [|[maps fname] rest IH];
    intros g g' log H.
  - simpl in H. injection H as <- <-.
    repeat split; auto using incl_refl. contradiction.
  - simpl in H.
    destruct (add_keymap key_events maps fname g) as [g1 log1] eqn:E1.
    destruct (add_keymaps key_events rest g1) as [g2 log2] eqn:E2.
    injection H as <- <-.
    destruct (add_keymap_names _ _ _ _ _ E1) as (A1 & A2 & A3).
    destruct (IH _ _ _ E2) as (B1 & B2 & B3).
    split; [eauto using incl_tran|]. split; [eauto using incl_tran|].
    intros re Hin Hname. unfold all_raw_entries in Hin.
    cbn [flat_map fst] in Hin.
    apply in_app_or in Hin as [Hin | Hin].
    + apply (recorded_as_frame g1); auto.
    + now apply B3.
Qed.

End KeytableFacts.

Lemma seq_strictly_increasing : forall n a,
  StronglySorted Z.lt (map Z.of_nat (seq a n)).
Proof.
  induction n as [|n IH]; intros a; simpl; constructor.
  - apply IH.
  - apply Forall_forall. intros x Hx.
    apply in_map_iff in Hx as (k & <- & Hk). apply in_seq in Hk. lia.
Qed.

(** C7, as the code has it: across any number of keymap files merged in one
    run, starting from the counter at 0, the raw entries recorded carry the
    scancodes 0, 1, 2, ... in the order they are met (strictly increasing,
    pairwise distinct), the counter ends at their number, each has a keytable
    binding under the same scancode with the keycode it resolved to, and
    every raw entry is either recorded or dropped with a "no mapping"
    diagnostic.  Which entries are recorded: every raw entry whose keycode
    is a key name, whatever [errno] holds; and, when [errno] is clear at the
    start and no keycode of the files is a number beyond the range of
    [long], exactly the raw entries whose keycode resolves (a key name or a
    number), in file order - the k-th of them is in the raw table with its
    keycode and pulse data under scancode k, and in the keytable as the
    binding of scancode k to the resolved keycode - while the entries that
    do not resolve are the ones reported, in file order.  The counter is a C
    [int]: the statement covers runs of at most [INT_MAX] raw entries. *)
Theorem raw_scancodes_sequential :
  forall key_events files g0 g log,
    raw_scancode g0 = 0 -> rawtable g0 = [] ->
    Z.of_nat (List.length (all_raw_entries files)) <= INT_MAX ->
    add_keymaps key_events files g0 = (g, log) ->
    map re_scancode (rev (rawtable g)) =
      map Z.of_nat (seq 0 (List.length (rawtable g))) /\
    StronglySorted Z.lt (map re_scancode (rev (rawtable g))) /\
    NoDup (map re_scancode (rawtable g)) /\
    raw_scancode g = Z.of_nat (List.length (rawtable g)) /\
    (List.length (rawtable g) + dropped_raw log =
     List.length (all_raw_entries files))%nat /\
    (forall r, In r (rawtable g) ->
       exists ke e v,
         In ke (keytable g) /\ ke_scancode ke = re_scancode r /\
         fst (keycode_value key_events e (re_keycode r)) = Some v /\
         ke_keycode ke = to_u32 v) /\
    (forall re, In re (all_raw_entries files) ->
       parse_code key_events (re_keycode re) <> -1 ->
       exists r,
         In r (rawtable g) /\ re_keycode r = re_keycode re /\
         re_raw r = re_raw re /\
         In (mk_ke (re_scancode r)
                   (to_u32 (parse_code key_events (re_keycode re))))
            (keytable g)) /\
    (errno g0 = 0 -> errno_stays_clear key_events files = true ->
     rev (rawtable g) =
       numbered 0 (filter (resolves key_events) (all_raw_entries files)) /\
     (forall k re v,
        nth_error (filter (resolves key_events) (all_raw_entries files)) k
          = Some re ->
        resolved_value key_events (re_keycode re) = Some v ->
        In (mk_ke (Z.of_nat k) (to_u32 v)) (keytable g)) /\
     filter is_no_mapping log = dropped_diagnostics key_events files).
Proof.
  intros key_events files g0 g log Hc Hr Hb H.
  assert (Hinv0 : raw_inv key_events g0).
  { unfold raw_inv. rewrite Hc, Hr. simpl. repeat split; auto.
    contradiction. }
  pose proof (add_keymaps_names key_events _ _ _ _ H) as (_ & _ & Hnames).
  pose proof H as H'.
  apply add_keymaps_inv in H; [|assumption|lia].
  destruct H as [(I1 & I2 & I3) Hcount].
  rewrite Hr in Hcount. simpl in Hcount.
  split; [exact I2|].
  split; [rewrite I2; apply seq_strictly_increasing|].
  split.
  { rewrite <- (rev_involutive (map re_scancode (rawtable g))).
    apply NoDup_rev. rewrite <- map_rev, I2.
    apply NoDup_map_NoDup_ForallPairs; [|apply seq_NoDup].
    intros x y _ _ Hxy. lia. }
  split; [exact I1|]. split; [exact Hcount|]. split; [exact I3|].
  split; [exact Hnames|].
  intros He Hok.
  assert (Hrec0 : recorded_inv key_events [] g0).
  { unfold recorded_inv. rewrite Hc, Hr, He. cbn [filter numbered rev].
    repeat split; auto. intros k re v Hn. destruct k; discriminate. }
  destruct (add_keymaps_recorded key_events files [] g0 g log Hrec0 Hok Hb H')
    as [(_ & J2 & _ & J4) Hlog].
  cbn [app] in J2, J4. auto.
Qed.

Lemma raw_scancodes_sequential_witness :
  let g := fst (add_keymaps sample_key_events sample_files initial_globals) in
  let log := snd (add_keymaps sample_key_events sample_files initial_globals) in
  map re_scancode (rev (rawtable g)) =
    map Z.of_nat (seq 0 (List.length (rawtable g))) /\
  raw_scancode g = Z.of_nat (List.length (rawtable g)) /\
  (List.length (rawtable g) + dropped_raw log =
   List.length (all_raw_entries sample_files))%nat /\
  rev (rawtable g) =
    numbered 0 (filter (resolves sample_key_events)
                       (all_raw_entries sample_files)) /\
  filter is_no_mapping log =
    dropped_diagnostics sample_key_events sample_files /\
  map re_scancode (rev (rawtable g)) = [0; 1; 2; 3; 4] /\
  map re_keycode (rev (rawtable g)) =
    ["KEY_POWER"; "KEY_OK"; "KEY_UP"; "KEY_POWER"; "KEY_OK"]%string /\
  dropped_raw log = 2%nat.
Proof.
  cbv zeta.
  destruct (raw_scancodes_sequential sample_key_events sample_files
              initial_globals
              (fst (add_keymaps sample_key_events sample_files initial_globals))
              (snd (add_keymaps sample_key_events sample_files initial_globals)))
    as (H1 & _ & _ & H2 & H3 & _ & _ & H4);
    [ reflexivity | reflexivity | vm_compute; discriminate
    | apply surjective_pairing | ].
  destruct H4 as (H5 & _ & H6);
    [reflexivity | vm_compute; reflexivity |].
  split; [exact H1|]. split; [exact H2|]. split; [exact H3|].
  split; [exact H5|]. split; [exact H6|].
  repeat (split; [vm_compute; reflexivity|]). vm_compute; reflexivity.
Defined.

(** C7 as stated fails on a raw entry whose keycode does not resolve: the
    entry "KEY_BOGUS" of the sample keymap is dropped with a diagnostic and
    is in neither table, which hold two entries for the three of the file. *)
Lemma unresolved_raw_entry_not_recorded :
  let files := [([sample_raw_keymap], "a.toml"%string)] in
  let g := fst (add_keymaps sample_key_events files initial_globals) in
  let log := snd (add_keymaps sample_key_events files initial_globals) in
  In (mk_re 0 "KEY_BOGUS" [9000; 4500; 1690]) (all_raw_entries files) /\
  List.length (all_raw_entries files) = 3%nat /\
  map re_keycode (rawtable g) = ["KEY_OK"; "KEY_POWER"]%string /\
  keytable g = [mk_ke 1 352; mk_ke 0 116] /\
  log = [no_mapping "a.toml" "KEY_BOGUS"].
Proof.
  cbv zeta. repeat split; try (vm_compute; reflexivity).
  vm_compute. auto.
Qed.

(** ** Kernel keycode programmer *)

Section ProgrammerFacts.

Variable kernel : Type.
Variable ioctl : kernel -> ioctl_request -> kernel * Z.

Lemma add_keys_loop_spec : forall kes k c k' reqs failed cnt,
  add_keys_loop kernel ioctl kes k c = (k', reqs, failed, cnt) ->
  Forall binding_in_range kes ->
  0 <= c -> c + Z.of_nat (List.length kes) <= INT_MAX ->
  reqs = map request_of kes /\
  cnt = c + Z.of_nat (List.length kes) /\
  incl failed kes.
Proof.
  induction kes as [|ke rest IH]; intros k c k' reqs failed cnt H Hr Hc Hb.
  - simpl in H. injection H as <- <- <- <-.
    simpl. repeat split; auto using incl_refl; lia.
  - cbn [List.length] in Hb. simpl in H.
    inversion Hr as [|x l [Hs Hk] Hrest]; subst.
    destruct (ioctl k _) as [k1 ret] in H.
    destruct (add_keys_loop kernel ioctl rest k1 (to_int (c + 1)))
      as [[[k2 reqs2] failed2] cnt2] eqn:E.
    injection H as <- <- <- <-.
    rewrite to_int_small in E by lia.
    apply IH in E; [|assumption|lia|lia].
    destruct E as (E1 & E2 & E3). subst reqs2 cnt2.
    split; [|split].
    + simpl. f_equal. unfold request_of, to_u32.
      destruct (Z.ltb_spec (ke_scancode ke) (2 ^ 32)).
      * rewrite !Z.mod_small by lia. now rewrite Z.eqb_refl.
      * assert (Hm : ke_scancode ke mod 2 ^ 32 < 2 ^ 32)
          by (apply Z.mod_pos_bound; lia).
        destruct (Z.eqb_spec (ke_scancode ke mod 2 ^ 32) (ke_scancode ke));
          [lia | reflexivity].
    + cbn [List.length]. lia.
    + destruct (ret =? 0).
      * intros x Hx. right. now apply E3.
      * intros x [<- | Hx]; [now left | right; now apply E3].
Qed.

End ProgrammerFacts.

(** C2, as the code has it: [add_keys] programs every binding in keytable
    order, whatever the ioctls answer; a binding whose scancode exceeds 32
    bits goes through EVIOCSKEYCODE_V2 with an 8-byte record, every other
    binding through the legacy EVIOCSKEYCODE pair, in both cases whatever
    evdev version was detected; the count returned is the number of bindings
    attempted, and the keytable is empty afterwards. *)
Theorem add_keys_requests :
  forall (kernel : Type) (ioctl : kernel -> ioctl_request -> kernel * Z)
         g k g' k' reqs failed cnt,
    Forall binding_in_range (keytable g) ->
    Z.of_nat (List.length (keytable g)) <= INT_MAX ->
    add_keys kernel ioctl g k = (g', k', reqs, failed, cnt) ->
    reqs = map request_of (keytable g) /\
    cnt = Z.of_nat (List.length (keytable g)) /\
    incl failed (keytable g) /\
    keytable g' = [] /\
    input_protocol_version g' = input_protocol_version g.
Proof.
  intros kernel ioctl g k g' k' reqs failed cnt Hr Hb H.
  unfold add_keys in H.
  destruct (add_keys_loop kernel ioctl (keytable g) k 0)
    as [[[k2 reqs2] failed2] cnt2] eqn:E.
  injection H as <- <- <- <- <-.
  apply add_keys_loop_spec in E; [|assumption|lia|lia].
  destruct E as (E1 & E2 & E3). repeat split; auto.
Qed.

Lemma add_keys_requests_witness :
  [EVIOCSKEYCODE 256 116;
   EVIOCSKEYCODE_V2 (mk_entry_v2 0 8 0 352 1099511627777)] =
    map request_of (keytable sample_v2_globals) /\
  2 = Z.of_nat (List.length (keytable sample_v2_globals)) /\
  incl (keytable sample_v2_globals) (keytable sample_v2_globals) /\
  keytable (set_keytable sample_v2_globals []) = [] /\
  input_protocol_version (set_keytable sample_v2_globals []) =
    input_protocol_version sample_v2_globals.
Proof.
  apply (add_keys_requests unit refusing_ioctl sample_v2_globals tt
           (set_keytable sample_v2_globals []) tt).
  - repeat constructor; vm_compute; congruence.
  - vm_compute; discriminate.
  - reflexivity.
Defined.

(** C2 as stated fails for a scancode that fits 32 bits when the detected
    version selects the indexed family: with version 0x10001 the binding
    (0x0100, 116) is still programmed through the legacy EVIOCSKEYCODE. *)
Lemma legacy_ioctl_despite_version :
  let '(_, _, reqs, _, _) :=
    add_keys unit accepting_ioctl sample_v2_globals tt in
  legacy_family sample_v2_globals = false /\
  input_protocol_version sample_v2_globals = 65537 /\
  nth_error (keytable sample_v2_globals) 0 = Some (mk_ke 256 116) /\
  nth_error reqs 0 = Some (EVIOCSKEYCODE 256 116).
Proof.
  simpl. repeat split.
Qed.

(** ** Tokens *)

Lemma strtok_all_skip : forall delim s,
  strtok_all delim (skip_delims delim s) = strtok_all delim s.
Proof.
  intros delim; induction s as [|c r IH]; [reflexivity|].
  simpl. destruct (delim c) eqn:E; [|reflexivity].
  rewrite IH. unfold strtok_all. simpl. now rewrite E.
Qed.

Lemma split_at_take_token : forall delim s,
  exists tl,
    split_at delim s = fst (take_token delim s) :: tl /\
    filter (fun t => negb (is_empty t)) tl =
      strtok_all delim (snd (take_token delim s)).
Proof.
  intros delim; induction s as [|c r IH].
  - exists []. split; reflexivity.
  - simpl. destruct (delim c).
    + exists (split_at delim r). split; reflexivity.
    + destruct IH as (tl & E1 & E2). rewrite E1.
      destruct (take_token delim r) as [t rest]. simpl in *.
      exists tl. split; [reflexivity | exact E2].
Qed.

(** [strtok_all] is the sequence of tokens successive [strtok] calls give. *)
Lemma strtok_all_strtok : forall delim s,
  match strtok delim s with
  | Some (t, rest) => strtok_all delim s = t :: strtok_all delim rest
  | None => strtok_all delim s = []
  end.
Proof.
  intros delim s. unfold strtok. rewrite <- (strtok_all_skip delim s).
  assert (Hhead : match skip_delims delim s with
                  | EmptyString => True
                  | String c _ => delim c = false
                  end).
  { induction s as [|c r IH]; simpl; [exact I|].
    destruct (delim c) eqn:E; [exact IH | exact E]. }
  destruct (skip_delims delim s) as [|c r]; [reflexivity|].
  destruct (split_at_take_token delim (String c r)) as (tl & E1 & E2).
  destruct (take_token delim (String c r)) as [t rest] eqn:Et.
  cbn [fst snd] in E1, E2. unfold strtok_all at 1. rewrite E1.
  assert (Hne : is_empty t = false).
  { simpl in Et. rewrite Hhead in Et.
    destruct (take_token delim r). injection Et as <- _. reflexivity. }
  simpl. rewrite Hne. simpl. now rewrite E2.
Qed.

(** ** uevent files *)

Lemma fgets_take_line : forall body rest room,
  has_char is_newline body = false ->
  (String.length body < room)%nat ->
  fgets_take room (body ++ String newline rest) =
  ((body ++ String newline EmptyString)%string, rest).
Proof.
  induction body as [|c body IH]; intros rest room Hn Hlen.
  - destruct room; [simpl in Hlen; lia|]. reflexivity.
  - destruct room; [simpl in Hlen; lia|].
    simpl in Hn, Hlen |- *. apply orb_false_elim in Hn as [Hc Hn].
    unfold is_newline in Hc. rewrite Hc.
    rewrite IH by (auto; lia). reflexivity.
Qed.

Lemma fgets_take_rest_le : forall room s,
  (String.length (snd (fgets_take room s)) <= String.length s)%nat.
Proof.
  induction room as [|room IH]; intros s; [simpl; lia|].
  destruct s as [|c r]; [simpl; lia|].
  simpl. destruct (Ascii.eqb c newline); [simpl; lia|].
  specialize (IH r). destruct (fgets_take room r); simpl in *. lia.
Qed.

Lemma fgets_consumes : forall size s l rest,
  (2 <= size)%nat -> fgets size s = Some (l, rest) ->
  l <> EmptyString /\ (String.length rest < String.length s)%nat.
Proof.
  intros size s l rest Hsize H. unfold fgets in H.
  destruct s as [|c r]; [discriminate|].
  destruct (size - 1)%nat as [|room] eqn:E; [lia|].
  injection H as H. simpl in H.
  destruct (Ascii.eqb c newline).
  - injection H as <- <-. split; [discriminate | simpl; lia].
  - pose proof (fgets_take_rest_le room r) as Hle.
    destruct (fgets_take room r) as [l1 rest1]. injection H as <- <-.
    split; [discriminate | simpl in *; lia].
Qed.

(** Enough fuel: any number of rounds from the length of the stream on reads
    the same lines. *)
Lemma fgets_rounds_enough : forall size fuel1 fuel2 s,
  (2 <= size)%nat ->
  (String.length s <= fuel1)%nat -> (String.length s <= fuel2)%nat ->
  fgets_rounds fuel1 size s = fgets_rounds fuel2 size s.
Proof.
  intros size; induction fuel1 as [|fuel1 IH]; intros fuel2 s Hsize H1 H2.
  - destruct s; [|simpl in H1; lia]. destruct fuel2; reflexivity.
  - destruct fuel2 as [|fuel2].
    + destruct s; [reflexivity | simpl in H2; lia].
    + simpl. destruct (fgets size s) as [[l rest]|] eqn:E; [|reflexivity].
      apply fgets_consumes in E as [_ Hlt]; [|assumption].
      f_equal. apply IH; auto; lia.
Qed.

Lemma fgets_rounds_nonempty : forall size fuel s l,
  (2 <= size)%nat -> In l (fgets_rounds fuel size s) -> l <> EmptyString.
Proof.
  intros size; induction fuel as [|fuel IH]; intros s l Hsize Hin.
  - contradiction.
  - simpl in Hin. destruct (fgets size s) as [[l1 rest]|] eqn:E;
      [|contradiction].
    destruct Hin as [<- | Hin]; [|eauto].
    now apply fgets_consumes in E as [Hne _].
Qed.

Lemma string_app_assoc : forall a b c : string,
  ((a ++ b) ++ c)%string = (a ++ (b ++ c))%string.
Proof.
  induction a as [|x a IH]; intros; simpl; [reflexivity | now rewrite IH].
Qed.

Lemma string_length_app : forall a b : string,
  String.length (a ++ b) = (String.length a + String.length b)%nat.
Proof.
  induction a as [|x a IH]; intros; simpl; [reflexivity | now rewrite IH].
Qed.

Lemma has_char_app : forall p a b,
  has_char p (a ++ b) = has_char p a || has_char p b.
Proof.
  induction a as [|x a IH]; intros; simpl; [reflexivity|].
  now rewrite IH, orb_assoc.
Qed.

Lemma file_lines_uevent_file : forall kvs,
  Forall uevent_pair_ok kvs ->
  file_lines 4096 (uevent_file kvs) = map uevent_line kvs.
Proof.
  induction kvs as [|[k v] rest IH]; intros Hok; [reflexivity|].
  inversion Hok as [|x l (Hk & Hv & Hke & Hkn & Hvn & Hlen) Hrest]; subst.
  simpl in Hk, Hv, Hke, Hkn, Hvn, Hlen.
  unfold file_lines. cbn [uevent_file].
  set (body := (k ++ "=" ++ v)%string).
  assert (Hline : uevent_line (k, v) = (body ++ String newline "")%string).
  { unfold uevent_line, body, nl. simpl.
    now rewrite !string_app_assoc. }
  assert (Hcontent : (uevent_line (k, v) ++ uevent_file rest)%string =
                     (body ++ String newline (uevent_file rest))%string).
  { rewrite Hline, string_app_assoc. reflexivity. }
  rewrite Hcontent.
  assert (Hbn : has_char is_newline body = false).
  { unfold body. rewrite !has_char_app, Hkn, Hvn. reflexivity. }
  assert (Hbl : (String.length body < 4095)%nat).
  { unfold body. rewrite !string_length_app. simpl. lia. }
  rewrite string_length_app. cbn [String.length].
  rewrite Nat.add_succ_r. cbn [fgets_rounds].
  assert (Hf : fgets 4096
                 (body ++ String newline (uevent_file rest)) =
               Some ((body ++ String newline "")%string, uevent_file rest)).
  { unfold fgets.
    destruct (body ++ String newline (uevent_file rest))%string eqn:E.
    - destruct body; discriminate.
    - rewrite <- E. f_equal. now apply fgets_take_line. }
  rewrite Hf. cbn [map]. rewrite Hline. f_equal.
  rewrite <- IH by assumption. unfold file_lines.
  apply fgets_rounds_enough; lia.
Qed.

Lemma take_token_found : forall delim k r c,
  has_char delim k = false -> delim c = true ->
  take_token delim (k ++ String c r) = (k, r).
Proof.
  induction k as [|x k IH]; intros r c Hk Hc; simpl.
  - now rewrite Hc.
  - simpl in Hk. apply orb_false_elim in Hk as [Hx Hk].
    rewrite Hx, IH by assumption. reflexivity.
Qed.

Lemma take_token_whole : forall delim s,
  has_char delim s = false -> take_token delim s = (s, EmptyString).
Proof.
  induction s as [|x s IH]; intros H; simpl; [reflexivity|].
  simpl in H. apply orb_false_elim in H as [Hx Hs].
  now rewrite Hx, IH.
Qed.

Lemma strtok_first : forall delim k r c,
  k <> EmptyString -> has_char delim k = false -> delim c = true ->
  strtok delim (k ++ String c r) = Some (k, r).
Proof.
  intros delim k r c Hne Hk Hc. unfold strtok.
  destruct k as [|x k]; [contradiction|].
  simpl in Hk. apply orb_false_elim in Hk as [Hx Hk].
  cbn [append skip_delims]. rewrite Hx.
  change (String x (k ++ String c r)) with ((String x k) ++ String c r)%string.
  rewrite take_token_found; simpl; auto. now rewrite Hx, Hk.
Qed.

Lemma strtok_whole : forall delim s,
  s <> EmptyString -> has_char delim s = false ->
  strtok delim s = Some (s, EmptyString).
Proof.
  intros delim s Hne H. unfold strtok.
  destruct s as [|x s]; [contradiction|].
  pose proof H as H'. simpl in H'. apply orb_false_elim in H' as [Hx _].
  cbn [skip_delims]. rewrite Hx. now rewrite take_token_whole.
Qed.

Lemma uevents_of_lines_cons : forall s rest,
  uevents_of_lines (s :: rest) =
  match strtok is_equals s with
  | None => uevents_of_lines rest
  | Some (key, after) =>
    match strtok is_newline after with
    | None => None
    | Some (value, _) =>
      match uevents_of_lines rest with
      | None => None
      | Some more => Some ((key, value) :: more)
      end
    end
  end.
Proof. reflexivity. Qed.

Lemma uevents_of_well_formed_lines : forall kvs,
  Forall uevent_pair_ok kvs ->
  uevents_of_lines (map uevent_line kvs) = Some kvs.
Proof.
  induction kvs as [|[k v] rest IH]; intros Hok; [reflexivity|].
  inversion Hok as [|x l (Hk & Hv & Hke & Hkn & Hvn & Hlen) Hrest]; subst.
  simpl in Hk, Hv, Hke, Hkn, Hvn, Hlen.
  change (map uevent_line ((k, v) :: rest))
    with ((k ++ String "=" (v ++ String newline ""))%string
          :: map uevent_line rest).
  rewrite uevents_of_lines_cons.
  rewrite strtok_first by auto.
  rewrite strtok_first by (auto; unfold is_newline; apply Ascii.eqb_refl).
  now rewrite IH.
Qed.

(** A line without [=] is taken whole as a key, no value follows, and the
    parse is abandoned. *)
Lemma uevents_line_without_equals : forall lines l,
  In l lines -> l <> EmptyString -> has_char is_equals l = false ->
  uevents_of_lines lines = None.
Proof.
  induction lines as [|s rest IH]; intros l Hin Hne Hl; [contradiction|].
  simpl. destruct Hin as [-> | Hin].
  - rewrite strtok_whole by assumption. reflexivity.
  - rewrite (IH l) by assumption.
    destruct (strtok is_equals s) as [[key after]|]; [|reflexivity].
    destruct (strtok is_newline after) as [[value rest']|]; reflexivity.
Qed.

Lemma uevent_first_recognized : forall key ue,
  In key recognized_keys ->
  uevent_first key ue = uevent_first key (filter recognized ue).
Proof.
  intros key ue Hkey; induction ue as [|[k v] rest IH]; [reflexivity|].
  simpl. unfold strcmp_eq. destruct (String.eqb k key) eqn:E.
  - apply String.eqb_eq in E. subst k.
    assert (Hr : recognized (key, v) = true).
    { unfold recognized. apply existsb_exists. exists key.
      split; [assumption | apply String.eqb_refl]. }
    rewrite Hr. simpl. unfold strcmp_eq. now rewrite String.eqb_refl.
  - destruct (recognized (k, v)); [|exact IH].
    simpl. unfold strcmp_eq. now rewrite E.
Qed.

Lemma uevent_last_recognized : forall key ue found,
  In key recognized_keys ->
  uevent_last key ue found = uevent_last key (filter recognized ue) found.
Proof.
  intros key ue found Hkey; revert found.
  induction ue as [|[k v] rest IH]; intros found; [reflexivity|].
  simpl. unfold strcmp_eq. destruct (String.eqb k key) eqn:E.
  - apply String.eqb_eq in E. subst k.
    assert (Hr : recognized (key, v) = true).
    { unfold recognized. apply existsb_exists. exists key.
      split; [assumption | apply String.eqb_refl]. }
    rewrite Hr. simpl. unfold strcmp_eq. rewrite String.eqb_refl. apply IH.
  - destruct (recognized (k, v)); [|apply IH].
    simpl. unfold strcmp_eq. rewrite E. apply IH.
Qed.

(** C8, as the code has it: every [KEY=value] line of a uevent file
    contributes its (key, value) pair, in file order; a line that contains no
    [=] is not skipped: it makes [read_sysfs_uevents] give up and return NULL,
    whatever the other lines hold; and the searches of [get_attribs] see only
    the pairs with a recognized key. *)
Theorem read_sysfs_uevents_lines :
  forall fs dname content,
    fs_read fs (dname ++ "uevent")%string = Some content ->
    (forall kvs, Forall uevent_pair_ok kvs -> content = uevent_file kvs ->
       read_sysfs_uevents fs dname = Some kvs) /\
    (forall l, In l (file_lines 4096 content) ->
       has_char is_equals l = false ->
       read_sysfs_uevents fs dname = None) /\
    (forall ue key found, In key recognized_keys ->
       uevent_first key ue = uevent_first key (filter recognized ue) /\
       uevent_last key ue found =
         uevent_last key (filter recognized ue) found).
Proof.
  intros fs dname content Hread. unfold read_sysfs_uevents. rewrite Hread.
  split; [|split].
  - intros kvs Hok ->. rewrite file_lines_uevent_file by assumption.
    now apply uevents_of_well_formed_lines.
  - intros l Hin Hl. apply (uevents_line_without_equals _ l); auto.
    revert Hin. apply fgets_rounds_nonempty. lia.
  - intros ue key found Hkey.
    split; [now apply uevent_first_recognized
           | now apply uevent_last_recognized].
Qed.

Lemma read_sysfs_uevents_lines_witness :
  read_sysfs_uevents v1_sw_tree "/sys/class/rc/rc0/input5/event3/" =
    Some [ ("MAJOR", "13"); ("MINOR", "67");
           ("DEVNAME", "input/event3") ]%string /\
  read_sysfs_uevents broken_uevent_tree "/sys/class/rc/rc0/" = None.
Proof.
  split.
  - apply (proj1 (read_sysfs_uevents_lines v1_sw_tree
                    "/sys/class/rc/rc0/input5/event3/" _ eq_refl));
      [|reflexivity].
    repeat (apply Forall_cons;
            [ unfold uevent_pair_ok; cbn [fst snd String.length];
              repeat split; try discriminate; lia | ]).
    apply Forall_nil.
  - apply (proj1 (proj2 (read_sysfs_uevents_lines broken_uevent_tree
                           "/sys/class/rc/rc0/" _ eq_refl))
             ("garbage" ++ nl)%string);
      [|reflexivity].
    vm_compute. auto.
Defined.

(** C8 as stated fails on a line without [=]: with "garbage" between two
    well-formed lines nothing is returned, not the pairs of the other two
    lines. *)
Lemma line_without_equals_fails_parse :
  fs_read broken_uevent_tree "/sys/class/rc/rc0/uevent" =
    Some ("NAME=rc-hauppauge" ++ nl ++ "garbage" ++ nl ++
          "DRV_NAME=saa7134" ++ nl)%string /\
  read_sysfs_uevents broken_uevent_tree "/sys/class/rc/rc0/" = None /\
  read_sysfs_uevents broken_uevent_tree "/sys/class/rc/rc0/" <>
    Some [ ("NAME", "rc-hauppauge"); ("DRV_NAME", "saa7134") ]%string.
Proof.
  split; [reflexivity|]. split; [reflexivity|].
  vm_compute. discriminate.
Qed.

(** ** Device discovery *)

Lemma skip_chars_app : forall a b, skip_chars (String.length a) (a ++ b) = b.
Proof.
  induction a as [|x a IH]; intros b; simpl; [|apply IH].
  destruct b; reflexivity.
Qed.

Lemma string_app_inv_tail : forall a b c : string,
  (a ++ c)%string = (b ++ c)%string -> a = b.
Proof.
  induction a as [|x a IH]; intros b c H.
  - destruct b as [|y b]; [reflexivity|].
    apply (f_equal String.length) in H. simpl in H.
    rewrite string_length_app in H. lia.
  - destruct b as [|y b].
    + apply (f_equal String.length) in H. simpl in H.
      rewrite string_length_app in H. lia.
    + simpl in H. injection H as -> H. f_equal. eauto.
Qed.

Lemma find_name_rc_path : forall name ds,
  find_name rc_class_dir (name ++ "/") (map rc_path ds) =
  if in_dec string_dec name ds then Some (rc_path name) else None.
Proof.
  intros name; induction ds as [|d rest IH]; [reflexivity|].
  cbn [map find_name]. unfold rc_path at 1.
  rewrite skip_chars_app. unfold strcmp_eq.
  destruct (String.eqb (d ++ "/") (name ++ "/")) eqn:E.
  - apply String.eqb_eq in E. apply string_app_inv_tail in E. subst d.
    destruct (in_dec string_dec name (name :: rest)) as [_ | Hn];
      [reflexivity | exfalso; apply Hn; now left].
  - rewrite IH. apply String.eqb_neq in E.
    destruct (in_dec string_dec name rest) as [Hin | Hn],
             (in_dec string_dec name (d :: rest)) as [Hin' | Hn'];
      try reflexivity.
    + exfalso. apply Hn'. now right.
    + exfalso. destruct Hin' as [-> | Hin']; [now apply E | now apply Hn].
Qed.

Lemma seek_rc_class_dir : forall fs entries,
  fs_readdir fs rc_class_dir = Some entries ->
  seek_sysfs_dir fs rc_class_dir (Some "rc"%string) =
  match rc_entries entries with
  | [] => None
  | ds => Some (map rc_path ds)
  end.
Proof.
  intros fs entries H. unfold seek_sysfs_dir, rc_entries. rewrite H.
  destruct (filter (has_prefix "rc") entries); reflexivity.
Qed.

(** C9: [find_device] lists the entries of /sys/class/rc/ whose name begins
    with "rc".  Without a name it returns that list, headed by the first such
    entry (and does not find anything when there is none); with a name it
    returns the one entry whose last path segment is exactly that name, and
    fails, after "Not found device", when no listed entry has it. *)
Theorem find_device_spec :
  forall fs entries,
    fs_readdir fs rc_class_dir = Some entries ->
    (forall first others, rc_entries entries = first :: others ->
       find_device fs None = devices (rc_path first :: map rc_path others)) /\
    (rc_entries entries = [] -> forall name,
       find_device fs name = no_devices_found) /\
    (forall name, In name (rc_entries entries) ->
       find_device fs (Some name) = devices [rc_path name]) /\
    (forall name, rc_entries entries <> [] ->
       ~ In name (rc_entries entries) ->
       find_device fs (Some name) = not_found_device name).
Proof.
  intros fs entries H. unfold find_device.
  rewrite (seek_rc_class_dir fs entries H).
  repeat split.
  - intros first others E. rewrite E. reflexivity.
  - intros E name. rewrite E. reflexivity.
  - intros name Hin.
    destruct (rc_entries entries) as [|d ds] eqn:E; [contradiction|].
    rewrite find_name_rc_path.
    destruct (in_dec string_dec name (d :: ds)); [reflexivity | contradiction].
  - intros name Hne Hin.
    destruct (rc_entries entries) as [|d ds] eqn:E; [contradiction|].
    rewrite find_name_rc_path.
    destruct (in_dec string_dec name (d :: ds)); [contradiction | reflexivity].
Qed.

Lemma find_device_spec_witness :
  find_device three_rc_tree None =
    devices ["/sys/class/rc/rc1/"; "/sys/class/rc/rc0/";
             "/sys/class/rc/rc10/"]%string /\
  find_device three_rc_tree (Some "rc0"%string) =
    devices ["/sys/class/rc/rc0/"%string] /\
  find_device three_rc_tree (Some "rc"%string) = not_found_device "rc".
Proof.
  pose proof (find_device_spec three_rc_tree _ eq_refl)
    as (H1 & _ & H3 & H4).
  split; [|split].
  - apply (H1 "rc1"%string ["rc0"; "rc10"]%string). reflexivity.
  - apply (H3 "rc0"%string). simpl. auto.
  - apply (H4 "rc"%string); [discriminate|].
    simpl. intros [H | [H | [H | []]]]; discriminate.
Defined.

(** ** Protocol negotiator: reading *)

Lemma sw_decoder_loop_frame : forall fs name pm d,
  version (sw_decoder_loop fs name pm d) = version d /\
  type (sw_decoder_loop fs name pm d) = type d /\
  current (sw_decoder_loop fs name pm d) = current d.
Proof.
  intros fs name pm; induction pm as [|pme rest IH]; intros d; simpl; auto.
  destruct (sysfs1_name pme) as [fragment|]; [|apply IH].
  destruct (strstr name fragment); [|apply IH].
  destruct (negb (v1_get_sw_enabled_protocol fs name =? 0)); simpl; auto.
Qed.

Lemma attribs_loop_sw_current : forall fs attribs d,
  (type d = SOFTWARE_DECODER -> current d = 0) ->
  type (attribs_loop fs attribs d) = SOFTWARE_DECODER ->
  current (attribs_loop fs attribs d) = 0.
Proof.
  intros fs attribs; induction attribs as [|name rest IH]; intros d Hd;
    [exact Hd|].
  cbn [attribs_loop]. apply IH.
  destruct (strstr name "/protocols").
  - destruct (v2_get_protocols fs name (supported d) (current d)).
    simpl. discriminate.
  - destruct (strstr name "/protocol"); [simpl; discriminate|].
    destruct (strstr name "/supported_protocols"); [exact Hd|].
    destruct (sw_decoder_loop_frame fs name protocol_map d) as (_ & Ht & Hc).
    rewrite Ht, Hc. exact Hd.
Qed.

(** Whatever the [enabled] files hold, a device that [get_attribs] leaves
    classified as a software decoder has an empty [current] mask. *)
Lemma get_attribs_sw_current_empty : forall fs name rc d,
  get_attribs fs name = Some (rc, d) ->
  type d = SOFTWARE_DECODER -> current d = 0.
Proof.
  intros fs name rc d H Ht. unfold get_attribs in H.
  repeat match type of H with
         | match ?x with _ => _ end = _ => destruct x eqn:?
         end;
    try discriminate;
    injection H as <- <-; try (simpl in Ht; discriminate).
  revert Ht. apply attribs_loop_sw_current. reflexivity.
Qed.

(** C1 on a device tree with an rc-5 decoder whose [enabled] file reads 1 and
    a nec decoder whose file reads 0: [get_attribs] succeeds, classifies the
    device as a V1 software decoder with both protocols supported, and leaves
    [current] empty, although rc-5 reads as enabled. *)
Theorem get_attribs_sw_enabled_lost :
  v1_get_sw_enabled_protocol v1_sw_tree "/sys/class/rc/rc0/rc5_decoder" = 1 /\
  v1_get_sw_enabled_protocol v1_sw_tree "/sys/class/rc/rc0/nec_decoder" = 0 /\
  exists d,
    get_attribs v1_sw_tree "/sys/class/rc/rc0/" = Some (0, d) /\
    version d = VERSION_1 /\ type d = SOFTWARE_DECODER /\
    supported d = Z.lor SYSFS_RC5 SYSFS_NEC /\
    current d = 0 /\
    Z.land (current d) SYSFS_RC5 = 0.
Proof.
  split; [reflexivity|]. split; [reflexivity|].
  eexists. split; [vm_compute; reflexivity|].
  repeat split.
Qed.

(** ** Protocol negotiator: writing *)

Lemma land_lnot_disjoint : forall m b c,
  Z.land b c = 0 -> Z.land (Z.land m (Z.lnot b)) c = Z.land m c.
Proof.
  intros m b c H. apply Z.bits_inj'. intros n Hn.
  assert (Hbc : Z.testbit b n && Z.testbit c n = false)
    by (rewrite <- Z.land_spec, H; apply Z.bits_0).
  rewrite !Z.land_spec, Z.lnot_spec by assumption.
  destruct (Z.testbit m n), (Z.testbit b n), (Z.testbit c n);
    simpl in *; congruence.
Qed.

Lemma names_loop_filter : forall pm m,
  disjoint_bits pm = true ->
  names_loop pm m = map pme_name (filter (bit_set m) pm).
Proof.
  induction pm as [|pme rest IH]; intros m Hd; [reflexivity|].
  simpl in Hd. apply andb_prop in Hd as [Hfrom Hd].
  simpl. unfold bit_set at 1.
  destruct (Z.land m (sysfs_protocol pme) =? 0); simpl; [now apply IH|].
  f_equal. rewrite IH by assumption. f_equal.
  apply filter_ext_in. intros e He. unfold bit_set. f_equal. f_equal.
  apply land_lnot_disjoint.
  clear - Hfrom He. induction rest as [|x rest IH]; [contradiction|].
  simpl in Hfrom. apply andb_prop in Hfrom as [Hx Hrest].
  destruct He as [<- | He]; [now apply Z.eqb_eq | auto].
Qed.

(** What [write_sysfs_protocols] prints: the catalog names of the bits set. *)
Lemma write_sysfs_protocols_mask : forall m fmt,
  write_sysfs_protocols m fmt = print_all fmt (names_of_mask m).
Proof.
  intros m fmt. rewrite write_sysfs_protocols_names.
  unfold written_names, names_of_mask.
  now rewrite names_loop_filter by reflexivity.
Qed.

Lemma set_sw_loop_writes : forall acc d pm rc,
  (forall name, fopen_w acc name = 0) ->
  snd (set_sw_loop acc d pm rc) = enabled_writes_of d (current d) pm.
Proof.
  intros acc d pm rc Hopen; revert rc.
  induction pm as [|pme rest IH]; intros rc; [reflexivity|].
  simpl. destruct (sysfs1_name pme) as [dirname|]; [|apply IH].
  destruct (Z.land (supported d) (sysfs_protocol pme) =? 0); [apply IH|].
  unfold v1_set_sw_enabled_protocol. rewrite Hopen. simpl.
  specialize (IH (to_int (rc + fclose_w acc
                    (sysfs_name d ++ dirname ++ "/enabled")))).
  destruct (set_sw_loop acc d rest _) as [rc' ws]. simpl in *.
  now rewrite IH.
Qed.

(** C3: [set_proto] writes a target mask in the encoding of the device's ABI
    generation.  V2: the device record, and with it the target mask, is left
    as it is (no intersection with [supported]); when the protocols node shows
    no write permission the call fails with EINVAL and writes nothing;
    otherwise, the node open for writing, the file gets "none" and then one
    "+name" line for each catalog protocol whose bit is set in the target.
    V1: the target is first intersected with [supported]; a software decoder
    gets "1" or "0", by the target bit, in the [enabled] node of each decoder
    it supports; any other device gets one line with the names of the target
    protocols, each followed by a space. *)
Theorem set_proto_writes :
  (forall acc d,
     version d = VERSION_2 ->
     not_writable acc (sysfs_name d ++ "/protocols") = true ->
     set_proto acc d = (EINVAL, d, [])) /\
  (forall acc d,
     version d = VERSION_2 ->
     not_writable acc (sysfs_name d ++ "/protocols") = false ->
     fopen_w acc (sysfs_name d ++ "/protocols") = 0 ->
     set_proto acc d =
       (fclose_w acc (sysfs_name d ++ "/protocols"), d,
        [((sysfs_name d ++ "/protocols")%string, v2_text (current d))])) /\
  (forall acc d,
     version d = VERSION_1 -> type d = SOFTWARE_DECODER ->
     (forall name, fopen_w acc name = 0) ->
     let target := Z.land (current d) (supported d) in
     snd (fst (set_proto acc d)) =
       set_masks d VERSION_1 SOFTWARE_DECODER (supported d) target /\
     snd (set_proto acc d) = enabled_writes d target) /\
  (forall acc d,
     version d = VERSION_1 -> type d <> SOFTWARE_DECODER ->
     fopen_w acc (sysfs_name d ++ "/protocol") = 0 ->
     let target := Z.land (current d) (supported d) in
     set_proto acc d =
       (0, set_masks d VERSION_1 (type d) (supported d) target,
        [((sysfs_name d ++ "/protocol")%string, v1_hw_text target)])).
Proof.
  split; [|split; [|split]].
  - intros acc d Hv Hnw. unfold set_proto, v2_set_protocols.
    rewrite Hv, Hnw. reflexivity.
  - intros acc d Hv Hnw Hopen. unfold set_proto, v2_set_protocols.
    rewrite Hv, Hnw, Hopen. cbn [Z.eqb negb].
    unfold v2_text, nl. now rewrite write_sysfs_protocols_mask.
  - intros acc d Hv Ht Hopen target. unfold set_proto. rewrite Hv.
    fold target. cbn [type set_masks version]. rewrite Ht.
    pose proof (set_sw_loop_writes acc
                  (set_masks d VERSION_1 SOFTWARE_DECODER (supported d) target)
                  protocol_map 0 Hopen) as Hw.
    destruct (set_sw_loop acc _ protocol_map 0) as [rc w].
    cbn [fst snd] in Hw |- *. split; [reflexivity|]. rewrite Hw. reflexivity.
  - intros acc d Hv Ht Hopen target. unfold set_proto. rewrite Hv.
    fold target. cbn [type set_masks version].
    assert (E : v1_set_hw_protocols acc
                  (set_masks d VERSION_1 (type d) (supported d) target) =
                (0, [((sysfs_name d ++ "/protocol")%string,
                      v1_hw_text target)])).
    { unfold v1_set_hw_protocols. cbn [sysfs_name current set_masks].
      rewrite Hopen. cbn [Z.eqb negb].
      unfold v1_hw_text, nl. now rewrite write_sysfs_protocols_mask. }
    destruct (type d); [| contradiction |]; now rewrite E.
Qed.

Lemma set_proto_writes_witness :
  set_proto read_only_access
      (sample_device VERSION_2 UNKNOWN_TYPE SYSFS_RC6 SYSFS_NEC) =
    (EINVAL, sample_device VERSION_2 UNKNOWN_TYPE SYSFS_RC6 SYSFS_NEC, []) /\
  set_proto writable_access
      (sample_device VERSION_2 UNKNOWN_TYPE SYSFS_RC6 SYSFS_NEC) =
    (0, sample_device VERSION_2 UNKNOWN_TYPE SYSFS_RC6 SYSFS_NEC,
     [("/sys/class/rc/rc0//protocols", "none" ++ nl ++ "+nec" ++ nl)%string]) /\
  snd (set_proto writable_access
         (sample_device VERSION_1 SOFTWARE_DECODER
            (Z.lor SYSFS_RC5 SYSFS_NEC) (Z.lor SYSFS_NEC SYSFS_SONY))) =
    [ ("/sys/class/rc/rc0//rc5_decoder/enabled", "0");
      ("/sys/class/rc/rc0//nec_decoder/enabled", "1") ]%string /\
  set_proto writable_access
      (sample_device VERSION_1 HARDWARE_DECODER
         (Z.lor SYSFS_RC5 SYSFS_NEC) (Z.lor SYSFS_NEC SYSFS_SONY)) =
    (0, sample_device VERSION_1 HARDWARE_DECODER
          (Z.lor SYSFS_RC5 SYSFS_NEC) SYSFS_NEC,
     [("/sys/class/rc/rc0//protocol", "nec " ++ nl)%string]).
Proof.
  destruct set_proto_writes as (H1 & H2 & H3 & H4).
  split; [|split; [|split]].
  - apply H1; reflexivity.
  - apply (H2 writable_access
             (sample_device VERSION_2 UNKNOWN_TYPE SYSFS_RC6 SYSFS_NEC));
      reflexivity.
  - apply (H3 writable_access
             (sample_device VERSION_1 SOFTWARE_DECODER
                (Z.lor SYSFS_RC5 SYSFS_NEC) (Z.lor SYSFS_NEC SYSFS_SONY)));
      reflexivity.
  - apply (H4 writable_access
             (sample_device VERSION_1 HARDWARE_DECODER
                (Z.lor SYSFS_RC5 SYSFS_NEC) (Z.lor SYSFS_NEC SYSFS_SONY)));
      [reflexivity | discriminate | reflexivity].
Defined.

(* ================================================================== *)
(** * Part II, continued: further properties of the code *)
(* ================================================================== *)

(** ** BPF registry *)

Lemma equivalent_request_refl : forall a, equivalent_request a a.
Proof. intros a; split; [reflexivity | intros p; reflexivity]. Qed.

Lemma equivalent_request_sym : forall a b,
  equivalent_request a b -> equivalent_request b a.
Proof.
  intros a b [Hn Hp]; split; [now symmetry | intros p; symmetry; apply Hp].
Qed.

Lemma add_bpf_protocol_cases : forall new registry,
  ((exists a, In a registry /\ equivalent_request new a) /\
   add_bpf_protocol new registry = registry) \/
  (~ (exists a, In a registry /\ equivalent_request new a) /\
   add_bpf_protocol new registry = new :: registry).
Proof.
  intros new registry. unfold add_bpf_protocol.
  destruct (bpf_known registry new) eqn:E.
  - left. split; [now apply bpf_known_spec | reflexivity].
  - right. split; [|reflexivity].
    intros H. apply bpf_known_spec in H. congruence.
Qed.

Lemma register_all_snoc : forall requests new,
  register_all (requests ++ [new]) =
  add_bpf_protocol new (register_all requests).
Proof.
  intros requests new. unfold register_all. now rewrite fold_left_app.
Qed.

(** X1: however many requests go through [add_bpf_protocol], the registry
    never holds two equivalent requests (same name, same parameter set), and
    every request made is represented in it by an equivalent one. *)
Theorem registry_never_holds_equivalent_requests :
  forall requests,
    no_equivalent_pair (register_all requests) /\
    (forall new, In new requests ->
       exists a, In a (register_all requests) /\ equivalent_request new a).
Proof.
  intros requests. induction requests as [|new requests IH] using rev_ind.
  - split; [constructor | contradiction].
  - destruct IH as [IHp IHr]. rewrite register_all_snoc.
    destruct (add_bpf_protocol_cases new (register_all requests))
      as [[Hex E] | [Hno E]]; rewrite E.
    + split; [exact IHp|].
      intros x Hx. apply in_app_or in Hx as [Hx | [<- | []]]; auto.
    + split.
      * constructor; [|exact IHp].
        apply Forall_forall. intros a Ha Heq. apply Hno.
        exists a. split; [exact Ha | exact Heq].
      * intros x Hx. apply in_app_or in Hx as [Hx | [<- | []]].
        -- destruct (IHr x Hx) as (a & Ha & Heq).
           exists a. split; [now right | exact Heq].
        -- exists new. split; [now left | apply equivalent_request_refl].
Qed.

(** ** Masks and names *)

Lemma single_bit_land : forall m b,
  single_bit b = true ->
  Z.land m b = 0 \/ Z.land m b = b.
Proof.
  intros m b H. unfold single_bit in H.
  apply orb_prop in H as [H | H].
  - apply Z.eqb_eq in H. subst. left. apply Z.land_0_r.
  - apply andb_prop in H as [Hpos Hpow].
    apply Z.ltb_lt in Hpos. apply Z.eqb_eq in Hpow.
    assert (Hk : 0 <= Z.log2 b) by apply Z.log2_nonneg.
    set (k := Z.log2 b) in *. clearbody k. subst b.
    destruct (Z.testbit m k) eqn:E.
    + right. apply Z.bits_inj'. intros n Hn.
      rewrite Z.land_spec, Z.pow2_bits_eqb by assumption.
      destruct (Z.eqb_spec k n) as [<- | _];
        [now rewrite E | apply andb_false_r].
    + left. apply Z.bits_inj'. intros n Hn.
      rewrite Z.land_spec, Z.bits_0, Z.pow2_bits_eqb by assumption.
      destruct (Z.eqb_spec k n) as [<- | _];
        [now rewrite E | apply andb_false_r].
Qed.

Lemma or_all_filter_bits : forall pm m,
  forallb (fun pme => single_bit (sysfs_protocol pme)) pm = true ->
  or_all (map sysfs_protocol (filter (bit_set m) pm)) =
  Z.land m (or_all (map sysfs_protocol pm)).
Proof.
  induction pm as [|pme rest IH]; intros m Hs.
  - simpl. now rewrite Z.land_0_r.
  - simpl in Hs. apply andb_prop in Hs as [Hb Hs].
    cbn [filter map or_all fold_right].
    fold (or_all (map sysfs_protocol rest)).
    rewrite Z.land_lor_distr_r, <- IH by assumption.
    unfold bit_set at 1.
    destruct (single_bit_land m (sysfs_protocol pme) Hb) as [E | E].
    + rewrite E. reflexivity.
    + rewrite E. destruct (Z.eqb_spec (sysfs_protocol pme) 0) as [E0 | E0].
      * rewrite E0. reflexivity.
      * simpl. reflexivity.
Qed.

Lemma catalog_name_parses : forall pme,
  In pme protocol_map ->
  parse_protocol (pme_name pme) false = sysfs_protocol pme.
Proof.
  intros pme Hin.
  pose proof (proj1 (forallb_forall _ _) catalog_ok pme Hin) as Hok.
  unfold catalog_entry_ok in Hok. apply andb_prop in Hok as [_ Hparse].
  unfold parse_protocol, parse_sysfs_protocol. cbn [andb].
  destruct (parse_loop (pme_name pme) protocol_map) as [m|]; [|discriminate].
  now apply Z.eqb_eq in Hparse.
Qed.

(** X2: printing a mask and parsing the printed names back gives the mask
    restricted to the catalog bits (bits 0 to 16): within the catalog,
    [write_sysfs_protocols] followed by [parse_sysfs_protocol] loses nothing
    and adds nothing, and bits without a catalog name are not printed. *)
Theorem mask_print_parse_roundtrip :
  forall m,
    or_all (map (fun name => parse_protocol name false) (written_names m)) =
    Z.land m catalog_bits.
Proof.
  intros m. unfold written_names.
  rewrite names_loop_filter by reflexivity.
  rewrite map_map.
  rewrite (map_ext_in (fun pme => parse_protocol (pme_name pme) false)
                      sysfs_protocol).
  - rewrite or_all_filter_bits by reflexivity. reflexivity.
  - intros pme Hin. apply filter_In in Hin as [Hin _].
    now apply catalog_name_parses.
Qed.

(** ** Reading the protocols file *)

Lemma mask_subset_lor : forall c s p (e : bool),
  mask_subset c s ->
  mask_subset (if e then Z.lor c p else c) (Z.lor s p).
Proof.
  unfold mask_subset. intros c s p e H.
  apply Z.bits_inj'. intros n Hn.
  assert (Hb : Z.testbit (Z.land c s) n = Z.testbit c n) by now rewrite H.
  rewrite Z.land_spec in Hb.
  destruct e; rewrite ?Z.land_spec, ?Z.lor_spec;
    destruct (Z.testbit c n), (Z.testbit s n), (Z.testbit p n);
    simpl in *; congruence.
Qed.

Lemma mask_subset_lor_r : forall a p, mask_subset a (Z.lor a p).
Proof.
  unfold mask_subset. intros a p. apply Z.bits_inj'. intros n Hn.
  rewrite Z.land_spec, Z.lor_spec.
  destruct (Z.testbit a n), (Z.testbit p n); reflexivity.
Qed.

Lemma mask_subset_trans : forall a b c,
  mask_subset a b -> mask_subset b c -> mask_subset a c.
Proof.
  unfold mask_subset. intros a b c Hab Hbc.
  apply Z.bits_inj'. intros n Hn.
  assert (H1 : Z.testbit (Z.land a b) n = Z.testbit a n) by now rewrite Hab.
  assert (H2 : Z.testbit (Z.land b c) n = Z.testbit b n) by now rewrite Hbc.
  rewrite Z.land_spec in *.
  destruct (Z.testbit a n), (Z.testbit b n), (Z.testbit c n);
    simpl in *; congruence.
Qed.

Lemma mask_subset_refl : forall a, mask_subset a a.
Proof. intros a. apply Z.land_diag. Qed.

Lemma v2_tokens_invariant : forall tokens sup cur,
  mask_subset cur sup ->
  let r :=
    fold_left
      (fun (sc : Z * Z) (p : string) =>
         let (enabled, p') :=
           match p with
           | String "[" r => (true, drop_last r)
           | _ => (false, p)
           end in
         let protocol := token_protocol p' in
         (Z.lor (fst sc) protocol,
          if enabled then Z.lor (snd sc) protocol else snd sc))
      tokens (sup, cur) in
  mask_subset (snd r) (fst r) /\ mask_subset sup (fst r) /\
  mask_subset cur (snd r).
Proof.
  induction tokens as [|p rest IH]; intros sup cur H; cbv zeta.
  - simpl. auto using mask_subset_refl.
  - cbn [fold_left].
    set (ep := match p with
               | String "[" r => (true, drop_last r)
               | _ => (false, p)
               end).
    destruct ep as [enabled p'].
    cbn [fst snd].
    specialize (IH (Z.lor sup (token_protocol p'))
                   (if enabled then Z.lor cur (token_protocol p') else cur)
                   (mask_subset_lor cur sup (token_protocol p') enabled H)).
    cbv zeta in IH. destruct IH as (I1 & I2 & I3).
    split; [exact I1|]. split.
    + eapply mask_subset_trans; [apply mask_subset_lor_r | exact I2].
    + eapply mask_subset_trans; [|exact I3].
      destruct enabled; [apply mask_subset_lor_r | apply mask_subset_refl].
Qed.

(** X3: [v2_get_protocols] only adds bits, and keeps the enabled protocols
    among the supported ones: if [current] is a subset of [supported] before
    the protocols file is read, it is afterwards, whatever the file holds
    (unreadable, empty, bracketed or unknown tokens). *)
Theorem v2_get_protocols_current_within_supported :
  forall fs name sup cur,
    mask_subset cur sup ->
    mask_subset (snd (v2_get_protocols fs name sup cur))
                (fst (v2_get_protocols fs name sup cur)) /\
    mask_subset sup (fst (v2_get_protocols fs name sup cur)) /\
    mask_subset cur (snd (v2_get_protocols fs name sup cur)).
Proof.
  intros fs name sup cur H. unfold v2_get_protocols.
  destruct (fs_read fs name) as [content|];
    [|cbn [fst snd]; auto using mask_subset_refl].
  destruct (fgets 4096 content) as [[buf rest]|];
    [|cbn [fst snd]; auto using mask_subset_refl].
  apply (v2_tokens_invariant _ sup cur H).
Qed.

Lemma v2_get_protocols_current_within_supported_witness :
  let fs := tree_of [] [("protocols", "nec rc-5 [rc-6] [bogus]" ++ nl)]%string in
  mask_subset (snd (v2_get_protocols fs "protocols" 0 0))
              (fst (v2_get_protocols fs "protocols" 0 0)) /\
  v2_get_protocols fs "protocols" 0 0 =
    (Z.lor (Z.lor (Z.lor SYSFS_NEC SYSFS_RC5) SYSFS_RC6) SYSFS_OTHER,
     Z.lor SYSFS_RC6 SYSFS_OTHER).
Proof.
  cbv zeta. split.
  - apply (v2_get_protocols_current_within_supported _ "protocols"%string 0 0).
    reflexivity.
  - vm_compute. reflexivity.
Defined.

(** ** Device attributes *)

Lemma sw_decoder_loop_names : forall fs name pm d,
  sysfs_name (sw_decoder_loop fs name pm d) = sysfs_name d /\
  input_name (sw_decoder_loop fs name pm d) = input_name d.
Proof.
  intros fs name pm; induction pm as [|pme rest IH]; intros d; simpl; auto.
  destruct (sysfs1_name pme) as [fragment|]; [|apply IH].
  destruct (strstr name fragment); [|apply IH].
  destruct (negb (v1_get_sw_enabled_protocol fs name =? 0)); simpl; auto.
Qed.

Lemma attribs_loop_names : forall fs attribs d,
  sysfs_name (attribs_loop fs attribs d) = sysfs_name d /\
  input_name (attribs_loop fs attribs d) = input_name d.
Proof.
  intros fs attribs; induction attribs as [|name rest IH]; intros d;
    [simpl; auto|].
  cbn [attribs_loop].
  match goal with
  | |- sysfs_name (attribs_loop fs rest ?x) = _ /\ _ =>
    destruct (IH x) as [E1 E2]; rewrite E1, E2
  end.
  destruct (strstr name "/protocols").
  - destruct (v2_get_protocols fs name (supported d) (current d)).
    simpl; auto.
  - destruct (strstr name "/protocol"); [simpl; auto|].
    destruct (strstr name "/supported_protocols"); [simpl; auto|].
    apply sw_decoder_loop_names.
Qed.

(** X4: [get_attribs] returns 0 or EINVAL, and 0 only for a device directory
    with exactly one [input*] node, exactly one [event*] node below it, and a
    readable uevent file there with a [DEVNAME]; the input device of the
    record is then /dev/ followed by that value. *)
Theorem get_attribs_success :
  forall fs name rc d,
    get_attribs fs name = Some (rc, d) ->
    (rc = 0 \/ rc = EINVAL) /\
    sysfs_name d = name /\
    (rc = 0 ->
     exists input_node event_node ue v,
       seek_sysfs_dir fs name (Some "input"%string) = Some [input_node] /\
       seek_sysfs_dir fs input_node (Some "event"%string) = Some [event_node] /\
       read_sysfs_uevents fs event_node = Some ue /\
       uevent_first "DEVNAME" ue = Some v /\
       input_name d = Some (dev_path v)).
Proof.
  intros fs name rc d H. unfold get_attribs in H.
  destruct (seek_sysfs_dir fs name (Some "input"%string))
    as [[|input_node [|]]|] eqn:Ei;
    try (injection H as <- <-; split; [now right|];
         split; [reflexivity | discriminate]).
  destruct (seek_sysfs_dir fs input_node (Some "event"%string))
    as [[|event_node [|]]|] eqn:Ee;
    try (injection H as <- <-; split; [now right|];
         split; [reflexivity | discriminate]).
  destruct (read_sysfs_uevents fs event_node) as [ue|] eqn:Eu;
    try (injection H as <- <-; split; [now right|];
         split; [reflexivity | discriminate]).
  destruct (uevent_first "DEVNAME" ue) as [v|] eqn:Ev;
    try (injection H as <- <-; split; [now right|];
         split; [reflexivity | discriminate]).
  destruct (read_sysfs_uevents fs name) as [ue2|];
    try (injection H as <- <-; split; [now right|];
         split; [reflexivity | discriminate]).
  destruct (seek_sysfs_dir fs name None) as [attribs|]; [|discriminate].
  injection H as <- <-.
  match goal with
  | |- _ /\ sysfs_name (attribs_loop fs attribs ?x) = _ /\ _ =>
    destruct (attribs_loop_names fs attribs x) as [E1 E2]
  end.
  cbn [sysfs_name input_name] in E1, E2.
  split; [now left|]. split; [exact E1|].
  intros _. exists input_node, event_node, ue, v.
  repeat (split; [first [assumption | reflexivity]|]). exact E2.
Qed.

Lemma get_attribs_success_witness :
  exists d,
    get_attribs v1_sw_tree "/sys/class/rc/rc0/" = Some (0, d) /\
    sysfs_name d = "/sys/class/rc/rc0/"%string /\
    input_name d = Some "/dev/input/event3"%string.
Proof.
  assert (E : exists d, get_attribs v1_sw_tree "/sys/class/rc/rc0/" =
                        Some (0, d))
    by (eexists; vm_compute; reflexivity).
  destruct E as [d E]. exists d. split; [exact E|].
  destruct (get_attribs_success v1_sw_tree _ 0 d E)
    as (_ & Hn & Hs).
  split; [exact Hn|].
  destruct (Hs eq_refl) as (i & e & ue & v & Hi & He & Hu & Hv & Hd).
  rewrite Hd. f_equal.
  assert (Ei : i = "/sys/class/rc/rc0/input5/"%string)
    by (vm_compute in Hi; congruence).
  subst i.
  assert (Ee : e = "/sys/class/rc/rc0/input5/event3/"%string)
    by (vm_compute in He; congruence).
  subst e.
  assert (Eu : ue = [("MAJOR", "13"); ("MINOR", "67");
                     ("DEVNAME", "input/event3")]%string)
    by (vm_compute in Hu; congruence).
  subst ue. vm_compute in Hv. injection Hv as <-. reflexivity.
Defined.

Lemma attribs_loop_sw_version : forall fs attribs d,
  (type d = SOFTWARE_DECODER -> version d = VERSION_1) ->
  type (attribs_loop fs attribs d) = SOFTWARE_DECODER ->
  version (attribs_loop fs attribs d) = VERSION_1.
Proof.
  intros fs attribs; induction attribs as [|name rest IH]; intros d Hd;
    [exact Hd|].
  cbn [attribs_loop]. apply IH.
  destruct (strstr name "/protocols").
  - destruct (v2_get_protocols fs name (supported d) (current d)).
    simpl. discriminate.
  - destruct (strstr name "/protocol"); [simpl; discriminate|].
    destruct (strstr name "/supported_protocols"); [reflexivity|].
    destruct (sw_decoder_loop_frame fs name protocol_map d) as (Hv & Ht & _).
    rewrite Ht, Hv. exact Hd.
Qed.

(** X20: every device that [get_attribs] leaves classified as a software
    decoder is a V1 device with an empty [current] mask, whatever its
    [enabled] files hold: the software-decoder branch writes to [supported]
    only, and the branches that set [current] also change the type. *)
Theorem software_decoder_current_always_empty :
  forall fs name rc d,
    get_attribs fs name = Some (rc, d) ->
    type d = SOFTWARE_DECODER ->
    rc = 0 /\ version d = VERSION_1 /\ current d = 0.
Proof.
  intros fs name rc d H Ht.
  pose proof (get_attribs_sw_current_empty fs name rc d H Ht) as Hc.
  unfold get_attribs in H.
  repeat match type of H with
         | match ?x with _ => _ end = _ => destruct x eqn:?
         end;
    try discriminate;
    injection H as <- <-; try (simpl in Ht; discriminate).
  split; [reflexivity|]. split; [|exact Hc].
  revert Ht. apply attribs_loop_sw_version. reflexivity.
Qed.

Lemma software_decoder_current_always_empty_witness :
  exists d,
    get_attribs v1_sw_tree "/sys/class/rc/rc0/" = Some (0, d) /\
    type d = SOFTWARE_DECODER /\ version d = VERSION_1 /\ current d = 0.
Proof.
  assert (E : exists d, get_attribs v1_sw_tree "/sys/class/rc/rc0/" =
                        Some (0, d) /\ type d = SOFTWARE_DECODER)
    by (eexists; split; vm_compute; reflexivity).
  destruct E as (d & E & Ht). exists d.
  split; [exact E|]. split; [exact Ht|].
  exact (proj2 (software_decoder_current_always_empty v1_sw_tree _ 0 d E Ht)).
Defined.

(** ** Keytable store, continued *)

Section KeytableMore.

Variable key_events : list (string * Z).

Lemma scancode_loop_suffix : forall fname ses g,
  let g' := fst (scancode_loop key_events fname ses g) in
  (exists new, keytable g' = new ++ keytable g) /\
  rawtable g' = rawtable g /\ raw_scancode g' = raw_scancode g /\
  bpf_protocols g' = bpf_protocols g /\ ch_proto g' = ch_proto g /\
  input_protocol_version g' = input_protocol_version g.
Proof.
  intros fname ses; induction ses as [|se rest IH]; intros g; cbv zeta.
  - simpl. split; [now exists []|]. auto.
  - simpl. destruct (keycode_value key_events (errno g) (se_keycode se))
      as [[value|] e].
    + specialize (IH (push_key (set_errno g e)
                        (mk_ke (se_scancode se) (to_u32 value)))).
      cbv zeta in IH. destruct IH as ([new Hn] & I2 & I3 & I4 & I5 & I6).
      simpl in *. split; [|auto].
      exists (new ++ [mk_ke (se_scancode se) (to_u32 value)]).
      rewrite Hn, <- app_assoc. reflexivity.
    + specialize (IH (set_errno g e)). cbv zeta in IH.
      destruct (scancode_loop key_events fname rest (set_errno g e))
        as [g1 log1]. simpl in *. exact IH.
Qed.

Lemma raw_loop_suffix : forall fname res g,
  let g' := fst (raw_loop key_events fname res g) in
  (exists new, keytable g' = new ++ keytable g) /\
  (exists new, rawtable g' = new ++ rawtable g) /\
  bpf_protocols g' = bpf_protocols g /\ ch_proto g' = ch_proto g /\
  input_protocol_version g' = input_protocol_version g.
Proof.
  intros fname res; induction res as [|re rest IH]; intros g; cbv zeta.
  - simpl. split; [now exists []|]. split; [now exists []|]. auto.
  - simpl. destruct (keycode_value key_events (errno g) (re_keycode re))
      as [[value|] e].
    + match goal with
      | |- context [raw_loop key_events fname rest ?x] =>
        specialize (IH x)
      end.
      cbv zeta in IH.
      destruct IH as ([new Hn] & [new2 Hn2] & I4 & I5 & I6).
      cbn [push_raw push_key set_errno keytable rawtable bpf_protocols
           ch_proto input_protocol_version raw_scancode] in *.
      split; [|split; [|auto]].
      * eexists (new ++ [_]). rewrite Hn, <- app_assoc. reflexivity.
      * eexists (new2 ++ [_]). rewrite Hn2, <- app_assoc. reflexivity.
    + specialize (IH (set_errno g e)). cbv zeta in IH.
      destruct (raw_loop key_events fname rest (set_errno g e))
        as [g1 log1]. simpl in *. exact IH.
Qed.

Lemma note_protocol_suffix : forall map g,
  keytable (note_protocol map g) = keytable g /\
  rawtable (note_protocol map g) = rawtable g /\
  (exists new, bpf_protocols (note_protocol map g) = new ++ bpf_protocols g) /\
  mask_subset (ch_proto g) (ch_proto (note_protocol map g)) /\
  input_protocol_version (note_protocol map g) = input_protocol_version g.
Proof.
  intros map g. unfold note_protocol.
  destruct (parse_protocol (km_protocol map) false =? SYSFS_INVALID).
  - destruct (negb (strcmp_eq (km_protocol map) "none")); cbn.
    + repeat split; auto using mask_subset_refl.
      destruct (add_bpf_protocol_cases
                  (mk_bpf (km_protocol map) (km_param map))
                  (bpf_protocols g)) as [[_ E] | [_ E]]; rewrite E.
      * now exists [].
      * now eexists [_].
    + repeat split; auto using mask_subset_refl. now exists [].
  - cbn. repeat split; auto using mask_subset_lor_r. now exists [].
Qed.

(** X5: merging a keymap only accumulates: the bindings, raw entries and BPF
    requests held before [add_keymap] are all still there afterwards, in the
    same order, below what the keymap added; no bit of [ch_proto] is cleared,
    and the detected evdev version is untouched. *)
Theorem add_keymap_accumulates :
  forall maps fname g,
    let g' := fst (add_keymap key_events maps fname g) in
    (exists new, keytable g' = new ++ keytable g) /\
    (exists new, rawtable g' = new ++ rawtable g) /\
    (exists new, bpf_protocols g' = new ++ bpf_protocols g) /\
    mask_subset (ch_proto g) (ch_proto g') /\
    input_protocol_version g' = input_protocol_version g.
Proof.
  induction maps as [|map rest IH]; intros fname g; cbv zeta.
  - simpl. repeat split; try (now exists []); auto using mask_subset_refl.
  - cbn [add_keymap].
    destruct (note_protocol_suffix map g) as (N1 & N2 & [nb Nb] & N4 & N5).
    pose proof (scancode_loop_suffix fname (km_scancode map)
                  (note_protocol map g)) as S.
    cbv zeta in S.
    destruct (scancode_loop key_events fname (km_scancode map)
                (note_protocol map g)) as [g2 log2].
    cbn [fst] in S. destruct S as ([sk Sk] & S2 & S3 & S4 & S5 & S6).
    pose proof (raw_loop_suffix fname (km_raw map) g2) as R.
    cbv zeta in R.
    destruct (raw_loop key_events fname (km_raw map) g2) as [g3 log3].
    cbn [fst] in R. destruct R as ([rk Rk] & [rr Rr] & R3 & R4 & R5).
    specialize (IH fname g3). cbv zeta in IH.
    destruct (add_keymap key_events rest fname g3) as [g4 log4].
    cbn [fst] in IH |- *.
    destruct IH as ([ak Ak] & [ar Ar] & [ab Ab] & A4 & A5).
    split; [|split; [|split; [|split]]].
    + exists (ak ++ rk ++ sk). rewrite Ak, Rk, Sk, N1, !app_assoc. reflexivity.
    + exists (ar ++ rr). rewrite Ar, Rr, S2, N2, !app_assoc. reflexivity.
    + exists (ab ++ nb). rewrite Ab, R3, S4, Nb, !app_assoc. reflexivity.
    + eapply mask_subset_trans; [exact N4|]. rewrite <- S5, <- R4. exact A4.
    + congruence.
Qed.

End KeytableMore.

Section StaleErrno.

Variable key_events : list (string * Z).

Lemma keycode_value_stale : forall e keycode,
  e <> 0 -> parse_code key_events keycode = -1 ->
  exists e', keycode_value key_events e keycode = (None, e') /\ e' <> 0.
Proof.
  intros e keycode He Hp. unfold keycode_value. rewrite Hp.
  change (-1 =? -1) with true. cbv iota.
  destruct (strtol0 keycode) as [[v p] erange].
  destruct erange.
  - exists ERANGE. split; [reflexivity | discriminate].
  - exists e. split; [|exact He].
    destruct (Z.eqb_spec e 0); [contradiction | reflexivity].
Qed.

Lemma scancode_loop_stale : forall fname ses g,
  errno g <> 0 ->
  (forall se, In se ses -> parse_code key_events (se_keycode se) = -1) ->
  exists g' log,
    scancode_loop key_events fname ses g = (g', log) /\
    keytable g' = keytable g /\ rawtable g' = rawtable g /\
    raw_scancode g' = raw_scancode g /\ errno g' <> 0 /\
    List.length log = List.length ses.
Proof.
  intros fname ses; induction ses as [|se rest IH]; intros g He Hnum.
  - exists g, []. simpl. auto 10.
  - destruct (keycode_value_stale (errno g) (se_keycode se) He)
      as (e' & Ek & He'); [apply Hnum; now left|].
    destruct (IH (set_errno g e')) as (g' & log & E & I1 & I2 & I3 & I4 & I5);
      [exact He' | intros x Hx; apply Hnum; now right|].
    simpl. rewrite Ek, E. eexists; eexists. split; [reflexivity|].
    simpl in *. auto 10.
Qed.

Lemma raw_loop_stale : forall fname res g,
  errno g <> 0 ->
  (forall re, In re res -> parse_code key_events (re_keycode re) = -1) ->
  exists g' log,
    raw_loop key_events fname res g = (g', log) /\
    keytable g' = keytable g /\ rawtable g' = rawtable g /\
    raw_scancode g' = raw_scancode g /\ errno g' <> 0 /\
    List.length log = List.length res.
Proof.
  intros fname res; induction res as [|re rest IH]; intros g He Hnum.
  - exists g, []. simpl. auto 10.
  - destruct (keycode_value_stale (errno g) (re_keycode re) He)
      as (e' & Ek & He'); [apply Hnum; now left|].
    destruct (IH (set_errno g e')) as (g' & log & E & I1 & I2 & I3 & I4 & I5);
      [exact He' | intros x Hx; apply Hnum; now right|].
    simpl. rewrite Ek, E. eexists; eexists. split; [reflexivity|].
    simpl in *. auto 10.
Qed.

(** X6: [add_keymap] tests [errno] after [strtol] without clearing it first.
    When [errno] is already set on entry, every keycode given as a number
    (not a key name) is rejected: no binding and no raw entry is added, the
    counter does not move, and each entry gets its diagnostic. *)
Theorem stale_errno_rejects_numeric_keycodes :
  forall maps fname g,
    errno g <> 0 ->
    numeric_keycodes key_events maps ->
    keytable (fst (add_keymap key_events maps fname g)) = keytable g /\
    rawtable (fst (add_keymap key_events maps fname g)) = rawtable g /\
    raw_scancode (fst (add_keymap key_events maps fname g)) = raw_scancode g /\
    List.length (snd (add_keymap key_events maps fname g)) = entry_count maps.
Proof.
  intros maps fname g He Hnum.
  assert (H : exists g' log,
             add_keymap key_events maps fname g = (g', log) /\
             keytable g' = keytable g /\ rawtable g' = rawtable g /\
             raw_scancode g' = raw_scancode g /\
             List.length log = entry_count maps).
  { revert g He. induction maps as [|map rest IH]; intros g He.
    - exists g, []. simpl. auto 10.
    - destruct (Hnum map (or_introl eq_refl)) as [Hs Hr].
      destruct (note_protocol_frame map g) as (N1 & N2 & N3).
      destruct (scancode_loop_stale fname (km_scancode map)
                  (note_protocol map g))
        as (g2 & log2 & E2 & S1 & S2 & S3 & S4 & S5);
        [now rewrite note_protocol_errno | exact Hs |].
      destruct (raw_loop_stale fname (km_raw map) g2)
        as (g3 & log3 & E3 & R1 & R2 & R3 & R4 & R5);
        [exact S4 | exact Hr |].
      destruct (IH (fun m Hm => Hnum m (or_intror Hm)) g3 R4)
        as (g4 & log4 & E4 & A1 & A2 & A3 & A5).
      exists g4, (log2 ++ log3 ++ log4).
      cbn [add_keymap]. rewrite E2, E3, E4.
      split; [reflexivity|].
      repeat split; try congruence.
      rewrite !length_app, S5, R5, A5. unfold entry_count, raw_entries.
      cbn [flat_map]. rewrite !length_app. lia. }
  destruct H as (g' & log & E & H1 & H2 & H3 & H4).
  rewrite E. auto.
Qed.

End StaleErrno.

Lemma stale_errno_rejects_numeric_keycodes_witness :
  let g := set_errno initial_globals ERANGE in
  let maps := [mk_keymap "nec" [] [mk_se 2 "0x74"; mk_se 3 "116"]
                 [mk_re 0 "0x160" [560; 560]]] in
  keytable (fst (add_keymap sample_key_events maps "a.toml" g)) = [] /\
  rawtable (fst (add_keymap sample_key_events maps "a.toml" g)) = [] /\
  raw_scancode (fst (add_keymap sample_key_events maps "a.toml" g)) = 0 /\
  List.length (snd (add_keymap sample_key_events maps "a.toml" g)) = 3%nat.
Proof.
  cbv zeta.
  apply (stale_errno_rejects_numeric_keycodes sample_key_events).
  - vm_compute. discriminate.
  - intros map [<- | []]. split.
    + intros se [<- | [<- | []]]; vm_compute; reflexivity.
    + intros re [<- | []]; vm_compute; reflexivity.
Defined.

(** ** The name comparator *)

(** X7: against a second argument that is a proper C string and does not end
    in a separator (every catalog name is one), [protocol_like] never reads
    past the end of either string, whatever the first argument is. *)
Theorem protocol_like_stays_in_bounds :
  forall a b,
    no_trailing_sep b = true ->
    exists r, protocol_like a b = Some r.
Proof.
  intros a b Hb.
  destruct (protocol_like a b) as [r|] eqn:E; [now exists r|].
  exfalso. revert E.
  now apply (protocol_like_defined_len (String.length a)).
Qed.

Lemma protocol_like_stays_in_bounds_witness :
  (exists r, protocol_like "rc-5-" "rc-5" = Some r) /\
  no_trailing_sep "rc-5_" = false /\
  protocol_like "rc-5-" "rc-5_" = None.
Proof.
  split; [|split; vm_compute; reflexivity].
  apply protocol_like_stays_in_bounds. reflexivity.
Defined.

Lemma string_eqb_sym : forall a b : string, String.eqb a b = String.eqb b a.
Proof.
  intros a b. destruct (String.eqb_spec a b) as [-> | Hne].
  - now rewrite String.eqb_refl.
  - symmetry. apply String.eqb_neq. congruence.
Qed.

(** X8: on names in which every separator is followed by a character that is
    not one, [protocol_like] is exactly equality after removing the
    separators and lowering the case, and so does not depend on the order of
    its arguments. *)
Theorem protocol_like_is_normal_form_equality :
  forall a b,
    well_separated a = true -> well_separated b = true ->
    protocol_like a b = Some (String.eqb (norm a) (norm b)) /\
    protocol_like b a = protocol_like a b.
Proof.
  intros a b Ha Hb.
  rewrite (protocol_like_norm a b), (protocol_like_norm b a) by assumption.
  split; [reflexivity|]. now rewrite string_eqb_sym.
Qed.

Lemma protocol_like_is_normal_form_equality_witness :
  protocol_like "MCE-Kbd" "mce_kbd" = Some true /\
  protocol_like "mce_kbd" "MCE-Kbd" = protocol_like "MCE-Kbd" "mce_kbd".
Proof.
  exact (protocol_like_is_normal_form_equality "MCE-Kbd" "mce_kbd"
           eq_refl eq_refl).
Defined.

(** ** Changing the protocol *)

Lemma load_bpf_closed_form : forall protocols sup registry,
  load_bpf_for_unsupported protocols sup registry =
  if Z.testbit protocols 16 && negb (Z.testbit sup 16)
  then (Z.clearbit protocols 16,
        add_bpf_protocol (mk_bpf "xbox-dvd" []) registry)
  else (protocols, registry).
Proof.
  intros protocols sup registry.
  unfold load_bpf_for_unsupported, protocol_map.
  repeat (rewrite load_bpf_loop_skip by reflexivity).
  rewrite load_bpf_loop_last.
  unfold SYSFS_XBOX_DVD. rewrite !land_pow2_testbit by lia.
  rewrite negb_involutive.
  destruct (Z.testbit protocols 16), (Z.testbit sup 16); reflexivity.
Qed.

Lemma land_clearbit_unsupported : forall p s k,
  0 <= k -> Z.testbit s k = false ->
  Z.land (Z.clearbit p k) s = Z.land p s.
Proof.
  intros p s k Hk Hs. apply Z.bits_inj'. intros n Hn.
  rewrite !Z.land_spec.
  destruct (Z.eqb_spec k n) as [<- | Hne].
  - rewrite Hs, !andb_false_r. reflexivity.
  - now rewrite Z.clearbit_neq.
Qed.

Lemma set_proto_v1_current : forall acc d,
  version d = VERSION_1 ->
  current (snd (fst (set_proto acc d))) = Z.land (current d) (supported d).
Proof.
  intros acc d Hv. unfold set_proto. rewrite Hv.
  cbn [type set_masks].
  destruct (type d).
  - destruct (v1_set_hw_protocols acc _). reflexivity.
  - destruct (set_sw_loop acc _ protocol_map 0). reflexivity.
  - destruct (v1_set_hw_protocols acc _). reflexivity.
Qed.

(** X9: when [main] takes its protocol change step (a protocol or a BPF
    request was given) on a V1 device, [rc_dev.current] ends as
    [ch_proto & supported], whether or not [load_bpf_for_unsupported] took
    the xbox-dvd bit out on the way, since an unsupported bit is dropped by
    [set_proto] in any case; when no protocol and no BPF request was given,
    the step writes nothing and leaves the record as it was. *)
Theorem change_protocol_v1_target :
  forall acc g d,
    version d = VERSION_1 ->
    (ch_proto g <> 0 \/ bpf_protocols g <> [] ->
     current (snd (fst (fst (change_protocol acc g d)))) =
     Z.land (ch_proto g) (supported d)) /\
    (ch_proto g = 0 -> bpf_protocols g = [] ->
     change_protocol acc g d = (None, d, [], [])).
Proof.
  intros acc g d Hv. split.
  - intros Hg. unfold change_protocol.
    assert (Hguard : negb (ch_proto g =? 0) ||
                     match bpf_protocols g with
                     | [] => false | _ :: _ => true end = true).
    { destruct Hg as [Hp | Hb].
      - destruct (Z.eqb_spec (ch_proto g) 0); [contradiction|reflexivity].
      - destruct (bpf_protocols g); [contradiction|apply orb_true_r]. }
    rewrite Hguard.
    rewrite load_bpf_closed_form.
    set (c := Z.testbit (ch_proto g) 16 && negb (Z.testbit (supported d) 16)).
    assert (Hc : Z.land (if c then Z.clearbit (ch_proto g) 16 else ch_proto g)
                        (supported d) = Z.land (ch_proto g) (supported d)).
    { unfold c. destruct (Z.testbit (ch_proto g) 16); [|reflexivity].
      destruct (Z.testbit (supported d) 16) eqn:Es; [reflexivity|].
      cbn [andb negb]. now apply land_clearbit_unsupported. }
    destruct c; cbv iota beta;
      match goal with
      | |- context [set_proto acc ?x] =>
        pose proof (set_proto_v1_current acc x Hv) as Hs;
        destruct (set_proto acc x) as [[rc d2] w]
      end;
      cbn [fst snd current supported set_masks] in Hs |- *;
      rewrite Hs; exact Hc.
  - intros Hp Hb. unfold change_protocol. rewrite Hp, Hb. reflexivity.
Qed.

Lemma change_protocol_v1_target_witness :
  current (snd (fst (fst
    (change_protocol writable_access
       (or_ch_proto initial_globals (Z.lor SYSFS_XBOX_DVD SYSFS_NEC))
       (sample_device VERSION_1 HARDWARE_DECODER
          (Z.lor SYSFS_RC5 SYSFS_NEC) 0))))) =
  Z.land (ch_proto (or_ch_proto initial_globals
                      (Z.lor SYSFS_XBOX_DVD SYSFS_NEC)))
         (supported (sample_device VERSION_1 HARDWARE_DECODER
                       (Z.lor SYSFS_RC5 SYSFS_NEC) 0)) /\
  change_protocol writable_access initial_globals
    (sample_device VERSION_1 HARDWARE_DECODER (Z.lor SYSFS_RC5 SYSFS_NEC) 0) =
  (None,
   sample_device VERSION_1 HARDWARE_DECODER (Z.lor SYSFS_RC5 SYSFS_NEC) 0,
   [], []).
Proof.
  split.
  - refine (proj1 (change_protocol_v1_target _ _ _ _) _);
      [reflexivity | left; vm_compute; discriminate].
  - refine (proj2 (change_protocol_v1_target _ _ _ _) _ _); reflexivity.
Defined.

(** ** Masks read from sysfs *)

Lemma mask_subset_lor_both : forall a b c,
  mask_subset a c -> mask_subset b c -> mask_subset (Z.lor a b) c.
Proof.
  unfold mask_subset. intros a b c Ha Hb.
  rewrite Z.land_lor_distr_l, Ha, Hb. reflexivity.
Qed.

Lemma catalog_bits_cover :
  forallb (fun pme => Z.land (sysfs_protocol pme) catalog_bits
                      =? sysfs_protocol pme) protocol_map = true.
Proof. vm_compute. reflexivity. Qed.

Lemma token_protocol_in_catalog : forall p,
  mask_subset (token_protocol p) catalog_bits.
Proof.
  intros p. unfold token_protocol, parse_protocol, parse_sysfs_protocol.
  cbn [andb].
  destruct (parse_loop_defined p protocol_map) as (m & Hm & Hin);
    [reflexivity|].
  rewrite Hm. destruct Hin as [-> | Hin]; [reflexivity|].
  destruct (m =? SYSFS_INVALID); [reflexivity|].
  apply in_map_iff in Hin as (pme & <- & Hin).
  pose proof (proj1 (forallb_forall _ _) catalog_bits_cover pme Hin) as H.
  now apply Z.eqb_eq in H.
Qed.

Lemma v1_get_hw_protocols_in_catalog : forall fs name,
  mask_subset (v1_get_hw_protocols fs name) catalog_bits.
Proof.
  intros fs name. unfold v1_get_hw_protocols.
  destruct (fs_read fs name) as [content|]; [|reflexivity].
  destruct (fgets 4096 content) as [[buf rest]|]; [|reflexivity].
  assert (H : forall tokens acc, mask_subset acc catalog_bits ->
            mask_subset
              (fold_left (fun protocols p => Z.lor protocols (token_protocol p))
                         tokens acc) catalog_bits).
  { induction tokens as [|p tokens IH]; intros acc Hacc; [exact Hacc|].
    simpl. apply IH. apply mask_subset_lor_both;
      [exact Hacc | apply token_protocol_in_catalog]. }
  apply H. reflexivity.
Qed.

Lemma v2_get_protocols_in_catalog : forall fs name sup cur,
  mask_subset sup catalog_bits -> mask_subset cur catalog_bits ->
  mask_subset (fst (v2_get_protocols fs name sup cur)) catalog_bits /\
  mask_subset (snd (v2_get_protocols fs name sup cur)) catalog_bits.
Proof.
  intros fs name sup cur Hs Hc. unfold v2_get_protocols.
  destruct (fs_read fs name) as [content|]; [|auto].
  destruct (fgets 4096 content) as [[buf rest]|]; [|auto].
  generalize (strtok_all is_blank_or_newline buf). intros tokens.
  revert sup cur Hs Hc.
  induction tokens as [|p tokens IH]; intros sup cur Hs Hc; [auto|].
  cbn [fold_left]. cbn [fst snd].
  destruct (match p with
            | String "[" r => (true, drop_last r)
            | _ => (false, p)
            end) as [enabled p'].
  apply IH.
  - apply mask_subset_lor_both; [exact Hs | apply token_protocol_in_catalog].
  - destruct enabled; [|exact Hc].
    apply mask_subset_lor_both; [exact Hc | apply token_protocol_in_catalog].
Qed.

Lemma sw_decoder_loop_in_catalog : forall fs name pm d,
  (forall pme, In pme pm -> mask_subset (sysfs_protocol pme) catalog_bits) ->
  mask_subset (supported d) catalog_bits ->
  mask_subset (current d) catalog_bits ->
  mask_subset (supported (sw_decoder_loop fs name pm d)) catalog_bits /\
  mask_subset (current (sw_decoder_loop fs name pm d)) catalog_bits.
Proof.
  intros fs name pm; induction pm as [|pme rest IH]; intros d Hpm Hs Hc;
    [simpl; auto|].
  assert (Hb : mask_subset (sysfs_protocol pme) catalog_bits)
    by (apply Hpm; now left).
  assert (Hrest : forall x, In x rest ->
                            mask_subset (sysfs_protocol x) catalog_bits)
    by (intros x Hx; apply Hpm; now right).
  simpl. destruct (sysfs1_name pme) as [fragment|]; [|now apply IH].
  destruct (strstr name fragment); [|now apply IH].
  destruct (negb (v1_get_sw_enabled_protocol fs name =? 0)); simpl;
    split; auto using mask_subset_lor_both.
Qed.

Lemma attribs_loop_in_catalog : forall fs attribs d,
  mask_subset (supported d) catalog_bits ->
  mask_subset (current d) catalog_bits ->
  mask_subset (supported (attribs_loop fs attribs d)) catalog_bits /\
  mask_subset (current (attribs_loop fs attribs d)) catalog_bits.
Proof.
  intros fs attribs; induction attribs as [|name rest IH]; intros d Hs Hc;
    [simpl; auto|].
  cbn [attribs_loop].
  destruct (strstr name "/protocols").
  - destruct (v2_get_protocols_in_catalog fs name _ _ Hs Hc) as [H1 H2].
    destruct (v2_get_protocols fs name (supported d) (current d)).
    apply IH; assumption.
  - destruct (strstr name "/protocol").
    + apply IH; [exact Hs | apply v1_get_hw_protocols_in_catalog].
    + destruct (strstr name "/supported_protocols").
      * apply IH; [apply v1_get_hw_protocols_in_catalog | exact Hc].
      * destruct (sw_decoder_loop_in_catalog fs name protocol_map d)
          as [H1 H2]; auto.
        intros pme Hin.
        pose proof (proj1 (forallb_forall _ _) catalog_bits_cover pme Hin)
          as H.
        now apply Z.eqb_eq in H.
Qed.

(** X10: whatever the sysfs files hold, the masks [get_attribs] leaves in
    the device record carry catalog bits only (bits 0 to 16): a token that
    names no catalog protocol counts as "other" and never sets another
    bit. *)
Theorem get_attribs_masks_in_catalog :
  forall fs name,
    match get_attribs fs name with
    | Some (_, d) =>
      mask_subset (supported d) catalog_bits /\
      mask_subset (current d) catalog_bits
    | None => True
    end.
Proof.
  intros fs name. unfold get_attribs.
  repeat match goal with
         | |- match (match ?x with _ => _ end) with _ => _ end =>
           destruct x
         end;
    try (split; reflexivity); try exact I.
  apply attribs_loop_in_catalog; reflexivity.
Qed.

(** ** The -p option *)

Lemma fold_protocol_token : forall tokens g,
  let g' := fold_left protocol_token tokens g in
  bpf_protocols g' =
    rev (map (fun p => mk_bpf p []) (bpf_tokens tokens)) ++ bpf_protocols g /\
  ch_proto g' =
    Z.lor (ch_proto g)
          (or_all (map (fun p => parse_protocol p true) tokens)) /\
  keytable g' = keytable g /\ rawtable g' = rawtable g /\
  raw_scancode g' = raw_scancode g.
Proof.
  induction tokens as [|p rest IH]; intros g; cbv zeta.
  - simpl. rewrite Z.lor_0_r. auto.
  - cbn [fold_left]. specialize (IH (protocol_token g p)). cbv zeta in IH.
    destruct IH as (I1 & I2 & I3 & I4 & I5).
    rewrite I1, I2, I3, I4, I5. unfold protocol_token, bpf_tokens.
    cbn [filter map or_all fold_right].
    fold (or_all (map (fun p => parse_protocol p true) rest)).
    destruct (Z.eqb_spec (parse_protocol p true) SYSFS_INVALID) as [E | E].
    + rewrite E. cbn [map rev bpf_protocols set_bpf_protocols ch_proto
                      keytable rawtable raw_scancode].
      rewrite <- app_assoc. repeat split.
    + cbn [bpf_protocols or_ch_proto ch_proto keytable rawtable raw_scancode].
      rewrite Z.lor_assoc. repeat split.
Qed.

(** X11: the [-p] option does not deduplicate.  Every token of the argument
    that names no kernel protocol - an unknown name, or one of the zero-bit
    catalog names such as rc-5x - becomes a BPF request of its own without
    parameters, the last token on top, even when the same name was given
    before; the tokens that name kernel protocols are OR-ed into [ch_proto],
    "all" setting all 32 bits. *)
Theorem parse_opt_protocol_spec :
  forall arg g,
    let tokens := strtok_all is_comma_or_semicolon arg in
    let g' := parse_opt_protocol arg g in
    bpf_protocols g' =
      rev (map (fun p => mk_bpf p []) (bpf_tokens tokens)) ++ bpf_protocols g /\
    ch_proto g' =
      Z.lor (ch_proto g)
            (or_all (map (fun p => parse_protocol p true) tokens)) /\
    keytable g' = keytable g /\ rawtable g' = rawtable g /\
    raw_scancode g' = raw_scancode g.
Proof.
  intros arg g. apply fold_protocol_token.
Qed.

(** ** BPF parameters *)

Lemma find_param_In : forall params name,
  match find_param params name with
  | Some v => In (mk_param name v) params
  | None => forall v, ~ In (mk_param name v) params
  end.
Proof.
  induction params as [|param rest IH]; intros name; simpl.
  - intros v [].
  - unfold strcmp_eq. destruct (String.eqb_spec name (param_name param)).
    + left. destruct param; simpl in *; congruence.
    + specialize (IH name). destruct (find_param rest name).
      * now right.
      * intros v [E | Hin]; [|now apply (IH v)].
        apply n. rewrite E. reflexivity.
Qed.

(** X12: [bpf_param] finds a parameter exactly when the name occurs in the
    command-line list or in the keymap's list; a name given on the command
    line hides the keymap's value for it; a name in neither list gives
    -ENOENT and stores nothing. *)
Theorem bpf_param_lookup :
  forall bpf_parameter keymap_param name,
    (fst (bpf_param_get bpf_parameter keymap_param name) = 0 <->
     exists v, In (mk_param name v) (bpf_parameter ++ keymap_param)) /\
    (forall v, find_param bpf_parameter name = Some v ->
       bpf_param_get bpf_parameter keymap_param name =
         (0, Some (to_int v))) /\
    match bpf_param_get bpf_parameter keymap_param name with
    | (rc, Some i) =>
      rc = 0 /\
      exists v, i = to_int v /\
                In (mk_param name v) (bpf_parameter ++ keymap_param)
    | (rc, None) =>
      rc = - ENOENT /\
      forall v, ~ In (mk_param name v) (bpf_parameter ++ keymap_param)
    end.
Proof.
  intros gp lp name.
  pose proof (find_param_In gp name) as Hg.
  pose proof (find_param_In lp name) as Hl.
  unfold bpf_param_get.
  destruct (find_param gp name) as [vg|] eqn:Eg.
  - split; [|split].
    + split; [intros _ | reflexivity].
      exists vg. apply in_or_app. now left.
    + intros v H. now injection H as <-.
    + split; [reflexivity|]. exists vg. split; [reflexivity|].
      apply in_or_app. now left.
  - destruct (find_param lp name) as [vl|] eqn:El.
    + split; [|split].
      * split; [intros _ | reflexivity].
        exists vl. apply in_or_app. now right.
      * discriminate.
      * split; [reflexivity|]. exists vl. split; [reflexivity|].
        apply in_or_app. now right.
    + assert (Hno : forall v, ~ In (mk_param name v) (gp ++ lp)).
      { intros v Hv. apply in_app_or in Hv as [Hv | Hv].
        - now apply (Hg v).
        - now apply (Hl v). }
      split; [|split].
      * split; [cbn; discriminate|]. intros [v Hv]. now apply Hno in Hv.
      * discriminate.
      * split; [reflexivity | exact Hno].
Qed.

Lemma parse_opt_protocol_spec_witness :
  let g := parse_opt_protocol "rc-5x,foo;foo,nec,RC_6" initial_globals in
  bpf_protocols g = [mk_bpf "foo" []; mk_bpf "foo" []; mk_bpf "rc-5x" []] /\
  ch_proto g = Z.lor SYSFS_NEC SYSFS_RC6.
Proof.
  cbv zeta.
  destruct (parse_opt_protocol_spec "rc-5x,foo;foo,nec,RC_6" initial_globals)
    as (H1 & H2 & _).
  rewrite H1, H2. split; vm_compute; reflexivity.
Defined.

(** ** The configuration file *)

Lemma file_lines_bodies : forall size tl bodies,
  (2 <= size)%nat ->
  Forall (fun b => has_char is_newline b = false /\
                   (String.length b < size - 1)%nat) bodies ->
  file_lines size
    (fold_right (fun b text => (b ++ String newline text)%string) tl bodies) =
  map (fun b => (b ++ String newline "")%string) bodies ++ file_lines size tl.
Proof.
  intros size tl bodies Hsize; induction bodies as [|b rest IH]; intros Hok;
    [reflexivity|].
  inversion Hok as [|x l [Hn Hl] Hrest]; subst.
  cbn [fold_right map app].
  set (text := fold_right
                 (fun b text => (b ++ String newline text)%string) tl rest)
    in *.
  unfold file_lines at 1.
  rewrite string_length_app. cbn [String.length].
  rewrite Nat.add_succ_r. cbn [fgets_rounds].
  assert (Hf : fgets size (b ++ String newline text) =
               Some ((b ++ String newline "")%string, text)).
  { unfold fgets.
    destruct (b ++ String newline text)%string eqn:E.
    - destruct b; discriminate.
    - rewrite <- E. f_equal. now apply fgets_take_line. }
  rewrite Hf. f_equal.
  rewrite <- IH by assumption. unfold file_lines.
  apply fgets_rounds_enough; lia.
Qed.

Lemma skip_delims_indent : forall delim indent s,
  all_chars delim indent = true -> delim (deref s) = false ->
  skip_delims delim (indent ++ s) = s.
Proof.
  intros delim indent s Hi Hs. induction indent as [|c indent IH].
  - destruct s as [|x s]; [reflexivity|]. simpl in *. now rewrite Hs.
  - unfold all_chars in Hi. simpl in Hi.
    apply negb_true_iff in Hi. apply orb_false_elim in Hi as [Hc Hi].
    apply negb_false_iff in Hc. simpl. rewrite Hc. apply IH.
    unfold all_chars. now rewrite Hi.
Qed.

Lemma deref_app : forall a b, a <> EmptyString -> deref (a ++ b) = deref a.
Proof. intros [|c a] b H; [contradiction | reflexivity]. Qed.

Lemma has_char_deref : forall p s,
  s <> EmptyString -> has_char p s = false -> p (deref s) = false.
Proof.
  intros p [|c s] Hne H; [contradiction|].
  simpl in H. now apply orb_false_elim in H as [H _].
Qed.

Lemma cfg_line_rule : forall indent r rest line,
  cfg_item_ok (cfg_rule indent r) ->
  cfg_of_lines ((cfg_body (cfg_rule indent r) ++ String newline "")%string
                  :: rest) line =
  let '(rc, rules, l) := cfg_of_lines rest (S line) in (rc, r :: rules, l).
Proof.
  intros indent [driver table fname] rest line
         (_ & Hi & (Hd & Hdb & Hdn) & Hdh & (Ht & Htb & Htn) & Hf & Hfe).
  cbn [cfg_driver cfg_table cfg_fname] in *.
  cbn [cfg_of_lines cfg_body cfg_driver cfg_table cfg_fname].
  rewrite !string_app_assoc.
  assert (Hd0 : is_space_or_tab (deref driver) = false)
    by now apply has_char_deref.
  rewrite skip_delims_indent
    by (auto; rewrite deref_app by assumption; exact Hd0).
  rewrite deref_app by assumption.
  assert (Hdn0 : Ascii.eqb (deref driver) newline = false)
    by (apply (has_char_deref is_newline); assumption).
  rewrite Hdn0. apply Ascii.eqb_neq in Hdh. rewrite Hdh. cbn [orb].
  cbn [append].
  rewrite strtok_first by (auto; reflexivity).
  rewrite !string_app_assoc. cbn [append].
  rewrite strtok_first by (auto; reflexivity).
  rewrite strtok_first
    by (auto; unfold is_fname_end; rewrite Ascii.eqb_refl;
        apply orb_true_r).
  reflexivity.
Qed.

Lemma cfg_line_skipped : forall indent x tail rest line,
  all_chars is_space_or_tab indent = true ->
  x = newline \/ x = "#"%char ->
  cfg_of_lines ((indent ++ String x tail)%string :: rest) line =
  cfg_of_lines rest (S line).
Proof.
  intros indent x tail rest line Hi Hx. cbn [cfg_of_lines].
  rewrite skip_delims_indent;
    [| exact Hi | destruct Hx as [-> | ->]; reflexivity].
  cbn [deref]. destruct Hx as [-> | ->]; reflexivity.
Qed.

Lemma cfg_line_short : forall indent driver table rest line,
  cfg_item_ok (cfg_short indent driver table) ->
  cfg_of_lines
    ((cfg_body (cfg_short indent driver table) ++ String newline "")%string
       :: rest) line = (EINVAL, [], S line).
Proof.
  intros indent driver table rest line
         (_ & Hi & (Hd & Hdb & Hdn) & Hdh & (Ht & Htb & Htn)).
  cbn [cfg_of_lines cfg_body]. rewrite !string_app_assoc.
  assert (Hd0 : is_space_or_tab (deref driver) = false)
    by now apply has_char_deref.
  rewrite skip_delims_indent
    by (auto; rewrite deref_app by assumption; exact Hd0).
  rewrite deref_app by assumption.
  assert (Hdn0 : Ascii.eqb (deref driver) newline = false)
    by (apply (has_char_deref is_newline); assumption).
  rewrite Hdn0. apply Ascii.eqb_neq in Hdh. rewrite Hdh. cbn [orb].
  cbn [append].
  rewrite strtok_first by (auto; reflexivity).
  rewrite strtok_whole.
  - reflexivity.
  - destruct table; [contradiction | discriminate].
  - rewrite has_char_app, Htb. reflexivity.
Qed.

Lemma cfg_of_rendered_lines : forall items line,
  Forall cfg_item_ok items ->
  cfg_of_lines
    (map (fun b => (b ++ String newline "")%string) (map cfg_body items))
    line = cfg_expected items line.
Proof.
  induction items as [|item rest IH]; intros line Hok; [reflexivity|].
  inversion Hok as [|x l Hitem Hrest]; subst.
  cbn [map]. destruct item as [indent r | indent text | indent | indent d t].
  - rewrite cfg_line_rule by assumption. cbn [cfg_expected].
    now rewrite IH.
  - destruct Hitem as (_ & Hi & _). cbn [cfg_body cfg_expected].
    rewrite string_app_assoc. cbn [append].
    rewrite cfg_line_skipped by auto. now apply IH.
  - destruct Hitem as (_ & Hi). cbn [cfg_body cfg_expected].
    rewrite cfg_line_skipped by auto. now apply IH.
  - rewrite cfg_line_short by assumption. reflexivity.
Qed.

Lemma cfg_body_no_newline : forall item,
  cfg_item_ok item -> has_char is_newline (cfg_body item) = false.
Proof.
  assert (Hblank : forall indent, all_chars is_space_or_tab indent = true ->
                                  has_char is_newline indent = false).
  { induction indent as [|c indent IH]; intros H; [reflexivity|].
    unfold all_chars in H. simpl in H.
    apply negb_true_iff in H. apply orb_false_elim in H as [Hc H].
    apply negb_false_iff in Hc. simpl. rewrite IH
      by (unfold all_chars; now rewrite H).
    rewrite orb_false_r. unfold is_space_or_tab in Hc. unfold is_newline.
    destruct (Ascii.eqb_spec c newline) as [-> | _];
      [discriminate | reflexivity]. }
  assert (Hfname : forall s, has_char is_fname_end s = false ->
                             has_char is_newline s = false).
  { induction s as [|c s IH]; intros H; [reflexivity|].
    simpl in H. apply orb_false_elim in H as [Hc H]. simpl.
    rewrite (IH H), orb_false_r.
    unfold is_fname_end in Hc. apply orb_false_elim in Hc as [_ Hc].
    exact Hc. }
  intros [indent [driver table fname] | indent text | indent | indent d t]
         (_ & H); cbn [cfg_body cfg_driver cfg_table cfg_fname] in *.
  - destruct H as (Hi & (_ & _ & Hdn) & _ & (_ & _ & Htn) & _ & Hfe).
    rewrite !has_char_app. cbn [has_char]. rewrite !has_char_app.
    cbn [has_char]. rewrite (Hblank _ Hi), Hdn, Htn, (Hfname _ Hfe).
    reflexivity.
  - destruct H as (Hi & Ht). rewrite has_char_app. cbn [has_char].
    rewrite (Hblank _ Hi), Ht. reflexivity.
  - now apply Hblank.
  - destruct H as (Hi & (_ & _ & Hdn) & _ & (_ & _ & Htn)).
    rewrite !has_char_app. cbn [has_char].
    rewrite (Hblank _ Hi), Hdn, Htn. reflexivity.
Qed.

(** X13: [parse_cfgfile] on a file made of rule lines (three fields),
    comment lines, empty lines and lines that stop after the table name:
    comments and empty lines are passed over, every rule is stored in file
    order, and the first line with only two fields ends the parse with
    EINVAL and its line number, the rules before it staying stored and
    nothing after it being read; without such a line the result is 0. *)
Theorem parse_cfgfile_spec :
  forall items open_errno,
    Forall cfg_item_ok items ->
    parse_cfgfile (Some (cfg_text items)) open_errno = cfg_expected items 0.
Proof.
  intros items open_errno Hok. unfold parse_cfgfile, cfg_text.
  assert (E : fold_right
                (fun item text => (cfg_body item ++ String newline text)%string)
                EmptyString items =
              fold_right (fun b text => (b ++ String newline text)%string)
                EmptyString (map cfg_body items)).
  { clear Hok. induction items as [|i rest IH]; [reflexivity|].
    simpl. now rewrite IH. }
  rewrite E, file_lines_bodies; [| lia |].
  - rewrite app_nil_r. now apply cfg_of_rendered_lines.
  - apply Forall_map. eapply Forall_impl; [|exact Hok].
    intros item Hitem. split; [now apply cfg_body_no_newline|].
    destruct Hitem as [Hlen _]. simpl. lia.
Qed.

Lemma parse_cfgfile_spec_witness :
  parse_cfgfile (Some (cfg_text sample_cfg_items)) 0 =
    (EINVAL,
     [ mk_cfg "em28xx" "*" "rc_keymaps/hauppauge.toml";
       mk_cfg "*" "rc-rc6-mce" "rc6_mce.toml" ], 5%nat).
Proof.
  apply (parse_cfgfile_spec sample_cfg_items 0).
  unfold sample_cfg_items.
  repeat (apply Forall_cons;
          [ unfold cfg_item_ok, cfg_field_ok;
            cbn [cfg_body cfg_driver cfg_table cfg_fname];
            repeat (split; try reflexivity; try discriminate);
            cbn [String.length append]; lia
          | ]).
  apply Forall_nil.
Defined.

(** ** The -k option *)

Lemma strtok_shrinks : forall delim s t rest,
  strtok delim s = Some (t, rest) ->
  (String.length rest < String.length s)%nat.
Proof.
  intros delim s t rest H. unfold strtok in H.
  assert (Hskip : (String.length (skip_delims delim s) <= String.length s)%nat).
  { clear H. induction s as [|c s IH]; [simpl; lia|].
    simpl. destruct (delim c); simpl; lia. }
  assert (Htake : forall u, (String.length (snd (take_token delim u))
                             <= String.length u)%nat).
  { induction u as [|c u IH]; [simpl; lia|].
    simpl. destruct (delim c); [simpl; lia|].
    destruct (take_token delim u); simpl in *. lia. }
  destruct (skip_delims delim s) as [|c u] eqn:E; [discriminate|].
  injection H as H. simpl in H.
  assert (Hc : delim c = false).
  { clear - E. induction s as [|x s IH]; [discriminate|].
    simpl in E. destruct (delim x) eqn:Ex; [auto|].
    injection E as <- _. exact Ex. }
  rewrite Hc in H. specialize (Htake u).
  destruct (take_token delim u) as [t' r']. injection H as <- <-.
  simpl in *. lia.
Qed.

Section SetKeyFacts.

Variable key_events : list (string * Z).

(** The loop always ends within the fuel [set_key] gives it. *)
Lemma set_key_loop_fuel : forall fuel p g,
  match p with
  | Some (_, rest) => (String.length rest < fuel)%nat
  | None => (0 < fuel)%nat
  end ->
  exists r, set_key_loop key_events fuel p g = Some r.
Proof.
  induction fuel as [|fuel IH]; intros p g Hp.
  - destruct p as [[t rest]|]; lia.
  - cbn [set_key_loop]. destruct p as [[token rest]|]; [|eauto].
    destruct (strtoull0 token) as [scancode erange].
    destruct (negb ((if erange then ERANGE else errno g) =? 0)); [eauto|].
    destruct (strtok is_comma_or_semicolon rest) as [[token2 rest2]|] eqn:E2;
      [|eauto].
    apply strtok_shrinks in E2.
    destruct (inline_keycode key_events _ token2) as [key e2].
    destruct ((parse_code key_events token2 =? -1) && negb (e2 =? 0));
      [eauto|].
    destruct (strtok is_colon_or_equals rest2) as [[t3 rest3]|] eqn:E3;
      [|eauto].
    apply strtok_shrinks in E3. apply IH. lia.
Qed.

(** X21: the [-k] loop comes to an end on every argument: within the rounds
    [set_key] allows (one more than the length of the argument) it has either
    set its bindings or refused the argument. *)
Theorem set_key_fuel_suffices : forall arg g,
  exists r, set_key key_events arg g = Some r.
Proof.
  intros arg g. unfold set_key. apply set_key_loop_fuel.
  destruct (strtok is_colon_or_equals arg) as [[t rest]|] eqn:E; [|lia].
  apply strtok_shrinks in E. lia.
Qed.

Lemma inline_text_cons : forall s k rest,
  inline_text ((s, k) :: rest) = (s ++ String "=" (inline_tail k rest))%string.
Proof. intros s k [|p rest]; reflexivity. Qed.

Lemma set_key_loop_pairs : forall rest fuel s k g,
  Forall (inline_pair_ok key_events) ((s, k) :: rest) ->
  errno g = 0 ->
  (List.length rest < fuel)%nat ->
  exists g',
    set_key_loop key_events fuel (Some (s, inline_tail k rest)) g =
      Some (keys_set g') /\
    keytable g' =
      rev (map (inline_binding key_events) ((s, k) :: rest)) ++ keytable g /\
    rawtable g' = rawtable g /\ raw_scancode g' = raw_scancode g /\
    ch_proto g' = ch_proto g /\ bpf_protocols g' = bpf_protocols g /\
    errno g' = 0.
Proof.
  induction rest as [|[s2 k2] rest IH]; intros fuel s k g Hok He Hfuel.
  - inversion Hok as [|x l (Hs & Hsd & Hk & Hkd & Hsr & Hkr) _]; subst.
    cbn [fst snd] in *.
    destruct fuel as [|fuel]; [simpl in Hfuel; lia|].
    cbn [set_key_loop inline_tail].
    destruct (strtoull0 s) as [scancode erange] eqn:Es.
    cbn [snd] in Hsr. subst erange. rewrite He. cbn [Z.eqb negb].
    rewrite strtok_whole by assumption.
    destruct (inline_keycode key_events 0 k) as [key e2] eqn:Ek.
    cbn [snd] in Hkr. subst e2. cbn [Z.eqb negb]. rewrite andb_false_r.
    cbn [strtok skip_delims].
    eexists. split; [reflexivity|].
    unfold inline_binding. cbn [fst snd map rev app keytable push_key
      set_errno rawtable raw_scancode ch_proto bpf_protocols errno].
    rewrite Es, Ek. cbn [fst]. auto 10.
  - inversion Hok as [|x l (Hs & Hsd & Hk & Hkd & Hsr & Hkr) Hrest]; subst.
    cbn [fst snd] in *.
    destruct fuel as [|fuel]; [simpl in Hfuel; lia|].
    cbn [List.length] in Hfuel.
    cbn [set_key_loop inline_tail].
    destruct (strtoull0 s) as [scancode erange] eqn:Es.
    cbn [snd] in Hsr. subst erange. rewrite He. cbn [Z.eqb negb].
    rewrite strtok_first by (auto; reflexivity).
    destruct (inline_keycode key_events 0 k) as [key e2] eqn:Ek.
    cbn [snd] in Hkr. subst e2. cbn [Z.eqb negb]. rewrite andb_false_r.
    rewrite inline_text_cons.
    inversion Hrest as [|y l2 (Hs2 & Hsd2 & _) _]; subst.
    cbn [fst snd] in *.
    rewrite strtok_first by (auto; reflexivity).
    destruct (IH fuel s2 k2
                (push_key (set_errno g 0) (mk_ke scancode (to_u32 key)))
                Hrest eq_refl ltac:(lia))
      as (g' & E & Hkt & H1 & H2 & H3 & H4 & H5).
    exists g'. split; [exact E|].
    cbn [keytable push_key set_errno rawtable raw_scancode ch_proto
         bpf_protocols] in Hkt, H1, H2, H3, H4.
    split; [|auto 10].
    assert (Hb : inline_binding key_events (s, k) =
                 mk_ke scancode (to_u32 key))
      by (unfold inline_binding; cbn [fst snd]; now rewrite Es, Ek).
    rewrite Hkt. cbn [map rev]. rewrite Hb.
    rewrite <- !app_assoc. reflexivity.
Qed.

(** X14: the [-k] option on an argument [s1=k1,s2=k2,...] whose tokens are
    in order (scancodes in range, keycodes a key name or a number in range)
    and with [errno] clear: every pair becomes one binding, scancode by
    [strtoull] and keycode by name or by [strtol], and the bindings are put
    in front of the keytable one after the other, the last pair of the
    argument on top; nothing else changes. *)
Theorem set_key_pairs :
  forall pairs g,
    pairs <> [] ->
    errno g = 0 ->
    Forall (inline_pair_ok key_events) pairs ->
    exists g',
      set_key key_events (inline_text pairs) g = Some (keys_set g') /\
      keytable g' =
        rev (map (inline_binding key_events) pairs) ++ keytable g /\
      rawtable g' = rawtable g /\ raw_scancode g' = raw_scancode g /\
      ch_proto g' = ch_proto g /\ bpf_protocols g' = bpf_protocols g.
Proof.
  intros [|[s k] rest] g Hne He Hok; [contradiction|].
  inversion Hok as [|x l (Hs & Hsd & _) _]; subst. cbn [fst] in *.
  unfold set_key. rewrite inline_text_cons.
  rewrite strtok_first by (auto; reflexivity).
  destruct (set_key_loop_pairs rest
              (S (String.length (s ++ String "=" (inline_tail k rest))))
              s k g Hok He)
    as (g' & E & H1 & H2 & H3 & H4 & H5 & _).
  - rewrite string_length_app. cbn [String.length].
    assert (Hlen : forall k rest,
              (List.length rest <= String.length (inline_tail k rest))%nat).
    { clear. intros k rest; revert k.
      induction rest as [|[s2 k2] rest IH]; intros k; [simpl; lia|].
      cbn [inline_tail]. rewrite string_length_app. cbn [String.length].
      rewrite inline_text_cons, string_length_app. cbn [String.length].
      specialize (IH k2). cbn [List.length]. lia. }
    specialize (Hlen k rest). lia.
  - exists g'. auto 10.
Qed.

(** X15: the [-k] option refuses an argument without any scancode token
    (empty, or made of [:] and [=] only) with "Missing scancode", and, with
    [errno] clear, an argument that is one token without [:] or [=] - a
    scancode with nothing to map it to - with "Missing keycode"; in both
    cases the program ends without a binding made. *)
Theorem set_key_missing_parts :
  forall arg g,
    (has_char (fun c => negb (is_colon_or_equals c)) arg = false ->
     set_key key_events arg g = Some (keys_refused missing_scancode)) /\
    (arg <> EmptyString -> has_char is_colon_or_equals arg = false ->
     errno g = 0 -> snd (strtoull0 arg) = false ->
     set_key key_events arg g = Some (keys_refused missing_keycode)).
Proof.
  intros arg g. split.
  - intros Hall.
    assert (Hskip : skip_delims is_colon_or_equals arg = EmptyString).
    { induction arg as [|c arg IH]; [reflexivity|].
      simpl in Hall. apply orb_false_elim in Hall as [Hc Hall].
      apply negb_false_iff in Hc. simpl. rewrite Hc. auto. }
    unfold set_key, strtok. rewrite Hskip. reflexivity.
  - intros Hne Hno He Hr.
    unfold set_key. rewrite strtok_whole by assumption.
    cbn [set_key_loop].
    destruct (strtoull0 arg) as [scancode erange]. cbn [snd] in Hr.
    subst erange. rewrite He. reflexivity.
Qed.

End SetKeyFacts.

Lemma set_key_pairs_witness :
  exists g',
    set_key sample_key_events "0x10=KEY_UP,257=0x74,foo=KEY_BOGUS"
            initial_globals = Some (keys_set g') /\
    keytable g' = [mk_ke 0 0; mk_ke 257 116; mk_ke 16 103].
Proof.
  destruct (set_key_pairs sample_key_events
              [("0x10", "KEY_UP"); ("257", "0x74"); ("foo", "KEY_BOGUS")]%string
              initial_globals)
    as (g' & E & Hk & _).
  - discriminate.
  - reflexivity.
  - repeat (apply Forall_cons;
            [ unfold inline_pair_ok; cbn [fst snd];
              repeat (split; [first [discriminate | vm_compute; reflexivity]|]);
              vm_compute; reflexivity
            | ]).
    apply Forall_nil.
  - exists g'. split; [exact E|]. rewrite Hk. vm_compute. reflexivity.
Defined.

Lemma set_key_missing_parts_witness :
  set_key sample_key_events "0x10" initial_globals =
    Some (keys_refused missing_keycode) /\
  set_key sample_key_events "==" initial_globals =
    Some (keys_refused missing_scancode).
Proof.
  split.
  - apply (proj2 (set_key_missing_parts sample_key_events "0x10"
                    initial_globals));
      [discriminate | reflexivity | reflexivity | vm_compute; reflexivity].
  - apply (proj1 (set_key_missing_parts sample_key_events "=="
                    initial_globals)).
    reflexivity.
Defined.

(** ** Clearing the kernel table *)

Lemma lor_shiftl_8 : forall j i,
  0 <= j -> 0 <= i < 256 -> Z.lor (Z.shiftl j 8) i = j * 256 + i.
Proof.
  intros j i Hj Hi.
  assert (Hland : Z.land (Z.shiftl j 8) i = 0).
  { apply Z.bits_inj'. intros n Hn. rewrite Z.land_spec, Z.bits_0.
    destruct (Z.ltb_spec n 8).
    - rewrite Z.shiftl_spec_low by lia. reflexivity.
    - assert (Hb : Z.testbit i n = false).
      { destruct (Z.eqb_spec i 0) as [-> | Hne]; [apply Z.bits_0|].
        apply Z.bits_above_log2; [lia|].
        assert (Z.log2 i < 8) by (apply Z.log2_lt_pow2; lia). lia. }
      rewrite Hb. apply andb_false_r. }
  rewrite <- Z.lxor_lor by assumption.
  rewrite <- Z.add_nocarry_lxor by assumption.
  rewrite Z.shiftl_mul_pow2 by lia. reflexivity.
Qed.

Lemma legacy_row : forall j n,
  (n < 256)%nat -> 0 <= j < 256 ->
  nth_error
    (map (fun i => EVIOCSKEYCODE (to_u32 (Z.lor (Z.shiftl j 8) i)) KEY_RESERVED)
         (counter_values 256)) n =
  Some (EVIOCSKEYCODE (j * 256 + Z.of_nat n) KEY_RESERVED).
Proof.
  intros j n Hn Hj. unfold counter_values.
  rewrite map_map.
  rewrite (nth_error_map _ n (seq 0 256)).
  assert (E : nth_error (seq 0 256) n = Some n).
  { rewrite nth_error_nth' with (d := O) by (rewrite length_seq; lia).
    now rewrite seq_nth. }
  rewrite E. cbn [option_map]. f_equal. f_equal.
  rewrite lor_shiftl_8 by lia.
  unfold to_u32. apply Z.mod_small. lia.
Qed.

Lemma row_length : forall (f : Z -> ioctl_request),
  List.length (map f (counter_values 256)) = 256%nat.
Proof.
  intros f. unfold counter_values.
  rewrite !length_map, length_seq. reflexivity.
Qed.

Lemma legacy_rows : forall len a n,
  (a + len <= 256)%nat -> (n < len * 256)%nat ->
  nth_error
    (flat_map
       (fun j =>
          map (fun i =>
                 EVIOCSKEYCODE (to_u32 (Z.lor (Z.shiftl j 8) i)) KEY_RESERVED)
              (counter_values 256))
       (map Z.of_nat (seq a len))) n =
  Some (EVIOCSKEYCODE (Z.of_nat (a * 256 + n)) KEY_RESERVED).
Proof.
  induction len as [|len IH]; intros a n Ha Hn; [lia|].
  cbn [seq map flat_map].
  destruct (Nat.lt_ge_cases n 256) as [Hlt | Hge].
  - rewrite nth_error_app1 by (rewrite row_length; exact Hlt).
    rewrite legacy_row by lia. f_equal. f_equal. lia.
  - rewrite nth_error_app2 by (rewrite row_length; exact Hge).
    rewrite row_length.
    rewrite IH by lia. f_equal. f_equal. lia.
Qed.

(** X16: the legacy branch of [clear_table] makes 65536 requests, the n-th
    of which sets scancode n to KEY_RESERVED: the two nested loops go through
    the whole 16-bit scancode space once, in increasing order. *)
Theorem legacy_clear_covers_16_bits :
  Z.of_nat (List.length legacy_clear_requests) = 65536 /\
  forall n, Z.of_nat n < 65536 ->
    nth_error legacy_clear_requests n =
    Some (EVIOCSKEYCODE (Z.of_nat n) KEY_RESERVED).
Proof.
  split.
  - unfold legacy_clear_requests.
    rewrite (flat_map_constant_length (c := 256%nat))
      by (intros x _; apply row_length).
    unfold counter_values. rewrite length_map, length_seq. reflexivity.
  - intros n Hn. unfold legacy_clear_requests, counter_values at 2.
    rewrite (legacy_rows 256 0 n) by lia. reflexivity.
Qed.

Section ClearTableFacts.

Variable kernel : Type.
Variable ioctl : kernel -> ioctl_request -> kernel * Z.

(** X17: on a kernel where every accepted deletion makes the table smaller
    (by some measure), the indexed branch of [clear_table] comes to an end:
    with fuel beyond the measure it returns, after at least one and at most
    measure + 1 requests to delete index 0. *)
Theorem clear_v2_loop_terminates :
  forall (measure : kernel -> nat),
    (forall k, snd (ioctl k delete_first_entry) = 0 ->
               (measure (fst (ioctl k delete_first_entry)) < measure k)%nat) ->
    forall fuel k,
      (measure k < fuel)%nat ->
      exists k' n,
        clear_v2_loop kernel ioctl fuel k = Some (k', n) /\
        (1 <= n <= S (measure k))%nat.
Proof.
  intros measure Hm. induction fuel as [|fuel IH]; intros k Hk; [lia|].
  cbn [clear_v2_loop]. specialize (Hm k).
  destruct (ioctl k delete_first_entry) as [k1 ret]. cbn [fst snd] in Hm.
  destruct (Z.eqb_spec ret 0) as [-> | Hne].
  - specialize (Hm eq_refl).
    destruct (IH k1 ltac:(lia)) as (k' & n & E & Hn).
    rewrite E. exists k', (S n). split; [reflexivity | lia].
  - exists k1, 1%nat. split; [reflexivity | lia].
Qed.

End ClearTableFacts.

Lemma clear_v2_loop_terminates_witness :
  exists k' n,
    clear_v2_loop nat counting_ioctl 8 5%nat = Some (k', n) /\
    (1 <= n <= S 5)%nat.
Proof.
  apply (clear_v2_loop_terminates nat counting_ioctl (fun k => k)).
  - intros [|k] H; [discriminate | simpl; lia].
  - lia.
Defined.

(** ** Software decoders *)

Lemma prefix_app_l : forall p q s,
  String.prefix (p ++ q) s = true -> String.prefix p s = true.
Proof.
  induction p as [|c p IH]; intros q s H; [destruct s; reflexivity|].
  destruct s as [|x s]; [discriminate|].
  simpl in H |- *. destruct (Ascii.ascii_dec c x); [eauto | discriminate].
Qed.

Lemma strstr_app_l : forall s p q,
  strstr s (p ++ q) = true -> strstr s p = true.
Proof.
  induction s as [|c s IH]; intros p q H.
  - cbn [strstr] in H |- *. rewrite orb_false_r in *.
    exact (prefix_app_l p q ""%string H).
  - cbn [strstr] in H |- *. apply orb_prop in H as [H | H].
    + apply prefix_app_l in H. rewrite H. reflexivity.
    + rewrite (IH _ _ H). apply orb_true_r.
Qed.

Lemma sw_decoder_loop_supported : forall fs name pm d,
  supported (sw_decoder_loop fs name pm d) =
  Z.lor (supported d) (decoder_bit_in pm name).
Proof.
  intros fs name pm; induction pm as [|pme rest IH]; intros d.
  - simpl. now rewrite Z.lor_0_r.
  - simpl. destruct (sysfs1_name pme) as [fragment|]; [|apply IH].
    destruct (strstr name fragment); [|apply IH].
    destruct (negb (v1_get_sw_enabled_protocol fs name =? 0)); simpl;
      [|reflexivity].
    now rewrite <- Z.lor_assoc, Z.lor_diag.
Qed.

Lemma sw_decoder_supported : forall fs name d,
  supported (sw_decoder_loop fs name protocol_map d) =
  Z.lor (supported d) (decoder_bit name).
Proof. intros. apply sw_decoder_loop_supported. Qed.

Lemma attribs_loop_plain : forall fs attribs d,
  Forall plain_node attribs ->
  version (attribs_loop fs attribs d) = version d /\
  type (attribs_loop fs attribs d) = type d /\
  current (attribs_loop fs attribs d) = current d /\
  supported (attribs_loop fs attribs d) =
    Z.lor (supported d) (or_all (map decoder_bit attribs)).
Proof.
  intros fs attribs; induction attribs as [|name rest IH]; intros d Hp.
  - simpl. now rewrite Z.lor_0_r.
  - inversion Hp as [|x l [H1 H2] Hrest]; subst.
    assert (H0 : strstr name "/protocols" = false).
    { destruct (strstr name "/protocols") eqn:E; [|reflexivity].
      change "/protocols"%string with ("/protocol" ++ "s")%string in E.
      apply strstr_app_l in E. congruence. }
    cbn [attribs_loop]. rewrite H0, H1, H2.
    destruct (IH (sw_decoder_loop fs name protocol_map d) Hrest)
      as (I1 & I2 & I3 & I4).
    destruct (sw_decoder_loop_frame fs name protocol_map d)
      as (F1 & F2 & F3).
    rewrite I1, I2, I3, I4, F1, F2, F3, sw_decoder_supported.
    change (or_all (map decoder_bit (name :: rest)))
      with (Z.lor (decoder_bit name) (or_all (map decoder_bit rest))).
    now rewrite Z.lor_assoc.
Qed.

(** X18: for a device directory none of whose nodes is a protocol file
    ([protocols], [protocol], [supported_protocols]), a successful
    [get_attribs] leaves a V1 software decoder whose [supported] mask is the
    OR, over the nodes, of the catalog bit whose sysfs fragment the node name
    contains - and whose [current] mask is empty. *)
Theorem get_attribs_software_decoder :
  forall fs name d attribs,
    get_attribs fs name = Some (0, d) ->
    seek_sysfs_dir fs name None = Some attribs ->
    Forall plain_node attribs ->
    version d = VERSION_1 /\ type d = SOFTWARE_DECODER /\
    supported d = or_all (map decoder_bit attribs) /\
    current d = 0.
Proof.
  intros fs name d attribs H Hseek Hplain. unfold get_attribs in H.
  rewrite Hseek in H.
  repeat match type of H with
         | match ?x with _ => _ end = _ => destruct x
         end;
    try discriminate.
  injection H as <-.
  match goal with
  | |- version (attribs_loop fs attribs ?x) = _ /\ _ =>
    destruct (attribs_loop_plain fs attribs x Hplain) as (A1 & A2 & A3 & A4)
  end.
  rewrite A1, A2, A3, A4. cbn [version type current supported].
  rewrite Z.lor_0_l. auto.
Qed.

Lemma get_attribs_software_decoder_witness :
  exists d,
    get_attribs v1_sw_tree "/sys/class/rc/rc0/" = Some (0, d) /\
    type d = SOFTWARE_DECODER /\
    supported d = Z.lor SYSFS_RC5 SYSFS_NEC /\ current d = 0.
Proof.
  assert (E : exists d, get_attribs v1_sw_tree "/sys/class/rc/rc0/" =
                        Some (0, d))
    by (eexists; vm_compute; reflexivity).
  destruct E as [d E]. exists d. split; [exact E|].
  destruct (get_attribs_software_decoder v1_sw_tree _ d
              ["/sys/class/rc/rc0/."; "/sys/class/rc/rc0/..";
               "/sys/class/rc/rc0/uevent"; "/sys/class/rc/rc0/input5";
               "/sys/class/rc/rc0/rc5_decoder";
               "/sys/class/rc/rc0/nec_decoder"]%string E)
    as (_ & Ht & Hs & Hc).
  - vm_compute. reflexivity.
  - repeat (apply Forall_cons; [split; vm_compute; reflexivity|]).
    apply Forall_nil.
  - split; [exact Ht|]. split; [|exact Hc].
    rewrite Hs. vm_compute. reflexivity.
Defined.

(** ** From the keymap to the kernel *)

Section ReplayOrder.

Variable key_events : list (string * Z).
Variable kernel : Type.
Variable ioctl : kernel -> ioctl_request -> kernel * Z.

Lemma scancode_loop_named : forall fname ses g,
  (forall se, In se ses -> parse_code key_events (se_keycode se) <> -1) ->
  keytable (fst (scancode_loop key_events fname ses g)) =
    rev (map (named_binding key_events) ses) ++ keytable g /\
  snd (scancode_loop key_events fname ses g) = [].
Proof.
  intros fname ses; induction ses as [|se rest IH]; intros g Hn;
    [split; reflexivity|].
  assert (Hse : parse_code key_events (se_keycode se) <> -1)
    by (apply Hn; now left).
  cbn [scancode_loop]. unfold keycode_value.
  destruct (Z.eqb_spec (parse_code key_events (se_keycode se)) (-1));
    [contradiction|].
  destruct (IH (push_key (set_errno g (errno g))
                  (mk_ke (se_scancode se)
                     (to_u32 (parse_code key_events (se_keycode se)))))
               (fun x Hx => Hn x (or_intror Hx))) as [I1 I2].
  rewrite I1, I2. split; [|reflexivity].
  cbn [map rev keytable push_key set_errno]. rewrite <- app_assoc.
  reflexivity.
Qed.

(** X19: the keytable is a stack.  The scancode entries of a keymap, all
    with key names for keycodes, merged into an empty keytable, are
    programmed by [add_keys] in the reverse of their order in the file: the
    first request is for the last entry, the last request for the first. *)
Theorem bindings_programmed_in_reverse :
  forall fname ses g k,
    keytable g = [] ->
    (forall se, In se ses ->
       parse_code key_events (se_keycode se) <> -1 /\
       0 <= se_scancode se < 2 ^ 64) ->
    Z.of_nat (List.length ses) <= INT_MAX ->
    let g1 := fst (scancode_loop key_events fname ses g) in
    let '(_, _, reqs, _, cnt) := add_keys kernel ioctl g1 k in
    reqs = rev (map (fun se => request_of (named_binding key_events se)) ses) /\
    cnt = Z.of_nat (List.length ses).
Proof.
  intros fname ses g k Hempty Hses Hlen. cbv zeta.
  destruct (scancode_loop_named fname ses g (fun se H => proj1 (Hses se H)))
    as [Hkt _].
  rewrite Hempty, app_nil_r in Hkt.
  unfold add_keys.
  destruct (add_keys_loop kernel ioctl
              (keytable (fst (scancode_loop key_events fname ses g))) k 0)
    as [[[k' reqs] failed] cnt] eqn:E.
  apply add_keys_loop_spec in E.
  - destruct E as (E1 & E2 & _). rewrite Hkt in E1, E2.
    rewrite E1, E2. split.
    + rewrite map_rev, map_map. reflexivity.
    + rewrite length_rev, length_map. lia.
  - rewrite Hkt. apply Forall_forall. intros ke Hke.
    apply in_rev in Hke. apply in_map_iff in Hke as (se & <- & Hse).
    split; [exact (proj2 (Hses se Hse))|].
    cbn [ke_keycode named_binding]. unfold to_u32.
    apply Z.mod_pos_bound. lia.
  - lia.
  - rewrite Hkt, length_rev, length_map. lia.
Qed.

End ReplayOrder.

Lemma bindings_programmed_in_reverse_witness :
  let ses := [mk_se 256 "KEY_POWER"; mk_se 257 "KEY_UP"; mk_se 256 "KEY_OK"] in
  let g1 := fst (scancode_loop sample_key_events "a.toml" ses initial_globals) in
  let '(_, _, reqs, _, cnt) := add_keys unit accepting_ioctl g1 tt in
  reqs = rev (map (fun se => request_of (named_binding sample_key_events se))
                  ses) /\
  cnt = Z.of_nat (List.length ses).
Proof.
  apply (bindings_programmed_in_reverse sample_key_events unit accepting_ioctl
           "a.toml"
           [mk_se 256 "KEY_POWER"; mk_se 257 "KEY_UP"; mk_se 256 "KEY_OK"]
           initial_globals tt).
  - reflexivity.
  - intros se [<- | [<- | [<- | []]]];
      (split; [vm_compute; discriminate | cbn [se_scancode]; lia]).
  - vm_compute. discriminate.
Defined.
